(** * slcsp: the tabular join/filter engine of [src/main.js]

    A shallow embedding of the CSV line parser ([parseCSV],
    [convertRowToObj], [filterRowObj]), the query filter
    ([createQueryFilter]), the join key mapper ([createJoinMapper]) and the
    sheet merger ([mergeSheets]), followed by the properties of the
    specification that are settled against them.

    Conventions of the embedding.
    - A JavaScript string is a [string]; each character stands for one code
      unit in the range 0..255.
    - A plain object is the list of its own properties in creation order
      ([obj]).  The order in which the properties are enumerated is derived
      from it ([ownKeys]): array indices first, in ascending order, then the
      other names in creation order.  Reading a property that is not an own
      property falls back on [Object.prototype], as [row[key]] does in the
      source.
    - An exception ([TypeError]) is the [Throw] outcome of [result]. *)

From Stdlib Require Import String Ascii List Bool Arith NArith Lia Permutation.
Import ListNotations.
Local Open Scope string_scope.
Local Open Scope list_scope.
Local Open Scope nat_scope.

Set Implicit Arguments.

(** ** Outcomes: a value or a thrown [TypeError] *)

Inductive result (A : Type) : Type :=
| Ok (a : A)
| Throw.
Arguments Ok {A} a.
Arguments Throw {A}.

Definition bind {A B} (r : result A) (k : A -> result B) : result B :=
  match r with
  | Ok a => k a
  | Throw => Throw
  end.

Notation "'let*' x ':=' r 'in' k" := (bind r (fun x => k))
  (at level 10, x name, r at level 100, k at level 200).

(** [xs.map(f)] for a callback that may throw: elements are visited left to
    right and the first exception aborts the map. *)
Fixpoint mapM {A B} (f : A -> result B) (xs : list A) : result (list B) :=
  match xs with
  | [] => Ok []
  | x :: xs' =>
      let* y := f x in
      let* ys := mapM f xs' in
      Ok (y :: ys)
  end.

(** ** Objects *)

Section Objects.
Variable V : Type.

(** Own properties, oldest first. *)
Definition obj := list (string * V).

(** The own property [k] of [o], if any. *)
Fixpoint own (o : obj) (k : string) : option V :=
  match o with
  | [] => None
  | (k', v) :: o' => if String.eqb k' k then Some v else own o' k
  end.

(** [CreateDataProperty]: an existing own property keeps its place and
    takes the new value, a new one is added last.  This is what a computed
    key of an object literal does, also for the key ["__proto__"].  The
    literal [{ ...row, [k]: v }] is [define row k v]: the spread creates the
    properties of the copy in the order in which [row] enumerates them, so
    in the copy the array indices may have been created before names that
    are older in [row]; among the names that are not array indices the
    creation order is that of [row], and the array indices are enumerated in
    ascending order whenever they were created, hence the copy and the list
    [row] hold the same properties and enumerate them alike ([ownKeys]). *)
Fixpoint define (o : obj) (k : string) (v : V) : obj :=
  match o with
  | [] => [(k, v)]
  | (k', v') :: o' =>
      if String.eqb k' k then (k, v) :: o' else (k', v') :: define o' k v
  end.

(** The own properties after the assignment [o[k] = v] on an object that
    inherits from [Object.prototype].  An own property is overwritten.
    Otherwise the key ["__proto__"] reaches the accessor of
    [Object.prototype], which adds no own property: it ignores a string and
    makes an object, such as a header list, the prototype of [o].  Every
    other key is created on [o].  The prototype is not part of [obj]: what
    is stated of an object that was assigned to under ["__proto__"] is
    stated of its own properties. *)
Definition assign (o : obj) (k : string) (v : V) : obj :=
  match own o k with
  | Some _ => define o k v
  | None => if String.eqb k "__proto__" then o else define o k v
  end.

(** The names of the own properties, in creation order.  The order in
    which they are enumerated is [ownKeys] below. *)
Definition keys (o : obj) : list string := map fst o.
End Objects.

Arguments own {V} o k.
Arguments define {V} o k v.
Arguments assign {V} o k v.
Arguments keys {V} o.

(** ** The order of enumeration *)

Definition isDigit (c : ascii) : bool :=
  (48 <=? nat_of_ascii c) && (nat_of_ascii c <=? 57).

(** The number written by a string of decimal digits. *)
Fixpoint digitsValueFrom (acc : N) (s : string) : N :=
  match s with
  | EmptyString => acc
  | String c s' =>
      digitsValueFrom (acc * 10 + N.of_nat (nat_of_ascii c - 48))%N s'
  end.

Definition digitsValue (s : string) : N := digitsValueFrom 0%N s.

(** An array index is the canonical decimal form (digits only, no leading
    zero) of an integer from 0 to 2^32 - 2. *)
Definition isArrayIndex (s : string) : bool :=
  match s with
  | EmptyString => false
  | String c rest =>
      forallb isDigit (list_ascii_of_string s)
      && (negb (Ascii.eqb c "0") || String.eqb rest EmptyString)
      && (digitsValue s <=? 4294967294)%N
  end.

(** Array indices in ascending numeric order. *)
Fixpoint insertIndex (k : string) (ks : list string) : list string :=
  match ks with
  | [] => [k]
  | k' :: ks' =>
      if (digitsValue k <=? digitsValue k')%N then k :: ks
      else k' :: insertIndex k ks'
  end.

Fixpoint sortIndices (ks : list string) : list string :=
  match ks with
  | [] => []
  | k :: ks' => insertIndex k (sortIndices ks')
  end.

(** [OrdinaryOwnPropertyKeys] on names given in creation order: the array
    indices in ascending order, then the other names in creation order.
    [Object.keys], [for ... in], the spread and [JSON.stringify] visit the
    own properties in this order. *)
Definition enumerate (ks : list string) : list string :=
  sortIndices (List.filter isArrayIndex ks)
  ++ List.filter (fun k => negb (isArrayIndex k)) ks.

Definition ownKeys {V} (o : obj V) : list string := enumerate (keys o).

(** ** Values read from a record *)

(** What [row[key]] can evaluate to on a record whose own properties hold
    strings: the string, [undefined], or the member of [Object.prototype]
    of that name. *)
Inductive value : Type :=
| VUndefined
| VString (s : string)
| VInherited (k : string).

(** The property names of [Object.prototype]. *)
Definition objectPrototypeKeys : list string :=
  [ "constructor"; "__defineGetter__"; "__defineSetter__"; "hasOwnProperty";
    "__lookupGetter__"; "__lookupSetter__"; "isPrototypeOf";
    "propertyIsEnumerable"; "toString"; "valueOf"; "__proto__";
    "toLocaleString" ].

Definition inherited (k : string) : bool :=
  existsb (String.eqb k) objectPrototypeKeys.

(** A Record: own properties are strings. *)
Definition record := obj string.

(** [row[key]] *)
Definition get (row : record) (key : string) : value :=
  match own row key with
  | Some s => VString s
  | None => if inherited key then VInherited key else VUndefined
  end.

(** [a === b]: strings compare by content, [undefined] equals itself, two
    members of [Object.prototype] are the same object iff they have the same
    name. *)
Definition strict_eq (a b : value) : bool :=
  match a, b with
  | VUndefined, VUndefined => true
  | VString s, VString t => String.eqb s t
  | VInherited j, VInherited k => String.eqb j k
  | _, _ => false
  end.

(** ** Query filter (main.js, lines 73-75) *)

Definition filterPair := (string * value)%type.
Definition filterSet := list filterPair.

Definition createQueryFilter (filterSets : list filterSet) : record -> bool :=
  fun row =>
    existsb
      (fun fs : filterSet =>
         forallb (fun kv : filterPair => strict_eq (get row (fst kv)) (snd kv)) fs)
      filterSets.

(** [createSimpleFilterSets] (lines 124-126) *)
Definition createSimpleFilterSets (key val : string) : list filterSet :=
  [[(key, VString val)]].

(** ** Join key mapper (lines 57-59) *)

(** [joins] is [None] when the step carries no [joins] property: the
    closure is built all the same and [joins.map] throws when it is
    called. *)
Definition createJoinMapper (joins : option (list string))
  : record -> result filterSet :=
  fun row =>
    match joins with
    | None => Throw
    | Some js => Ok (map (fun join => (join, get row join)) js)
    end.

(** ** Table parser (lines 18-48) *)

(** [String.prototype.trim] removes white space and line terminators from
    both ends; among the code units below 256 these are 9..13, 32 and 160. *)
Definition isWhiteSpace (c : ascii) : bool :=
  let n := nat_of_ascii c in
  ((9 <=? n) && (n <=? 13)) || (n =? 32) || (n =? 160).

Fixpoint trimStart (s : string) : string :=
  match s with
  | EmptyString => EmptyString
  | String c s' => if isWhiteSpace c then trimStart s' else s
  end.

Fixpoint trimEnd (s : string) : string :=
  match s with
  | EmptyString => EmptyString
  | String c s' =>
      match trimEnd s' with
      | EmptyString => if isWhiteSpace c then EmptyString else String c EmptyString
      | t => String c t
      end
  end.

Definition trim (s : string) : string := trimEnd (trimStart s).

(** [s.split(',')]: the fields between commas; the empty string has the one
    field [""]. *)
Fixpoint split (s : string) : list string :=
  match s with
  | EmptyString => [EmptyString]
  | String c s' =>
      if Ascii.eqb c "," then EmptyString :: split s'
      else match split s' with
           | f :: fs => String c f :: fs
           | [] => [String c EmptyString]
           end
  end.

Record sheetT : Type := mkSheet {
  headers : list string;
  rows : list record
}.

(** [headers[i]] used as a property key: out of range it is [undefined],
    whose property key is the string ["undefined"]. *)
Definition headerKey (hs : list string) (i : nat) : string :=
  match nth_error hs i with
  | Some h => h
  | None => "undefined"
  end.

(** The [reduce] of line 43 from index [i] on, with accumulator [acc]. *)
Fixpoint convertFrom (hs : list string) (i : nat) (row : list string)
                     (acc : record) : record :=
  match row with
  | [] => acc
  | val :: row' => convertFrom hs (S i) row' (assign acc (headerKey hs i) val)
  end.

Definition convertRowToObj (hs : list string) (row : list string) : record :=
  convertFrom hs 0 row [].

(** [undefined] is [None]. *)
Definition filterRowObj (filter : record -> bool) (row : record) : option record :=
  if filter row then Some row else None.

Definition trueFn : record -> bool := fun _ => true.

(** [pipe(f, g)(x, y)] is [g(f(x, y))]. *)
Definition pipe {A B C D} (f : A -> B -> C) (g : C -> D) : A -> B -> D :=
  fun x y => g (f x y).

(** The ['line'] handler (lines 26-37). *)
Definition onLine (filter : record -> bool) (sheet : sheetT) (line : string) : sheetT :=
  let trimmed := trim line in
  let row := split trimmed in
  if negb (length (headers sheet) =? 0) then
    match pipe convertRowToObj (filterRowObj filter) (headers sheet) row with
    | Some rowObj => mkSheet (headers sheet) (rows sheet ++ [rowObj])
    | None => sheet
    end
  else mkSheet row (rows sheet).

(** [parseCSV]: [lines] are the lines the reader emits for the file, in
    order; [filterSets] is [None] when the argument is absent.  An array,
    even an empty one, is truthy. *)
Definition parseCSV (lines : list string) (filterSets : option (list filterSet)) : sheetT :=
  let filter :=
    match filterSets with
    | Some fs => createQueryFilter fs
    | None => trueFn
    end in
  fold_left (onLine filter) lines (mkSheet [] []).

(** ** Sheet merger (lines 82-118) *)

(** [row[name]] of a merged row is a single Record (first step) or an array
    of Records (later steps); [Array.isArray] tells them apart. *)
Inductive cell : Type :=
| One (r : record)
| Many (rs : list record).

Definition mergedRow := obj cell.

Record sheetQuery : Type := mkQuery {
  sheet : sheetT;
  joins : option (list string);
  name : string
}.

Record mergedSheet : Type := mkMerged {
  mergedHeaders : obj (list string);
  mergedRows : list mergedRow
}.

(** Lines 98-107: the filter for one accumulated row.  The last case, a
    row that does not own [prevName], does not arise in [mergeSheets]: every
    accumulated row owns the name of the previous step (lemma [state_last]
    below).  It is written for a name that [Object.prototype] does not have
    either: [row[prevName]] is then [undefined], the mapper is called on it,
    and its callback throws as soon as there is a join column. *)
Definition rowFilter (joins : option (list string)) (prevName : string)
                     (row : mergedRow) : result (record -> bool) :=
  let joinMapper := createJoinMapper joins in
  match own row prevName with
  | Some (Many rs) =>
      let* sets := mapM joinMapper rs in
      Ok (createQueryFilter sets)
  | Some (One r) =>
      let* set := joinMapper r in
      Ok (createQueryFilter [set])
  | None =>
      match joins with
      | Some [] => Ok (createQueryFilter [[]])
      | _ => Throw
      end
  end.

(** Lines 97-111: the callback of [acc.rows.map]. *)
Definition mergeRow (prevSheet : sheetQuery) (sheetQ : sheetQuery)
                    (row : mergedRow) : result mergedRow :=
  let* filter := rowFilter (joins prevSheet) (name prevSheet) row in
  Ok (define row (name sheetQ) (Many (List.filter filter (rows (sheet sheetQ))))).

(** The state of the [reduce]: the accumulator and the variable
    [prevSheet] ([None] while it is [undefined]). *)
Definition mergeState := (mergedSheet * option sheetQuery)%type.

(** The callback of [sheetQueries.reduce] (lines 84-117).  The headers of
    the accumulator are the own properties of [acc.headers]: a step named
    ["__proto__"] adds none (line 88 then makes its header list the
    prototype of [acc.headers]). *)
Definition mergeStep (st : mergeState) (sheetQ : sheetQuery) : result mergeState :=
  let (acc, prevSheet) := st in
  let hs := assign (mergedHeaders acc) (name sheetQ) (headers (sheet sheetQ)) in
  let* rs :=
    match prevSheet with
    | None => Ok (map (fun r => define [] (name sheetQ) (One r)) (rows (sheet sheetQ)))
    | Some prev => mapM (mergeRow prev sheetQ) (mergedRows acc)
    end in
  Ok (mkMerged hs rs, Some sheetQ).

(** [xs.reduce(step, st)] for a callback that may throw. *)
Fixpoint reduceM {A S} (step : S -> A -> result S) (st : S) (xs : list A) : result S :=
  match xs with
  | [] => Ok st
  | x :: xs' =>
      let* st' := step st x in
      reduceM step st' xs'
  end.

Definition mergeInit : mergeState := (mkMerged [] [], None).

Definition mergeSheets (sheetQueries : list sheetQuery) : result mergedSheet :=
  let* st := reduceM mergeStep mergeInit sheetQueries in
  Ok (fst st).

(** ** Vocabulary of the statements about the parser *)

Definition startsWhite (s : string) : bool :=
  match s with
  | EmptyString => false
  | String c _ => isWhiteSpace c
  end.

Fixpoint endsWhite (s : string) : bool :=
  match s with
  | EmptyString => false
  | String c EmptyString => isWhiteSpace c
  | String _ s' => endsWhite s'
  end.

Definition allWhite (s : string) : bool :=
  forallb isWhiteSpace (list_ascii_of_string s).

Definition hasComma (s : string) : bool :=
  existsb (Ascii.eqb ",") (list_ascii_of_string s).

(** The record a data line stands for under the headers [hs]. *)
Definition lineRecord (hs : list string) (line : string) : record :=
  convertRowToObj hs (split (trim line)).

(** ** Vocabulary of the statements about the merger *)

(** The join keys of one record: what the mapper returns for [joins = js]. *)
Definition joinKeys (js : list string) (r : record) : filterSet :=
  map (fun join => (join, get r join)) js.

(** The records a cell holds. *)
Definition cellRecords (c : cell) : list record :=
  match c with
  | One r => [r]
  | Many rs => rs
  end.

(** Every step but the last carries [joins], as the Join Step of the data
    model requires. *)
Definition hasJoins (q : sheetQuery) : bool :=
  match joins q with
  | Some _ => true
  | None => false
  end.

Definition wellFormed (steps : list sheetQuery) : bool :=
  forallb hasJoins (removelast steps).

(** The state of the [reduce] after the steps [0..k]. *)
Definition stateAfter (steps : list sheetQuery) (k : nat) : result mergeState :=
  reduceM mergeStep mergeInit (firstn (S k) steps).

(** The records of table [t] that pass the filter built from the join keys
    of the records in cell [c]. *)
Definition matches (js : list string) (c : cell) (t : sheetT) : list record :=
  List.filter (createQueryFilter (map (joinKeys js) (cellRecords c))) (rows t).

(** [row'] is [row] joined with the table of step [q]: the same cells, and
    under the name of [q] the matches for the cell [row] holds under
    [prevName]. *)
Definition joined (js : list string) (prevName : string) (q : sheetQuery)
                  (row row' : mergedRow) : Prop :=
  exists c, own row prevName = Some c
            /\ row' = define row (name q) (Many (matches js c (sheet q))).

(** ** A three-step chain with fan-out, used to exercise the statements

    Two seed rows.  Two rows of the second table match the first seed row
    and the only row of the third table matches the second of these two,
    not the first.  Nothing matches the second seed row. *)
Module Chain.
Definition seed : record := [("k", "1")].
Definition lone : record := [("k", "7")].
Definition zipA : record := [("k", "1"); ("s", "A")].
Definition zipB : record := [("k", "1"); ("s", "B")].
Definition zipC : record := [("k", "2"); ("s", "C")].
Definition planB : record := [("s", "B"); ("v", "9")].

Definition q0 : sheetQuery := mkQuery (mkSheet ["k"] [seed; lone]) (Some ["k"]) "x".
Definition q1 : sheetQuery :=
  mkQuery (mkSheet ["k"; "s"] [zipA; zipB; zipC]) (Some ["s"]) "y".
Definition q2 : sheetQuery := mkQuery (mkSheet ["s"; "v"] [planB]) None "z".

Definition row1 : mergedRow := [("x", One seed); ("y", Many [zipA; zipB])].
Definition row2 : mergedRow := [("x", One lone); ("y", Many [])].
Definition acc1 : mergedSheet :=
  mkMerged [("x", ["k"]); ("y", ["k"; "s"])] [row1; row2].
End Chain.

(** ** Vocabulary of the statement about rows of the wrong length *)

(** The positional zip in the words of the specification: header [i] with
    field [i]; the fields beyond the headers are dropped, the headers beyond
    the fields get nothing. *)
Definition positionalZip (hs : list string) (row : list string) : record :=
  combine hs row.

(** ** A join on a column that the seed record lacks *)
Module Absent.
Definition left : record := [("a", "1")].
Definition right : record := [("b", "2")].
Definition q0 : sheetQuery := mkQuery (mkSheet ["a"] [left]) (Some ["k"]) "x".
Definition q1 : sheetQuery := mkQuery (mkSheet ["b"] [right]) None "y".
End Absent.

(** * The merger on a heap

    [mergeSheets] once more, this time with the objects it works on placed
    in a store, so that sharing and mutation can be stated: Tables, Records
    and arrays are referred to by location; the merger reads them, allocates
    the accumulator, the merged rows and the match lists, and assigns to the
    accumulator and to its [headers] object only. *)

Definition loc := nat.

(** The objects of the store: a Record, an array of strings (a header
    list), an array of references, a plain object whose properties are
    references (a Table, a merged row, the accumulator and its [headers]). *)
Inductive hobj : Type :=
| HRecord (fields : record)
| HStrings (elems : list string)
| HArray (elems : list loc)
| HObject (props : obj loc).

Definition heap := list hobj.

(** A run ends normally, throws, or meets a store that is not shaped as the
    data model says ([Untyped]), which is outside of the model. *)
Inductive outcome (A : Type) : Type :=
| Done (a : A) (h : heap)
| Raise (h : heap)
| Untyped.
Arguments Done {A} a h.
Arguments Raise {A} h.
Arguments Untyped {A}.

Definition M (A : Type) : Type := heap -> outcome A.

Definition ret {A} (a : A) : M A := fun h => Done a h.

Definition bindM {A B} (m : M A) (k : A -> M B) : M B :=
  fun h =>
    match m h with
    | Done a h' => k a h'
    | Raise h' => Raise h'
    | Untyped => Untyped
    end.

Notation "x <- m ;; k" := (bindM m (fun x => k))
  (at level 61, m at next level, right associativity).

Definition raise {A} : M A := fun h => Raise h.
Definition untyped {A} : M A := fun _ => Untyped.

(** A new object gets the next free location. *)
Definition alloc (o : hobj) : M loc := fun h => Done (length h) (h ++ [o]).

Definition load (l : loc) : M hobj :=
  fun h =>
    match nth_error h l with
    | Some o => Done o h
    | None => Untyped
    end.

Fixpoint upd (l : loc) (o : hobj) (h : heap) : heap :=
  match h, l with
  | [], _ => []
  | _ :: t, 0 => o :: t
  | x :: t, S l' => x :: upd l' o t
  end.

(** Mutation in place. *)
Definition store (l : loc) (o : hobj) : M unit :=
  fun h =>
    match nth_error h l with
    | Some _ => Done tt (upd l o h)
    | None => Untyped
    end.

Definition loadRecord (l : loc) : M record :=
  o <- load l ;;
  match o with
  | HRecord r => ret r
  | _ => untyped
  end.

Definition loadArray (l : loc) : M (list loc) :=
  o <- load l ;;
  match o with
  | HArray ls => ret ls
  | _ => untyped
  end.

Definition loadObject (l : loc) : M (obj loc) :=
  o <- load l ;;
  match o with
  | HObject ps => ret ps
  | _ => untyped
  end.

(** [o.k] for a property the data model promises. *)
Definition field (o : obj loc) (k : string) : M loc :=
  match own o k with
  | Some l => ret l
  | None => untyped
  end.

Definition liftResult {A} (r : result A) : M A :=
  match r with
  | Ok a => ret a
  | Throw => raise
  end.

(** [xs.map(f)] *)
Fixpoint forM {A B} (f : A -> M B) (xs : list A) : M (list B) :=
  match xs with
  | [] => ret []
  | x :: xs' =>
      y <- f x ;;
      ys <- forM f xs' ;;
      ret (y :: ys)
  end.

(** [ls.filter(f)] on an array of Records: the references that pass. *)
Fixpoint keepM (f : record -> bool) (ls : list loc) : M (list loc) :=
  match ls with
  | [] => ret []
  | l :: ls' =>
      r <- loadRecord l ;;
      rest <- keepM f ls' ;;
      ret (if f r then l :: rest else rest)
  end.

(** A join step whose Table lives in the store. *)
Record sheetQueryH : Type := mkQueryH {
  sheetH : loc;
  joinsH : option (list string);
  nameH : string
}.

(** Lines 98-107 *)
Definition rowFilterH (joins : option (list string)) (prevName : string)
                      (cells : obj loc) : M (record -> bool) :=
  let joinMapper := createJoinMapper joins in
  match own cells prevName with
  | Some l =>
      o <- load l ;;
      match o with
      | HArray ls =>
          rs <- forM loadRecord ls ;;
          liftResult (let* sets := mapM joinMapper rs in
                      Ok (createQueryFilter sets))
      | HRecord r =>
          liftResult (let* set := joinMapper r in
                      Ok (createQueryFilter [set]))
      | _ => untyped
      end
  | None =>
      match joins with
      | Some [] => ret (createQueryFilter [[]])
      | _ => raise
      end
  end.

(** Lines 97-111: the callback of [acc.rows.map].  The match list and the
    new row are new objects; the new row has the cells of the old one, by
    reference, and the new key. *)
Definition mergeRowH (prev q : sheetQueryH) (rowLoc : loc) : M loc :=
  cells <- loadObject rowLoc ;;
  filter <- rowFilterH (joinsH prev) (nameH prev) cells ;;
  sheetO <- loadObject (sheetH q) ;;
  sheetRows <- field sheetO "rows" ;;
  candidates <- loadArray sheetRows ;;
  kept <- keepM filter candidates ;;
  matched <- alloc (HArray kept) ;;
  alloc (HObject (define cells (nameH q) matched)).

(** Lines 89-112: the array that is assigned to [acc.rows]. *)
Definition stepRowsH (accLoc : loc) (prevSheet : option sheetQueryH)
                     (q : sheetQueryH) : M loc :=
  match prevSheet with
  | None =>
      sheetO <- loadObject (sheetH q) ;;
      sheetRows <- field sheetO "rows" ;;
      records <- loadArray sheetRows ;;
      newRows <- forM (fun r => alloc (HObject (define [] (nameH q) r))) records ;;
      alloc (HArray newRows)
  | Some prev =>
      acc <- loadObject accLoc ;;
      accRows <- field acc "rows" ;;
      rowLocs <- loadArray accRows ;;
      newRows <- forM (mergeRowH prev q) rowLocs ;;
      alloc (HArray newRows)
  end.

(** The callback of [sheetQueries.reduce] (lines 84-117); [accLoc] is
    [acc]. *)
Definition mergeStepH (accLoc : loc) (prevSheet : option sheetQueryH)
                      (q : sheetQueryH) : M unit :=
  acc <- loadObject accLoc ;;
  accHeaders <- field acc "headers" ;;
  sheetO <- loadObject (sheetH q) ;;
  sheetHeaders <- field sheetO "headers" ;;
  hprops <- loadObject accHeaders ;;
  _ <- store accHeaders (HObject (assign hprops (nameH q) sheetHeaders)) ;;
  rowsLoc <- stepRowsH accLoc prevSheet q ;;
  acc' <- loadObject accLoc ;;
  store accLoc (HObject (assign acc' "rows" rowsLoc)).

Fixpoint reduceH (accLoc : loc) (prevSheet : option sheetQueryH)
                 (qs : list sheetQueryH) : M unit :=
  match qs with
  | [] => ret tt
  | q :: qs' =>
      _ <- mergeStepH accLoc prevSheet q ;;
      reduceH accLoc (Some q) qs'
  end.

(** [mergeSheets]: the initial accumulator [{ headers: {}, rows: [] }] is
    allocated, the steps are folded over it, and it is returned. *)
Definition mergeSheetsH (sheetQueries : list sheetQueryH) : M loc :=
  accHeaders <- alloc (HObject []) ;;
  accRows <- alloc (HArray []) ;;
  accLoc <- alloc (HObject [("headers", accHeaders); ("rows", accRows)]) ;;
  _ <- reduceH accLoc None sheetQueries ;;
  ret accLoc.

(** ** Reading values back from the store *)

Fixpoint traverse {A B} (f : A -> option B) (xs : list A) : option (list B) :=
  match xs with
  | [] => Some []
  | x :: xs' =>
      match f x, traverse f xs' with
      | Some y, Some ys => Some (y :: ys)
      | _, _ => None
      end
  end.

Definition traverseObj {A B} (f : A -> option B) (o : obj A) : option (obj B) :=
  traverse (fun kv => option_map (pair (fst kv)) (f (snd kv))) o.

Definition readRecord (h : heap) (l : loc) : option record :=
  match nth_error h l with
  | Some (HRecord r) => Some r
  | _ => None
  end.

Definition readStrings (h : heap) (l : loc) : option (list string) :=
  match nth_error h l with
  | Some (HStrings ss) => Some ss
  | _ => None
  end.

Definition readRecords (h : heap) (l : loc) : option (list record) :=
  match nth_error h l with
  | Some (HArray ls) => traverse (readRecord h) ls
  | _ => None
  end.

Definition readTable (h : heap) (l : loc) : option sheetT :=
  match nth_error h l with
  | Some (HObject ps) =>
      match own ps "headers", own ps "rows" with
      | Some lh, Some lr =>
          match readStrings h lh, readRecords h lr with
          | Some hs, Some rs => Some (mkSheet hs rs)
          | _, _ => None
          end
      | _, _ => None
      end
  | _ => None
  end.

Definition readQuery (h : heap) (q : sheetQueryH) : option sheetQuery :=
  option_map (fun t => mkQuery t (joinsH q) (nameH q)) (readTable h (sheetH q)).

Definition readCell (h : heap) (l : loc) : option cell :=
  match nth_error h l with
  | Some (HRecord r) => Some (One r)
  | Some (HArray ls) => option_map Many (traverse (readRecord h) ls)
  | _ => None
  end.

Definition readRow (h : heap) (l : loc) : option mergedRow :=
  match nth_error h l with
  | Some (HObject cells) => traverseObj (readCell h) cells
  | _ => None
  end.

Definition readMerged (h : heap) (l : loc) : option mergedSheet :=
  match nth_error h l with
  | Some (HObject ps) =>
      match own ps "headers", own ps "rows" with
      | Some lh, Some lr =>
          match nth_error h lh, nth_error h lr with
          | Some (HObject hp), Some (HArray rl) =>
              match traverseObj (readStrings h) hp, traverse (readRow h) rl with
              | Some hs, Some rs => Some (mkMerged hs rs)
              | _, _ => None
              end
          | _, _ => None
          end
      | _, _ => None
      end
  | _ => None
  end.

(** [h'] keeps every object of [h] in place and unchanged, those at the
    locations [except] apart. *)
Definition keeps (except : list loc) (h h' : heap) : Prop :=
  forall l o, nth_error h l = Some o -> ~ In l except -> nth_error h' l = Some o.

(** The chain of [Chain], in a store: locations 0..4 hold the Records,
    5..7 the header lists, 8..10 the row arrays, 11..13 the Tables. *)
Module ChainH.
Definition h0 : heap :=
  [ HRecord Chain.seed; HRecord Chain.lone; HRecord Chain.zipA;
    HRecord Chain.zipB; HRecord Chain.zipC;
    HStrings ["k"]; HStrings ["k"; "s"]; HStrings ["s"; "v"];
    HArray [0; 1]; HArray [2; 3; 4]; HArray [14];
    HObject [("headers", 5); ("rows", 8)];
    HObject [("headers", 6); ("rows", 9)];
    HObject [("headers", 7); ("rows", 10)];
    HRecord Chain.planB ].
Definition qs : list sheetQueryH :=
  [ mkQueryH 11 (Some ["k"]) "x"; mkQueryH 12 (Some ["s"]) "y";
    mkQueryH 13 None "z" ].
End ChainH.

(** The locations [except] hold plain objects. *)
Definition objectsAt (except : list loc) (h : heap) : Prop :=
  forall x, In x except -> exists ps, nth_error h x = Some (HObject ps).

(** A run of [m] from [h] that ends, normally or by a throw, leaves every
    object of [h] in place and unchanged, those at [except] apart. *)
Definition framesAt (except : list loc) {A} (m : M A) (h : heap) : Prop :=
  match m h with
  | Done _ h' => keeps except h h'
  | Raise h' => keeps except h h'
  | Untyped => True
  end.

Definition frames (except : list loc) {A} (m : M A) : Prop :=
  forall h, framesAt except m h.

(** The accumulator at [la], with its [headers] object at [lh], holds the
    merged sheet [acc]. *)
Definition accAt (la lh : loc) (h : heap) (acc : mergedSheet) : Prop :=
  exists lr hp rl,
    nth_error h la = Some (HObject [("headers", lh); ("rows", lr)])
    /\ nth_error h lh = Some (HObject hp)
    /\ nth_error h lr = Some (HArray rl)
    /\ traverseObj (readStrings h) hp = Some (mergedHeaders acc)
    /\ traverse (readRow h) rl = Some (mergedRows acc)
    /\ la <> lh /\ ~ In la rl /\ ~ In lh rl.

(** A step in the store and a step of the value-level merger carry the same
    join columns and the same name. *)
Definition sameStep (qH : sheetQueryH) (q : sheetQuery) : Prop :=
  joinsH qH = joins q /\ nameH qH = name q.

Definition samePrev (prevH : option sheetQueryH) (prev : option sheetQuery) : Prop :=
  match prevH, prev with
  | None, None => True
  | Some pH, Some p => sameStep pH p
  | _, _ => False
  end.

(** A run of [m] that ends normally leaves the store as it was. *)
Definition readonly {A} (m : M A) : Prop :=
  forall h a h', m h = Done a h' -> h' = h.

(** ** Further vocabulary: lines and fields *)

(** The number of commas of a line. *)
Fixpoint countCommas (s : string) : nat :=
  match s with
  | EmptyString => 0
  | String c s' => if Ascii.eqb c "," then S (countCommas s') else countCommas s'
  end.

(** * The second lowest rate ([run], lines 146-163)

    The part of [run] that works on a merged row: the plans are reduced to
    one per rate, sorted by rate, the rate areas of the zips are compared,
    and the rate is chosen.  Sorting compares the floating point numbers
    [parseFloat] reads, and the rate is printed by [toFixed]: both are
    parameters here. *)

(** [plan.rate] *)
Definition rateOf (plan : record) : value := get plan "rate".

(** [xs.filter((x, i) => keep x i)], from index [i] on. *)
Fixpoint filterFrom {A} (keep : A -> nat -> bool) (i : nat) (xs : list A) : list A :=
  match xs with
  | [] => []
  | x :: xs' =>
      if keep x i then x :: filterFrom keep (S i) xs' else filterFrom keep (S i) xs'
  end.

(** Line 148: a plan is kept when no plan after it has the same rate. *)
Definition dedupePlans (plans : list record) : list record :=
  filterFrom
    (fun plan i =>
       negb (existsb (fun p => strict_eq (rateOf p) (rateOf plan)) (skipn (S i) plans)))
    0 plans.

(** The same, read from the front of the list. *)
Fixpoint keepLastOfEachRate (plans : list record) : list record :=
  match plans with
  | [] => []
  | plan :: rest =>
      if existsb (fun p => strict_eq (rateOf p) (rateOf plan)) rest
      then keepLastOfEachRate rest
      else plan :: keepLastOfEachRate rest
  end.

(** Lines 152-157: [row.zips.every(...)] with the array [rateAreas] its
    callback fills; [every] stops at the first [false].  [includes] compares
    as [===] does on the values a record can hold. *)
Fixpoint everyRateArea (rateAreas : list value) (zips : list record) : bool :=
  match zips with
  | [] => true
  | z :: zs =>
      let rate_area := get z "rate_area" in
      let rateAreas' :=
        if existsb (fun a => strict_eq a rate_area) rateAreas
        then rateAreas
        else rateAreas ++ [rate_area] in
      if length rateAreas' =? 1 then everyRateArea rateAreas' zs else false
  end.

Definition isSingleRateArea (zips : list record) : bool := everyRateArea [] zips.

Section SecondLowest.
(** [plans.sort((a, b) => parseFloat(a.rate) - parseFloat(b.rate))] *)
Variable sortByRate : list record -> list record.
(** [Number.parseFloat(rate).toFixed(2)] *)
Variable toFixed2 : value -> string.

(** Line 160: the plan whose rate is printed, [None] when the rate is set
    to the empty string. *)
Definition slcspPlan (zips plans : list record) : option record :=
  let plans' := sortByRate (dedupePlans plans) in
  if isSingleRateArea zips then nth_error plans' 1 else None.

Definition slcspRate (zips plans : list record) : string :=
  match slcspPlan zips plans with
  | Some plan => toFixed2 (rateOf plan)
  | None => ""
  end.
End SecondLowest.

(** * The pipeline of [run] (lines 132-143) *)

(** The three parses of lines 132-136, from the lines of the three files:
    only the plans are filtered, to the metal level [Silver]. *)
Definition runTables (slcspLines planLines zipLines : list string)
  : sheetT * sheetT * sheetT :=
  (parseCSV slcspLines None,
   parseCSV planLines (Some (createSimpleFilterSets "metal_level" "Silver")),
   parseCSV zipLines None).

(** The merge of lines 139-143. *)
Definition runMerge (slcsps plans zips : sheetT) : result mergedSheet :=
  mergeSheets
    [ mkQuery slcsps (Some ["zipcode"]) "slcsp";
      mkQuery zips (Some ["state"; "rate_area"]) "zips";
      mkQuery plans None "plans" ].

(** [zip.zipcode === slcsp.zipcode] *)
Definition sameZipcode (slcsp zip : record) : bool :=
  strict_eq (get zip "zipcode") (get slcsp "zipcode").

(** [plan.state === zip.state && plan.rate_area === zip.rate_area] *)
Definition sameRateArea (zip plan : record) : bool :=
  strict_eq (get plan "state") (get zip "state")
  && strict_eq (get plan "rate_area") (get zip "rate_area").

(** The zips of a zipcode and the plans of these zips, in table order. *)
Definition zipsOf (zips : sheetT) (slcsp : record) : list record :=
  List.filter (sameZipcode slcsp) (rows zips).

Definition plansOf (plans : sheetT) (zs : list record) : list record :=
  List.filter (fun plan => existsb (fun zip => sameRateArea zip plan) zs) (rows plans).

(** * Properties *)

(** ** The order of enumeration *)

Lemma In_insertIndex (k x : string) (ks : list string) :
  In x (insertIndex k ks) <-> x = k \/ In x ks.
Proof.
  induction ks as [|k' ks IH]; cbn [insertIndex].
  - simpl. intuition.
  - destruct (digitsValue k <=? digitsValue k')%N; simpl.
    + intuition.
    + rewrite IH. simpl. intuition.
Qed.

Lemma In_sortIndices (x : string) (ks : list string) :
  In x (sortIndices ks) <-> In x ks.
Proof.
  induction ks as [|k ks IH]; cbn [sortIndices]; [reflexivity|].
  rewrite In_insertIndex, IH. simpl. intuition.
Qed.

(** Enumeration visits every name, and nothing else. *)
Lemma In_enumerate (x : string) (ks : list string) :
  In x (enumerate ks) <-> In x ks.
Proof.
  unfold enumerate. rewrite in_app_iff, In_sortIndices, !filter_In.
  destruct (isArrayIndex x); simpl; intuition discriminate.
Qed.

(** Without array indices, enumeration order is creation order. *)
Lemma enumerate_no_index (ks : list string) :
  Forall (fun k => isArrayIndex k = false) ks -> enumerate ks = ks.
Proof.
  intros H. unfold enumerate.
  assert (Hi : List.filter isArrayIndex ks = []).
  { induction H as [|k ks Hk _ IH]; [reflexivity|].
    cbn [List.filter]. now rewrite Hk. }
  assert (Hn : List.filter (fun k => negb (isArrayIndex k)) ks = ks).
  { induction H as [|k ks Hk _ IH]; [reflexivity|].
    cbn [List.filter]. rewrite Hk. cbn [negb]. f_equal. apply IH.
    cbn [List.filter] in Hi. now rewrite Hk in Hi. }
  now rewrite Hi, Hn.
Qed.

(** What counts as an array index, and the order indices are visited in. *)
Example isArrayIndex_examples :
  isArrayIndex "0" = true /\ isArrayIndex "2019" = true
  /\ isArrayIndex "4294967294" = true /\ isArrayIndex "4294967295" = false
  /\ isArrayIndex "01" = false /\ isArrayIndex "1.5" = false
  /\ isArrayIndex "-1" = false /\ isArrayIndex "" = false
  /\ isArrayIndex "zipcode" = false.
Proof. repeat split; vm_compute; reflexivity. Qed.

Example enumerate_indices_first :
  enumerate ["2020"; "2019"; "name"] = ["2019"; "2020"; "name"]
  /\ enumerate ["b"; "2"; "1"] = ["1"; "2"; "b"]
  /\ enumerate ["b"; "10"; "a"; "9"] = ["9"; "10"; "b"; "a"].
Proof. repeat split; vm_compute; reflexivity. Qed.

(** ** Basic facts about outcomes, objects and values *)

Lemma strict_eq_true_iff (a b : value) : strict_eq a b = true <-> a = b.
Proof.
  destruct a, b; simpl; split; intros H; try discriminate; try reflexivity;
    try (apply String.eqb_eq in H; now subst);
    try (inversion H; subst; apply String.eqb_refl).
Qed.

Lemma strict_eq_refl (a : value) : strict_eq a a = true.
Proof. now apply strict_eq_true_iff. Qed.

Lemma createQueryFilter_true_iff (filterSets : list filterSet) (r : record) :
  createQueryFilter filterSets r = true <->
  exists g, In g filterSets /\
            forall column val, In (column, val) g -> get r column = val.
Proof.
  unfold createQueryFilter. rewrite existsb_exists. split.
  - intros (g & Hin & Hall). exists g. split; [exact Hin|].
    intros column val Hp. rewrite forallb_forall in Hall.
    specialize (Hall _ Hp). simpl in Hall. now apply strict_eq_true_iff.
  - intros (g & Hin & Hall). exists g. split; [exact Hin|].
    apply forallb_forall. intros [column val] Hp. simpl.
    apply strict_eq_true_iff. now apply Hall.
Qed.

(** C1. For every record and every list of conjunction groups (non-empty or
    not), the predicate built by [createQueryFilter] answers [true] exactly
    when some group of the list has all of its (column, value) pairs equal
    to what the record holds under the column; the comparison is [===], that
    is equality of the strings as they are, with no case folding and no
    trimming. *)
Theorem createQueryFilter_some_group_every_pair :
  forall (filterSets : list filterSet) (r : record),
    (createQueryFilter filterSets r = true <->
     exists g, In g filterSets /\
               forall column val, In (column, val) g -> get r column = val)
    /\ (forall s t, strict_eq (VString s) (VString t) = true <-> s = t)
    /\ createQueryFilter [[("a", VString "1")]; [("a", VString "2")]]
         [("a", "2"); ("b", "x")] = true
    /\ createQueryFilter [[("a", VString "1")]; [("a", VString "2")]]
         [("a", "3")] = false
    /\ createQueryFilter [[("a", VString "x")]] [("a", "X")] = false
    /\ createQueryFilter [[("a", VString "x")]] [("a", " x")] = false.
Proof.
  intros filterSets r. split; [apply createQueryFilter_true_iff|].
  split.
  - intros s t. rewrite strict_eq_true_iff. split; intros H.
    + now inversion H.
    + now subst.
  - repeat split; reflexivity.
Qed.

(** ** The parser *)

Lemma split_nonempty (s : string) : split s <> [].
Proof.
  destruct s as [|c s]; simpl; [discriminate|].
  destruct (Ascii.eqb c ","); [discriminate|].
  destruct (split s); discriminate.
Qed.

Lemma split_concat (s : string) : String.concat "," (split s) = s.
Proof.
  induction s as [|c s IH]; simpl; [reflexivity|].
  destruct (Ascii.eqb_spec c ",") as [->|Hc].
  - pose proof (split_nonempty s) as Hne.
    destruct (split s) as [|f fs]; [contradiction|].
    change (String.concat "," ("" :: f :: fs))
      with ("" ++ "," ++ String.concat "," (f :: fs))%string.
    rewrite IH. reflexivity.
  - pose proof (split_nonempty s) as Hne.
    destruct (split s) as [|f fs]; [contradiction|].
    destruct fs as [|g gs]; simpl in *; now rewrite IH.
Qed.

Lemma hasComma_String (c : ascii) (f : string) :
  hasComma (String c f) = (Ascii.eqb "," c || hasComma f)%bool.
Proof. reflexivity. Qed.

Lemma split_no_comma (s : string) : Forall (fun f => hasComma f = false) (split s).
Proof.
  induction s as [|c s IH]; simpl.
  - constructor; [reflexivity|constructor].
  - destruct (Ascii.eqb_spec c ",") as [->|Hc].
    + constructor; [reflexivity|exact IH].
    + assert (Hc' : Ascii.eqb "," c = false) by (apply Ascii.eqb_neq; congruence).
      destruct (split s) as [|f fs].
      * constructor; [|constructor]. rewrite hasComma_String, Hc'. reflexivity.
      * inversion IH as [|? ? Hf Hfs]; subst. constructor; [|exact Hfs].
        rewrite hasComma_String, Hc'. exact Hf.
Qed.

Lemma trimStart_spec (s : string) :
  exists pre, s = (pre ++ trimStart s)%string /\ allWhite pre = true
              /\ startsWhite (trimStart s) = false.
Proof.
  induction s as [|c s (pre & Heq & Hpre & Hst)]; simpl.
  - exists ""%string. repeat split.
  - destruct (isWhiteSpace c) eqn:Hc.
    + exists (String c pre). simpl. rewrite <- Heq. repeat split; [|exact Hst].
      unfold allWhite in *. simpl. now rewrite Hc.
    + exists ""%string. simpl. repeat split. exact Hc.
Qed.

Lemma trimEnd_spec (s : string) :
  exists post, s = (trimEnd s ++ post)%string /\ allWhite post = true
               /\ endsWhite (trimEnd s) = false
               /\ (startsWhite s = false -> startsWhite (trimEnd s) = false).
Proof.
  induction s as [|c s (post & Heq & Hpost & Hend & _)]; simpl.
  - exists ""%string. repeat split.
  - destruct (trimEnd s) as [|d t] eqn:Ht.
    + cbn [append] in Heq. subst post.
      destruct (isWhiteSpace c) eqn:Hc.
      * exists (String c s).
        split; [reflexivity|]. split; [|split; [reflexivity|discriminate]].
        change (allWhite (String c s)) with (isWhiteSpace c && allWhite s)%bool.
        now rewrite Hc, Hpost.
      * exists s.
        split; [reflexivity|]. split; [exact Hpost|]. split; [exact Hc|auto].
    + exists post. cbn [append] in Heq |- *. rewrite <- Heq.
      split; [reflexivity|]. split; [exact Hpost|]. split; [exact Hend|auto].
Qed.

Lemma trim_spec (s : string) :
  exists pre post,
    s = (pre ++ trim s ++ post)%string
    /\ allWhite pre = true /\ allWhite post = true
    /\ startsWhite (trim s) = false /\ endsWhite (trim s) = false.
Proof.
  unfold trim.
  destruct (trimStart_spec s) as (pre & Heq & Hpre & Hst).
  destruct (trimEnd_spec (trimStart s)) as (post & Heq' & Hpost & Hend & Hst').
  exists pre, post. rewrite <- Heq'. repeat split; auto.
Qed.

Lemma fold_onLine (filter : record -> bool) (hs : list string) (ls : list string) :
  hs <> [] ->
  forall rs,
    fold_left (onLine filter) ls (mkSheet hs rs)
    = mkSheet hs (rs ++ List.filter filter (map (lineRecord hs) ls)).
Proof.
  intros Hhs. induction ls as [|l ls IH]; intros rs; simpl.
  - now rewrite app_nil_r.
  - unfold onLine at 2. simpl.
    destruct hs as [|h hs']; [contradiction|]. simpl.
    unfold pipe, filterRowObj. fold (lineRecord (h :: hs') l).
    destruct (filter (lineRecord (h :: hs') l)).
    + rewrite IH. now rewrite <- app_assoc.
    + destruct rs; apply IH.
Qed.

Lemma parseCSV_filter (filter : record -> bool) (l : string) (ls : list string) :
  fold_left (onLine filter) (l :: ls) (mkSheet [] [])
  = mkSheet (split (trim l))
      (List.filter filter (map (lineRecord (split (trim l))) ls)).
Proof.
  simpl. unfold onLine at 2. simpl.
  rewrite fold_onLine by apply split_nonempty. reflexivity.
Qed.

Lemma filter_trueFn (rs : list record) : List.filter trueFn rs = rs.
Proof. induction rs; simpl; congruence. Qed.

(** C2. The predicate built from the empty list of filter sets rejects
    every record, so a parse given [[]] keeps no row, whereas a parse given
    no filter keeps the record of every data line; the two parses differ as
    soon as there is a data line. *)
Theorem empty_filterSets_rejects_absent_filter_accepts :
  (forall r, createQueryFilter [] r = false)
  /\ (forall l ls, rows (parseCSV (l :: ls) (Some [])) = [])
  /\ (forall l ls,
        rows (parseCSV (l :: ls) None) = map (lineRecord (split (trim l))) ls)
  /\ (forall r, trueFn r = true)
  /\ parseCSV ["a"; "1"] (Some []) <> parseCSV ["a"; "1"] None.
Proof.
  split; [reflexivity|]. split.
  - intros l ls. unfold parseCSV. rewrite parseCSV_filter. simpl.
    induction ls; simpl; auto.
  - split.
    + intros l ls. unfold parseCSV. rewrite parseCSV_filter. simpl.
      apply filter_trueFn.
    + split; [reflexivity|]. vm_compute. discriminate.
Qed.

(** C9. A list of filter sets that contains an empty conjunction group
    accepts every record; in particular [[[]]] accepts every record. *)
Theorem createQueryFilter_empty_group_accepts_all :
  forall (filterSets : list filterSet) (r : record),
    In [] filterSets -> createQueryFilter filterSets r = true.
Proof.
  intros filterSets r Hin. apply createQueryFilter_true_iff.
  exists []. split; [exact Hin|]. intros column val [].
Qed.

Lemma createQueryFilter_empty_group_accepts_all_witness :
  In [] [[("a", VString "1")]; []]
  /\ createQueryFilter [[("a", VString "1")]; []] [("a", "2")] = true.
Proof.
  split.
  - right. left. reflexivity.
  - apply createQueryFilter_empty_group_accepts_all. right. left. reflexivity.
Defined.

(** C10. Merging the empty list of join steps returns the merged sheet with
    no header entry and no row; nothing is thrown. *)
Theorem mergeSheets_nil : mergeSheets [] = Ok (mkMerged [] []).
Proof. reflexivity. Qed.

(** ** Maps and folds that may throw *)

Lemma mapM_Ok_map {A B} (f : A -> result B) (g : A -> B) (xs : list A) :
  (forall x, In x xs -> f x = Ok (g x)) -> mapM f xs = Ok (map g xs).
Proof.
  induction xs as [|x xs IH]; intros H; simpl; [reflexivity|].
  rewrite (H x) by (left; reflexivity). simpl.
  rewrite IH by (intros y Hy; apply H; right; exact Hy). reflexivity.
Qed.

Lemma mapM_Ok_Forall2 {A B} (f : A -> result B) (xs : list A) (ys : list B) :
  mapM f xs = Ok ys -> Forall2 (fun x y => f x = Ok y) xs ys.
Proof.
  revert ys. induction xs as [|x xs IH]; intros ys H; simpl in H.
  - inversion H. constructor.
  - destruct (f x) as [y|] eqn:Hx; simpl in H; [|discriminate].
    destruct (mapM f xs) as [ys'|] eqn:Hxs; simpl in H; [|discriminate].
    inversion H; subst. constructor; [exact Hx|now apply IH].
Qed.

Lemma mapM_Ok_exists {A B} (f : A -> result B) (xs : list A) :
  (forall x, In x xs -> exists y, f x = Ok y) -> exists ys, mapM f xs = Ok ys.
Proof.
  induction xs as [|x xs IH]; intros H; simpl.
  - now exists [].
  - destruct (H x) as (y & Hy); [left; reflexivity|].
    destruct IH as (ys & Hys); [intros z Hz; apply H; right; exact Hz|].
    exists (y :: ys). now rewrite Hy, Hys.
Qed.

Lemma reduceM_app {A S} (step : S -> A -> result S) (xs ys : list A) (st : S) :
  reduceM step st (xs ++ ys)
  = bind (reduceM step st xs) (fun st' => reduceM step st' ys).
Proof.
  revert st. induction xs as [|x xs IH]; intros st; simpl; [reflexivity|].
  destruct (step st x); simpl; [apply IH|reflexivity].
Qed.

Lemma Forall2_nth_error {A B} (R : A -> B -> Prop) (xs : list A) (ys : list B) :
  Forall2 R xs ys ->
  forall i x, nth_error xs i = Some x ->
              exists y, nth_error ys i = Some y /\ R x y.
Proof.
  induction 1 as [|x0 y0 xs ys HR _ IH]; intros i x Hi.
  - destruct i; discriminate.
  - destruct i as [|i]; simpl in *.
    + inversion Hi; subst. now exists y0.
    + now apply IH.
Qed.

Lemma Forall2_length_eq {A B} (R : A -> B -> Prop) (xs : list A) (ys : list B) :
  Forall2 R xs ys -> length xs = length ys.
Proof. induction 1; simpl; congruence. Qed.

Lemma Forall2_In_r {A B} (R : A -> B -> Prop) (xs : list A) (ys : list B) :
  Forall2 R xs ys -> forall y, In y ys -> exists x, In x xs /\ R x y.
Proof.
  induction 1 as [|x0 y0 xs ys HR _ IH]; intros y Hy; [destruct Hy|].
  destruct Hy as [->|Hy].
  - exists x0. split; [left; reflexivity|exact HR].
  - destruct (IH _ Hy) as (x & Hx & HRx). exists x. split; [right; exact Hx|exact HRx].
Qed.

(** ** Own properties *)

Section ObjectFacts.
Variable V : Type.
Implicit Types (o : obj V) (k : string) (v : V).

Lemma own_define_same o k v : own (define o k v) k = Some v.
Proof.
  induction o as [|[k' v'] o IH]; simpl.
  - now rewrite String.eqb_refl.
  - destruct (String.eqb k' k) eqn:E; simpl.
    + now rewrite String.eqb_refl.
    + now rewrite E.
Qed.

Lemma own_define_other o k k' v : k <> k' -> own (define o k v) k' = own o k'.
Proof.
  intros Hne. induction o as [|[k0 v0] o IH]; simpl.
  - apply String.eqb_neq in Hne. now rewrite Hne.
  - destruct (String.eqb_spec k0 k) as [->|Hk]; simpl.
    + apply String.eqb_neq in Hne. now rewrite Hne.
    + now rewrite IH.
Qed.

Lemma own_define o k k' v :
  own (define o k v) k' = if String.eqb k k' then Some v else own o k'.
Proof.
  destruct (String.eqb_spec k k') as [->|Hne].
  - apply own_define_same.
  - now apply own_define_other.
Qed.

Lemma own_In_keys o k : own o k <> None <-> In k (keys o).
Proof.
  induction o as [|[k' v'] o IH]; simpl.
  - split; [congruence|tauto].
  - destruct (String.eqb_spec k' k) as [->|Hk].
    + split; [now left|discriminate].
    + rewrite IH. split; [now right|]. intros [E|E]; [contradiction|exact E].
Qed.

Lemma own_None_keys o k : own o k = None <-> ~ In k (keys o).
Proof.
  rewrite <- own_In_keys. destruct (own o k) as [v|]; split; intros H.
  - discriminate.
  - exfalso. apply H. discriminate.
  - intros H'. now apply H'.
  - reflexivity.
Qed.

Lemma keys_define_In o k v key :
  In key (keys (define o k v)) <-> key = k \/ In key (keys o).
Proof.
  induction o as [|[k' v'] o IH]; simpl.
  - split; [intros [E|[]]; now left|intros [E|[]]; now left].
  - destruct (String.eqb_spec k' k) as [->|Hk]; simpl.
    + split; intros H; repeat destruct H as [H|H]; subst; auto.
    + rewrite IH. split; intros H; repeat destruct H as [H|H]; subst; auto.
Qed.

Lemma keys_define_new o k v :
  ~ In k (keys o) -> keys (define o k v) = keys o ++ [k].
Proof.
  induction o as [|[k' v'] o IH]; simpl; intros Hn; [reflexivity|].
  destruct (String.eqb_spec k' k) as [->|Hk].
  - exfalso. apply Hn. now left.
  - simpl. rewrite IH; [reflexivity|]. intros H. apply Hn. now right.
Qed.
End ObjectFacts.

(** ** The merger *)

Lemma rowFilter_own (js : list string) (prevName : string) (row : mergedRow) (c : cell) :
  own row prevName = Some c ->
  rowFilter (Some js) prevName row
  = Ok (createQueryFilter (map (joinKeys js) (cellRecords c))).
Proof.
  intros Hown. unfold rowFilter. rewrite Hown. destruct c as [r|rs]; simpl.
  - reflexivity.
  - rewrite (mapM_Ok_map _ (joinKeys js)); [reflexivity|]. intros; reflexivity.
Qed.

Lemma In_joinKeys (js : list string) (p : record) (column : string) (val : value) :
  In (column, val) (joinKeys js p) <-> In column js /\ val = get p column.
Proof.
  unfold joinKeys. rewrite in_map_iff. split.
  - intros (j & E & Hj). inversion E; subst. auto.
  - intros (Hj & ->). now exists column.
Qed.

Lemma joinKeys_filter_iff (js : list string) (ps : list record) (c : record) :
  createQueryFilter (map (joinKeys js) ps) c = true <->
  exists p, In p ps /\ forall j, In j js -> get c j = get p j.
Proof.
  rewrite createQueryFilter_true_iff. split.
  - intros (g & Hg & Hall). apply in_map_iff in Hg as (p & <- & Hp).
    exists p. split; [exact Hp|]. intros j Hj. apply Hall.
    apply In_joinKeys. auto.
  - intros (p & Hp & Hall). exists (joinKeys js p). split.
    + apply in_map_iff. now exists p.
    + intros column val Hin. apply In_joinKeys in Hin as (Hj & ->). now apply Hall.
Qed.

Lemma mergeRow_own (prev q : sheetQuery) (js : list string) (row : mergedRow) (c : cell) :
  joins prev = Some js ->
  own row (name prev) = Some c ->
  mergeRow prev q row = Ok (define row (name q) (Many (matches js c (sheet q)))).
Proof.
  intros Hj Hown. unfold mergeRow. rewrite Hj, (rowFilter_own _ _ _ Hown).
  reflexivity.
Qed.

Lemma mergeRow_inv (prev q : sheetQuery) (row row' : mergedRow) :
  mergeRow prev q row = Ok row' ->
  exists f, rowFilter (joins prev) (name prev) row = Ok f
            /\ row' = define row (name q) (Many (List.filter f (rows (sheet q)))).
Proof.
  unfold mergeRow. destruct (rowFilter _ _ row) as [f|]; simpl; [|discriminate].
  intros H. inversion H. now exists f.
Qed.

Lemma mergeStep_first (acc : mergedSheet) (q : sheetQuery) :
  mergeStep (acc, None) q
  = Ok (mkMerged (assign (mergedHeaders acc) (name q) (headers (sheet q)))
          (map (fun r => [(name q, One r)]) (rows (sheet q))),
        Some q).
Proof. reflexivity. Qed.

Lemma mergeStep_inv (acc : mergedSheet) (prev q : sheetQuery) (st : mergeState) :
  mergeStep (acc, Some prev) q = Ok st ->
  exists rs,
    st = (mkMerged (assign (mergedHeaders acc) (name q) (headers (sheet q))) rs, Some q)
    /\ Forall2 (fun row row' => mergeRow prev q row = Ok row') (mergedRows acc) rs.
Proof.
  unfold mergeStep.
  destruct (mapM (mergeRow prev q) (mergedRows acc)) as [rs|] eqn:E; simpl;
    [|discriminate].
  intros H. inversion H. exists rs. split; [reflexivity|].
  now apply mapM_Ok_Forall2.
Qed.

(** What holds of the state once the steps [steps ++ [q]] are processed. *)
Lemma state_snoc (steps : list sheetQuery) :
  forall (q : sheetQuery) (st : mergeState),
    reduceM mergeStep mergeInit (steps ++ [q]) = Ok st ->
    snd st = Some q
    /\ (forall q0, nth_error (steps ++ [q]) 0 = Some q0 ->
          length (mergedRows (fst st)) = length (rows (sheet q0)))
    /\ (forall row, In row (mergedRows (fst st)) ->
          forall key, In key (keys row) <-> In key (map name (steps ++ [q]))).
Proof.
  induction steps as [|p steps IH] using rev_ind; intros q st H.
  - simpl in H. inversion H; subst; clear H. simpl. split; [reflexivity|]. split.
    + intros q0 E. inversion E; subst. now rewrite length_map.
    + intros row Hrow key. apply in_map_iff in Hrow as (r & <- & _).
      simpl. tauto.
  - rewrite reduceM_app in H.
    destruct (reduceM mergeStep mergeInit (steps ++ [p])) as [[acc prev]|] eqn:E;
      cbn [bind reduceM] in H; [|discriminate].
    destruct (IH p _ E) as (Hprev & Hlen & Hkeys). simpl in Hprev, Hlen, Hkeys.
    subst prev.
    destruct (mergeStep (acc, Some p) q) as [st'|] eqn:Hs; cbn [bind] in H; [|discriminate].
    inversion H; subst st'; clear H.
    apply mergeStep_inv in Hs as (rs & -> & HF). simpl.
    split; [reflexivity|]. split.
    + intros q0 E0. rewrite <- (Forall2_length_eq HF). apply Hlen.
      rewrite <- E0. rewrite <- app_assoc.
      destruct steps; reflexivity.
    + intros row' Hrow' key.
      destruct (Forall2_In_r HF _ Hrow') as (row & Hrow & Hm).
      apply mergeRow_inv in Hm as (f & _ & ->).
      rewrite keys_define_In, (Hkeys _ Hrow).
      rewrite (map_app name (steps ++ [p]) [q]), in_app_iff. simpl. 
      split; intros K; repeat destruct K as [K|K]; subst; auto; contradiction.
Qed.

Lemma state_last (steps : list sheetQuery) (acc : mergedSheet) (prev : sheetQuery) :
  reduceM mergeStep mergeInit steps = Ok (acc, Some prev) ->
  exists pre, steps = pre ++ [prev]
              /\ forall row, In row (mergedRows acc) -> own row (name prev) <> None.
Proof.
  intros H. destruct steps as [|q0 steps'] using rev_ind.
  - inversion H.
  - clear IHsteps'. destruct (state_snoc _ _ H) as (Hprev & _ & Hkeys).
    simpl in Hprev, Hkeys. inversion Hprev; subst q0.
    exists steps'. split; [reflexivity|].
    intros row Hrow. apply own_In_keys, (Hkeys _ Hrow).
    rewrite map_app, in_app_iff. right. left. reflexivity.
Qed.

(** One more step, seen from the state before it. *)
Lemma state_step (steps : list sheetQuery) (acc : mergedSheet)
                 (prev q : sheetQuery) (js : list string) :
  reduceM mergeStep mergeInit steps = Ok (acc, Some prev) ->
  joins prev = Some js ->
  exists rs,
    reduceM mergeStep mergeInit (steps ++ [q])
    = Ok (mkMerged (assign (mergedHeaders acc) (name q) (headers (sheet q))) rs, Some q)
    /\ Forall2 (joined js (name prev) q) (mergedRows acc) rs.
Proof.
  intros H Hj. destruct (state_last _ H) as (_ & _ & Hown).
  rewrite reduceM_app, H. simpl. unfold mergeStep.
  assert (HF : Forall2 (joined js (name prev) q) (mergedRows acc)
                 (map (fun row =>
                         match own row (name prev) with
                         | Some c => define row (name q) (Many (matches js c (sheet q)))
                         | None => row
                         end) (mergedRows acc))).
  { induction (mergedRows acc) as [|row rs IH]; simpl; constructor.
    - specialize (Hown row (or_introl eq_refl)).
      destruct (own row (name prev)) as [c|] eqn:E; [|congruence].
      now exists c.
    - apply IH. intros r Hr. apply Hown. now right. }
  eexists. split; [|exact HF].
  erewrite mapM_Ok_map; [reflexivity|].
  intros row Hrow. specialize (Hown _ Hrow). cbv beta.
  destruct (own row (name prev)) as [c|] eqn:E; [|congruence].
  now apply mergeRow_own.
Qed.

(** C3. Let the steps processed so far end with [prev], which carries the
    join columns [js], and let an accumulated row hold the list [rs] under
    the name of [prev].  Then processing one more step [q] succeeds; the
    filter used for that row is the one built from one conjunction group per
    record of [rs], the group of a record being its join keys; and a record
    is in the list the row gets under the name of [q] exactly when it is a
    record of the table of [q] that has, for at least one record of [rs],
    the same value as that record under every join column. *)
Theorem mergeSheets_filter_over_all_prior_records :
  forall (steps : list sheetQuery) (acc : mergedSheet) (prev q : sheetQuery)
         (js : list string) (i : nat) (row : mergedRow) (rs : list record),
    reduceM mergeStep mergeInit steps = Ok (acc, Some prev) ->
    joins prev = Some js ->
    nth_error (mergedRows acc) i = Some row ->
    own row (name prev) = Some (Many rs) ->
    exists m row',
      mergeSheets (steps ++ [q]) = Ok m
      /\ nth_error (mergedRows m) i = Some row'
      /\ rowFilter (joins prev) (name prev) row
         = Ok (createQueryFilter (map (joinKeys js) rs))
      /\ length (map (joinKeys js) rs) = length rs
      /\ row' = define row (name q)
                  (Many (List.filter (createQueryFilter (map (joinKeys js) rs))
                           (rows (sheet q))))
      /\ forall c,
           (exists ms, own row' (name q) = Some (Many ms) /\ In c ms)
           <-> (In c (rows (sheet q))
                /\ exists p, In p rs /\ forall j, In j js -> get c j = get p j).
Proof.
  intros steps acc prev q js i row rs Hst Hj Hi Hown.
  destruct (@state_step steps acc prev q js Hst Hj) as (rows' & Hrun & HF).
  destruct (Forall2_nth_error HF _ Hi) as (row' & Hi' & c & Hc & Hrow').
  rewrite Hown in Hc. inversion Hc; subst c; clear Hc.
  unfold matches in Hrow'. simpl in Hrow'.
  exists (mkMerged (assign (mergedHeaders acc) (name q) (headers (sheet q))) rows'), row'.
  split; [unfold mergeSheets; now rewrite Hrun|].
  split; [exact Hi'|].
  split; [rewrite Hj; apply (rowFilter_own js _ _ Hown)|].
  split; [apply length_map|].
  split; [exact Hrow'|].
  intros c. subst row'. rewrite own_define_same. split.
  - intros (ms & E & Hin). inversion E; subst ms; clear E.
    apply filter_In in Hin as (Hin & Hf). split; [exact Hin|].
    now apply joinKeys_filter_iff.
  - intros (Hin & Hp). eexists. split; [reflexivity|].
    apply filter_In. split; [exact Hin|]. now apply joinKeys_filter_iff.
Qed.

Lemma mergeSheets_filter_over_all_prior_records_witness :
  exists m row',
    mergeSheets ([Chain.q0; Chain.q1] ++ [Chain.q2]) = Ok m
    /\ nth_error (mergedRows m) 0 = Some row'
    /\ rowFilter (joins Chain.q1) (name Chain.q1) Chain.row1
       = Ok (createQueryFilter (map (joinKeys ["s"]) [Chain.zipA; Chain.zipB]))
    /\ length (map (joinKeys ["s"]) [Chain.zipA; Chain.zipB]) = 2
    /\ row' = define Chain.row1 (name Chain.q2)
                (Many (List.filter
                         (createQueryFilter
                            (map (joinKeys ["s"]) [Chain.zipA; Chain.zipB]))
                         (rows (sheet Chain.q2))))
    /\ forall c,
         (exists ms, own row' (name Chain.q2) = Some (Many ms) /\ In c ms)
         <-> (In c (rows (sheet Chain.q2))
              /\ exists p, In p [Chain.zipA; Chain.zipB]
                           /\ forall j, In j ["s"] -> get c j = get p j).
Proof.
  apply (@mergeSheets_filter_over_all_prior_records
           [Chain.q0; Chain.q1] Chain.acc1 Chain.q1 Chain.q2 ["s"] 0
           Chain.row1 [Chain.zipA; Chain.zipB]); reflexivity.
Defined.

(** The third table's record, which matches only the second of the two
    records matched at the second step, is kept; the seed row without a
    match carries empty lists. *)
Example chain_keeps_match_of_second_record :
  mergeSheets [Chain.q0; Chain.q1; Chain.q2]
  = Ok (mkMerged [("x", ["k"]); ("y", ["k"; "s"]); ("z", ["s"; "v"])]
          [[("x", One Chain.seed); ("y", Many [Chain.zipA; Chain.zipB]);
            ("z", Many [Chain.planB])];
           [("x", One Chain.lone); ("y", Many []); ("z", Many [])]]).
Proof. reflexivity. Qed.

Lemma firstn_snoc {A} (l : list A) :
  forall k x, nth_error l k = Some x -> firstn (S k) l = firstn k l ++ [x].
Proof.
  induction l as [|a l IH]; intros k x H.
  - destruct k; discriminate.
  - destruct k as [|k]; simpl in *.
    + now inversion H.
    + f_equal. now apply IH.
Qed.

Lemma In_firstn {A} (l : list A) (k : nat) (x : A) : In x (firstn k l) -> In x l.
Proof.
  intros H. rewrite <- (firstn_skipn k l). apply in_or_app. now left.
Qed.

Lemma wellFormed_prefix (steps : list sheetQuery) (k : nat) :
  wellFormed steps = true -> k < length steps ->
  forallb hasJoins (firstn k steps) = true.
Proof.
  unfold wellFormed. intros Hwf Hk. apply forallb_forall. intros p Hp.
  rewrite forallb_forall in Hwf. apply Hwf.
  rewrite <- (firstn_removelast steps Hk) in Hp. exact (In_firstn _ _ _ Hp).
Qed.

(** With [joins] on every step but the last, no step throws. *)
Lemma state_total (steps : list sheetQuery) :
  forall q, forallb hasJoins steps = true ->
            exists acc, reduceM mergeStep mergeInit (steps ++ [q]) = Ok (acc, Some q).
Proof.
  induction steps as [|p steps IH] using rev_ind; intros q Hwf.
  - eexists. reflexivity.
  - rewrite forallb_app in Hwf. apply andb_true_iff in Hwf as (Hwf & Hp).
    simpl in Hp. rewrite andb_true_r in Hp.
    destruct (IH p Hwf) as (acc & Hacc).
    unfold hasJoins in Hp. destruct (joins p) as [js|] eqn:Hj; [|discriminate].
    destruct (@state_step _ acc p q js Hacc Hj) as (rs & Hrun & _).
    eexists. exact Hrun.
Qed.

Lemma state_keys_order (steps : list sheetQuery) :
  forall (q : sheetQuery) (st : mergeState),
    reduceM mergeStep mergeInit (steps ++ [q]) = Ok st ->
    NoDup (map name (steps ++ [q])) ->
    forall row, In row (mergedRows (fst st)) -> keys row = map name (steps ++ [q]).
Proof.
  induction steps as [|p steps IH] using rev_ind; intros q st H Hnd row' Hrow'.
  - simpl in H. inversion H; subst; clear H. simpl in Hrow'.
    apply in_map_iff in Hrow' as (r & <- & _). reflexivity.
  - rewrite reduceM_app in H.
    destruct (reduceM mergeStep mergeInit (steps ++ [p])) as [[acc prev]|] eqn:E;
      cbn [bind reduceM] in H; [|discriminate].
    destruct (state_snoc _ _ E) as (Hprev & _). simpl in Hprev. subst prev.
    destruct (mergeStep (acc, Some p) q) as [st'|] eqn:Hs; cbn [bind] in H; [|discriminate].
    inversion H; subst st'; clear H.
    apply mergeStep_inv in Hs as (rs & -> & HF). simpl in Hrow'.
    destruct (Forall2_In_r HF _ Hrow') as (row & Hrow & Hm).
    apply mergeRow_inv in Hm as (f & _ & ->).
    rewrite (map_app name (steps ++ [p]) [q]) in Hnd |- *.
    assert (Hnd' : NoDup (map name (steps ++ [p]))).
    { eapply NoDup_app_remove_r. exact Hnd. }
    pose proof (IH p _ E Hnd' row Hrow) as Hk. simpl in Hk.
    rewrite keys_define_new; [now rewrite Hk|].
    rewrite Hk. intros Hin.
    apply NoDup_remove_2 in Hnd. apply Hnd. now rewrite app_nil_r.
Qed.

Lemma filter_none {A} (f : A -> bool) (xs : list A) :
  (forall x, In x xs -> f x = false) -> List.filter f xs = [].
Proof.
  induction xs as [|x xs IH]; intros H; simpl; [reflexivity|].
  rewrite (H x) by (left; reflexivity). apply IH. intros y Hy. apply H. now right.
Qed.

Lemma mergeSheets_state (steps : list sheetQuery) (acc : mergedSheet)
                        (prev : option sheetQuery) :
  reduceM mergeStep mergeInit steps = Ok (acc, prev) -> mergeSheets steps = Ok acc.
Proof. intros H. unfold mergeSheets. now rewrite H. Qed.

(** The state after step [k] is the state the whole fold goes through: the
    remaining steps are processed from it. *)
Lemma reduce_through_stateAfter (steps : list sheetQuery) (k : nat) :
  reduceM mergeStep mergeInit steps
  = bind (stateAfter steps k)
      (fun st => reduceM mergeStep st (skipn (S k) steps)).
Proof.
  unfold stateAfter. rewrite <- reduceM_app. now rewrite firstn_skipn.
Qed.

(** Without join columns on a step that is not the last, the mapper of the
    next step throws as soon as there is a row to join. *)
Example mergeSheets_missing_joins_throws :
  mergeSheets [mkQuery (mkSheet ["k"] [[("k", "1")]]) None "x";
               mkQuery (mkSheet ["k"] [[("k", "1")]]) None "y"] = Throw.
Proof. reflexivity. Qed.

(** A single step: every record of its table under the name of the step. *)
Example mergeSheets_single_seed :
  mergeSheets [mkQuery (mkSheet ["z"] [[("z", "1")]]) None "x"]
  = Ok (mkMerged [("x", ["z"])] [[("x", One [("z", "1")])]]).
Proof. reflexivity. Qed.

(** C4. Take join steps in which every step but the last carries its join
    columns, and let step [k] exist.  Then the fold reaches the state after
    step [k] without throwing, and in that state: there are as many merged
    rows as the table of step 0 has records; the keys of every merged row
    are the names of the steps [0..k] (created, and enumerated, in that very
    order when the names are distinct and none is an array index, which
    enumeration would put first); for [k >= 1] the rows are, one for one
    and in order, the rows of the state after step [k-1], each extended
    under the name of step [k] with the list of its matches, which is the
    empty list when no record of the table passes the row's filter.  When
    [k] is the last step this state holds what [mergeSheets] returns. *)
Theorem mergeSheets_rows_invariant :
  forall (steps : list sheetQuery) (k : nat) (q0 qk : sheetQuery),
    wellFormed steps = true ->
    nth_error steps 0 = Some q0 ->
    nth_error steps k = Some qk ->
    exists acc,
      stateAfter steps k = Ok (acc, Some qk)
      /\ (S k = length steps -> mergeSheets steps = Ok acc)
      /\ length (mergedRows acc) = length (rows (sheet q0))
      /\ (forall row, In row (mergedRows acc) ->
            (forall key, In key (keys row)
                         <-> In key (map name (firstn (S k) steps)))
            /\ (NoDup (map name (firstn (S k) steps)) ->
                Forall (fun n => isArrayIndex n = false)
                       (map name (firstn (S k) steps)) ->
                keys row = map name (firstn (S k) steps)
                /\ ownKeys row = map name (firstn (S k) steps)))
      /\ (forall k' prev,
            k = S k' -> nth_error steps k' = Some prev ->
            exists acc0 js,
              stateAfter steps k' = Ok (acc0, Some prev)
              /\ joins prev = Some js
              /\ Forall2
                   (fun row row' =>
                      exists c,
                        own row (name prev) = Some c
                        /\ row' = define row (name qk) (Many (matches js c (sheet qk)))
                        /\ own row' (name qk) = Some (Many (matches js c (sheet qk)))
                        /\ ((forall r, In r (rows (sheet qk)) ->
                               createQueryFilter (map (joinKeys js) (cellRecords c)) r
                               = false) ->
                            own row' (name qk) = Some (Many [])))
                   (mergedRows acc0) (mergedRows acc)).
Proof.
  intros steps k q0 qk Hwf H0 Hk.
  assert (Hlt : k < length steps) by (apply nth_error_Some; congruence).
  pose proof (wellFormed_prefix steps Hwf Hlt) as Hpre.
  destruct (state_total _ qk Hpre) as (acc & Hacc).
  unfold stateAfter. rewrite (firstn_snoc _ _ Hk).
  exists acc. split; [exact Hacc|].
  destruct (state_snoc _ _ Hacc) as (_ & Hlen & Hkeys). cbn [fst] in Hlen, Hkeys.
  split.
  - intros Hlast. apply mergeSheets_state with (prev := Some qk).
    rewrite <- Hacc. f_equal. rewrite <- (firstn_snoc _ _ Hk), Hlast.
    symmetry. apply firstn_all.
  - split.
    + apply Hlen. rewrite <- (firstn_snoc _ _ Hk), nth_error_firstn. exact H0.
    + split.
      * intros row Hrow. split; [exact (Hkeys _ Hrow)|].
        intros Hnd Hidx.
        pose proof (state_keys_order _ _ Hacc Hnd row Hrow) as Hord.
        split; [exact Hord|]. unfold ownKeys. rewrite Hord.
        now apply enumerate_no_index.
      * intros k' prev -> Hk'.
        assert (Hlt' : k' < length steps) by lia.
        pose proof (wellFormed_prefix steps Hwf Hlt') as Hpre'.
        destruct (state_total _ prev Hpre') as (acc0 & Hacc0).
        rewrite (firstn_snoc _ _ Hk') in Hpre, Hacc |- *.
        rewrite forallb_app in Hpre. apply andb_true_iff in Hpre as (_ & Hp).
        simpl in Hp. rewrite andb_true_r in Hp. unfold hasJoins in Hp.
        destruct (joins prev) as [js|] eqn:Hj; [|discriminate].
        exists acc0, js. split; [exact Hacc0|]. split; [reflexivity|].
        destruct (@state_step _ acc0 prev qk js Hacc0 Hj) as (rs & Hrun & HF).
        rewrite Hrun in Hacc. inversion Hacc; subst acc; clear Hacc. simpl.
        eapply Forall2_impl; [|exact HF].
        intros row row' (c & Hc & ->). exists c.
        split; [exact Hc|]. split; [reflexivity|].
        split; [apply own_define_same|].
        intros Hnone. rewrite own_define_same. unfold matches.
        now rewrite (filter_none _ _ Hnone).
Qed.

Lemma mergeSheets_rows_invariant_witness :
  exists acc,
    stateAfter [Chain.q0; Chain.q1; Chain.q2] 2 = Ok (acc, Some Chain.q2)
    /\ (3 = length [Chain.q0; Chain.q1; Chain.q2] ->
        mergeSheets [Chain.q0; Chain.q1; Chain.q2] = Ok acc)
    /\ length (mergedRows acc) = length (rows (sheet Chain.q0))
    /\ (forall row, In row (mergedRows acc) ->
          (forall key, In key (keys row)
                       <-> In key (map name (firstn 3 [Chain.q0; Chain.q1; Chain.q2])))
          /\ (NoDup (map name (firstn 3 [Chain.q0; Chain.q1; Chain.q2])) ->
              Forall (fun n => isArrayIndex n = false)
                     (map name (firstn 3 [Chain.q0; Chain.q1; Chain.q2])) ->
              keys row = map name (firstn 3 [Chain.q0; Chain.q1; Chain.q2])
              /\ ownKeys row = map name (firstn 3 [Chain.q0; Chain.q1; Chain.q2])))
    /\ (forall k' prev,
          2 = S k' -> nth_error [Chain.q0; Chain.q1; Chain.q2] k' = Some prev ->
          exists acc0 js,
            stateAfter [Chain.q0; Chain.q1; Chain.q2] k' = Ok (acc0, Some prev)
            /\ joins prev = Some js
            /\ Forall2
                 (fun row row' =>
                    exists c,
                      own row (name prev) = Some c
                      /\ row' = define row (name Chain.q2)
                                  (Many (matches js c (sheet Chain.q2)))
                      /\ own row' (name Chain.q2)
                         = Some (Many (matches js c (sheet Chain.q2)))
                      /\ ((forall r, In r (rows (sheet Chain.q2)) ->
                             createQueryFilter (map (joinKeys js) (cellRecords c)) r
                             = false) ->
                          own row' (name Chain.q2) = Some (Many [])))
                 (mergedRows acc0) (mergedRows acc)).
Proof.
  apply (@mergeSheets_rows_invariant
           [Chain.q0; Chain.q1; Chain.q2] 2 Chain.q0 Chain.q2); reflexivity.
Defined.

(** Step names that are array indices: the rows own the three names, and
    enumerate the indices first, in ascending order, not in step order. *)
Example mergeSheets_index_names_enumerate_first :
  exists m row,
    mergeSheets [mkQuery (mkSheet ["k"] [[("k", "1")]]) (Some []) "b";
                 mkQuery (mkSheet ["k"] []) (Some []) "2";
                 mkQuery (mkSheet ["k"] []) None "1"] = Ok m
    /\ mergedRows m = [row]
    /\ (forall key, In key (ownKeys row) <-> In key ["b"; "2"; "1"])
    /\ ownKeys row = ["1"; "2"; "b"]
    /\ ownKeys (mergedHeaders m) = ["1"; "2"; "b"].
Proof.
  eexists. eexists. split; [reflexivity|]. split; [reflexivity|].
  split; [intros key; apply In_enumerate|].
  split; vm_compute; reflexivity.
Qed.

(** ** Rows against headers *)

Lemma own_app {V} (a b : obj V) (k : string) :
  own (a ++ b) k = match own a k with Some v => Some v | None => own b k end.
Proof.
  induction a as [|[k' v'] a IH]; simpl; [reflexivity|].
  destruct (String.eqb k' k); [reflexivity|exact IH].
Qed.

Lemma keys_app {V} (a b : obj V) : keys (a ++ b) = keys a ++ keys b.
Proof. apply map_app. Qed.

Lemma define_new {V} (o : obj V) (k : string) (v : V) :
  ~ In k (keys o) -> define o k v = o ++ [(k, v)].
Proof.
  induction o as [|[k' v'] o IH]; simpl; intros Hn; [reflexivity|].
  destruct (String.eqb_spec k' k) as [->|Hk].
  - exfalso. apply Hn. now left.
  - rewrite IH; [reflexivity|]. intros H. apply Hn. now right.
Qed.

Lemma define_last {V} (o : obj V) (k : string) (x v : V) :
  ~ In k (keys o) -> define (o ++ [(k, x)]) k v = o ++ [(k, v)].
Proof.
  induction o as [|[k' v'] o IH]; simpl; intros Hn.
  - now rewrite String.eqb_refl.
  - destruct (String.eqb_spec k' k) as [->|Hk].
    + exfalso. apply Hn. now left.
    + rewrite IH; [reflexivity|]. intros H. apply Hn. now right.
Qed.

Lemma assign_new {V} (o : obj V) (k : string) (v : V) :
  ~ In k (keys o) -> k <> "__proto__" -> assign o k v = o ++ [(k, v)].
Proof.
  intros Hn Hp. unfold assign.
  apply own_None_keys in Hn as Hown. rewrite Hown.
  apply String.eqb_neq in Hp. rewrite Hp. now apply define_new.
Qed.

Lemma assign_last {V} (o : obj V) (k : string) (x v : V) :
  ~ In k (keys o) -> assign (o ++ [(k, x)]) k v = o ++ [(k, v)].
Proof.
  intros Hn. unfold assign. rewrite own_app.
  apply own_None_keys in Hn as Hown. rewrite Hown. simpl.
  rewrite String.eqb_refl. now apply define_last.
Qed.

Lemma skipn_nil_nth_error {A} (l : list A) :
  forall i, skipn i l = [] -> nth_error l i = None.
Proof.
  induction l as [|a l IH]; intros [|i] H; simpl in *; try reflexivity.
  - discriminate.
  - now apply IH.
Qed.

Lemma skipn_cons_nth_error {A} (l : list A) :
  forall i h t, skipn i l = h :: t -> nth_error l i = Some h /\ skipn (S i) l = t.
Proof.
  induction l as [|a l IH]; intros [|i] h t H; simpl in *; try discriminate.
  - inversion H. auto.
  - now apply IH.
Qed.

Lemma last_cons {A} (l : list A) (v d : A) : last (v :: l) d = last l v.
Proof.
  revert v d. induction l as [|a l IH]; intros v d; [reflexivity|].
  change (last (v :: a :: l) d) with (last (a :: l) d). now rewrite !IH.
Qed.

Section Convert.
Variable hs : list string.

(** Beyond the headers every field is assigned to ["undefined"]. *)
Lemma convertFrom_extra (row : list string) :
  forall i acc x,
    skipn i hs = [] -> ~ In "undefined" (keys acc) ->
    convertFrom hs i row (acc ++ [("undefined", x)])
    = acc ++ [("undefined", last row x)].
Proof.
  induction row as [|v row IH]; intros i acc x Hs Hn; [reflexivity|].
  cbn [convertFrom]. unfold headerKey. rewrite (skipn_nil_nth_error _ _ Hs).
  rewrite assign_last by exact Hn. rewrite IH; [now rewrite last_cons| |exact Hn].
  apply skipn_all_iff. apply skipn_all_iff in Hs. lia.
Qed.

Lemma convertFrom_zip (row : list string) :
  forall i acc,
    NoDup (keys acc ++ skipn i hs) ->
    ~ In "__proto__" (skipn i hs) ->
    ~ In "undefined" (keys acc ++ skipn i hs) ->
    convertFrom hs i row acc
    = acc ++ combine (skipn i hs) row
          ++ (if length (skipn i hs) <? length row
              then [("undefined", last row "")] else []).
Proof.
  induction row as [|v row IH]; intros i acc Hnd Hp Hu.
  - simpl. rewrite combine_nil. simpl. now rewrite app_nil_r.
  - cbn [convertFrom]. unfold headerKey.
    destruct (skipn i hs) as [|h t] eqn:Hs.
    + rewrite (skipn_nil_nth_error _ _ Hs). simpl.
      rewrite app_nil_r in Hu.
      rewrite assign_new; [|exact Hu|discriminate].
      rewrite convertFrom_extra;
        [destruct row as [|w row']; [reflexivity|now rewrite !last_cons]|..].
      * apply skipn_all_iff. apply skipn_all_iff in Hs. lia.
      * exact Hu.
    + destruct (skipn_cons_nth_error _ _ Hs) as (Hh & Ht). rewrite Hh.
      assert (Hnh : ~ In h (keys acc)).
      { intros Hin. apply NoDup_remove_2 in Hnd. apply Hnd.
        apply in_or_app. now left. }
      assert (Hph : h <> "__proto__").
      { intros ->. apply Hp. now left. }
      rewrite assign_new by assumption.
      rewrite IH; rewrite ?Ht, ?keys_app; simpl.
      * rewrite <- app_assoc. simpl. f_equal. f_equal. f_equal.
        assert (Eq : (S (length t) <? S (length row)) = (length t <? length row))
          by reflexivity.
        rewrite Eq. clear Eq.
        destruct (length t <? length row) eqn:E; [|reflexivity].
        apply Nat.ltb_lt in E. destruct row as [|w row]; [simpl in E; lia|].
        reflexivity.
      * now rewrite <- app_assoc.
      * intros Hin. apply Hp. now right.
      * rewrite <- app_assoc. exact Hu.
Qed.
End Convert.

Lemma own_combine (hs : list string) :
  NoDup hs ->
  forall (row : list string) i h,
    nth_error hs i = Some h -> own (combine hs row) h = nth_error row i.
Proof.
  induction 1 as [|h0 hs Hn Hnd IH]; intros row i h Hi.
  - destruct i; discriminate.
  - destruct row as [|v row]; simpl.
    + now destruct i.
    + destruct i as [|i]; simpl in Hi.
      * inversion Hi; subst. now rewrite String.eqb_refl.
      * assert (Hne : h0 <> h).
        { intros ->. apply Hn. eapply nth_error_In. exact Hi. }
        apply String.eqb_neq in Hne. rewrite Hne.
        change (nth_error (v :: row) (S i)) with (nth_error row i). now apply IH.
Qed.

Lemma convertRowToObj_zip (hs row : list string) :
  NoDup hs -> ~ In "__proto__" hs -> ~ In "undefined" hs ->
  convertRowToObj hs row
  = positionalZip hs row
      ++ (if length hs <? length row then [("undefined", last row "")] else []).
Proof.
  intros Hnd Hp Hu. unfold convertRowToObj.
  rewrite convertFrom_zip; [reflexivity|exact Hnd|exact Hp|exact Hu].
Qed.

(** C7. Whatever the lines and the filter, the parser trims each line and
    splits it at every comma (joining the fields with commas gives the
    trimmed line back and no field holds a comma: there is no quoting); the
    first line gives the headers, every later line is turned into a record
    against these headers, and the rows are these records, in line order,
    restricted to those the predicate accepts, all of them when no filter is
    given.  The record of a line is the positional zip of the headers with
    the fields of the line: with distinct headers, none of them named
    ["__proto__"] or ["undefined"], the record holds under header [i] the
    field [i] of the line, nothing when the line has no such field, and it
    is the list of the pairs of header and field when there are as many
    fields as headers.  Header [a,b] and data line [1,2] give headers [a; b]
    and the one row {a: 1, b: 2}. *)
Theorem parseCSV_headers_then_filtered_records :
  forall (filterSets : option (list filterSet)),
    let predicate :=
      match filterSets with
      | Some fs => createQueryFilter fs
      | None => trueFn
      end in
    parseCSV [] filterSets = mkSheet [] []
    /\ (forall l ls,
          parseCSV (l :: ls) filterSets
          = mkSheet (split (trim l))
              (List.filter predicate (map (lineRecord (split (trim l))) ls)))
    /\ (forall l ls,
          parseCSV (l :: ls) None
          = mkSheet (split (trim l)) (map (lineRecord (split (trim l))) ls))
    /\ (forall s, String.concat "," (split s) = s
                  /\ Forall (fun f => hasComma f = false) (split s))
    /\ (forall s, exists pre post,
           s = (pre ++ trim s ++ post)%string
           /\ allWhite pre = true /\ allWhite post = true
           /\ startsWhite (trim s) = false /\ endsWhite (trim s) = false)
    /\ (forall hs line,
          NoDup hs -> ~ In "__proto__" hs -> ~ In "undefined" hs ->
          (forall i h, nth_error hs i = Some h ->
                       own (lineRecord hs line) h = nth_error (split (trim line)) i)
          /\ (length (split (trim line)) = length hs ->
              lineRecord hs line = positionalZip hs (split (trim line))))
    /\ parseCSV ["a,b"; "1,2"] None
       = mkSheet ["a"; "b"] [[("a", "1"); ("b", "2")]].
Proof.
  intros filterSets predicate. split; [reflexivity|].
  split; [intros l ls; apply parseCSV_filter|].
  split.
  - intros l ls. unfold parseCSV. rewrite parseCSV_filter.
    now rewrite filter_trueFn.
  - split; [intros s; split; [apply split_concat|apply split_no_comma]|].
    split; [apply trim_spec|]. split; [|reflexivity].
    intros hs line Hnd Hp Hu. unfold lineRecord.
    pose proof (convertRowToObj_zip (split (trim line)) Hnd Hp Hu) as Hz.
    split.
    + intros i h Hi. rewrite Hz, own_app. unfold positionalZip.
      rewrite (own_combine Hnd (split (trim line)) i Hi).
      destruct (nth_error (split (trim line)) i) as [v|]; [reflexivity|].
      destruct (length hs <? length (split (trim line))); [|reflexivity].
      cbn [own]. destruct (String.eqb_spec "undefined" h) as [<-|Hne]; [|reflexivity].
      exfalso. apply Hu. eapply nth_error_In. exact Hi.
    + intros Hlen. rewrite Hz, Hlen, Nat.ltb_irrefl. apply app_nil_r.
Qed.

(** C5, as the code has it.  With distinct headers, none of them named
    ["undefined"] or ["__proto__"]: a row with no more fields than headers
    becomes the positional zip, the headers beyond the fields being absent
    from the record, so that they read as an absent property does:
    [undefined], or the member of [Object.prototype] of that name when the
    header is one, such as [constructor]; a row with more fields than
    headers becomes the positional zip followed by the property
    ["undefined"], which holds the last field: the extra fields are assigned
    to that property one after the other, not dropped.  In both cases header
    [i] holds field [i] when there is one, and nothing is thrown. *)
Theorem convertRowToObj_field_count_mismatch :
  forall (hs row : list string),
    NoDup hs -> ~ In "__proto__" hs -> ~ In "undefined" hs ->
    (length row <= length hs -> convertRowToObj hs row = positionalZip hs row)
    /\ (length hs < length row ->
        convertRowToObj hs row
        = positionalZip hs row ++ [("undefined", last row "")])
    /\ (forall i h, nth_error hs i = Some h ->
                    own (convertRowToObj hs row) h = nth_error row i)
    /\ (forall i h, nth_error hs i = Some h -> length row <= i ->
                    own (convertRowToObj hs row) h = None
                    /\ get (convertRowToObj hs row) h
                       = if inherited h then VInherited h else VUndefined).
Proof.
  intros hs row Hnd Hp Hu.
  pose proof (convertRowToObj_zip row Hnd Hp Hu) as Hz.
  assert (Hown : forall i h, nth_error hs i = Some h ->
                             own (convertRowToObj hs row) h = nth_error row i).
  { intros i h Hi. rewrite Hz, own_app. unfold positionalZip.
    rewrite (own_combine Hnd row i Hi).
    destruct (nth_error row i) as [v|] eqn:E; [reflexivity|].
    destruct (length hs <? length row); [|reflexivity].
    cbn [own]. destruct (String.eqb_spec "undefined" h) as [<-|Hne]; [|reflexivity].
    exfalso. apply Hu. eapply nth_error_In. exact Hi. }
  split.
  - intros Hle. rewrite Hz. apply Nat.ltb_ge in Hle. rewrite Hle. apply app_nil_r.
  - split.
    + intros Hlt. rewrite Hz. apply Nat.ltb_lt in Hlt. now rewrite Hlt.
    + split; [exact Hown|].
      intros i h Hi Hle. unfold get. rewrite (Hown i h Hi).
      apply nth_error_None in Hle. rewrite Hle. now split.
Qed.

Lemma convertRowToObj_field_count_mismatch_witness :
  (length ["1"; "2"; "3"] <= length ["a"; "b"] ->
   convertRowToObj ["a"; "b"] ["1"; "2"; "3"] = positionalZip ["a"; "b"] ["1"; "2"; "3"])
  /\ (length ["a"; "b"] < length ["1"; "2"; "3"] ->
      convertRowToObj ["a"; "b"] ["1"; "2"; "3"]
      = positionalZip ["a"; "b"] ["1"; "2"; "3"]
          ++ [("undefined", last ["1"; "2"; "3"] "")])
  /\ (forall i h, nth_error ["a"; "b"] i = Some h ->
                  own (convertRowToObj ["a"; "b"] ["1"; "2"; "3"]) h
                  = nth_error ["1"; "2"; "3"] i)
  /\ (forall i h, nth_error ["a"; "b"] i = Some h -> length ["1"; "2"; "3"] <= i ->
                  own (convertRowToObj ["a"; "b"] ["1"; "2"; "3"]) h = None
                  /\ get (convertRowToObj ["a"; "b"] ["1"; "2"; "3"]) h
                     = if inherited h then VInherited h else VUndefined).
Proof.
  apply (@convertRowToObj_field_count_mismatch ["a"; "b"] ["1"; "2"; "3"]).
  - constructor; [simpl; intros [H|[]]; discriminate|].
    constructor; [intros []|constructor].
  - simpl. intros [H|[H|[]]]; discriminate.
  - simpl. intros [H|[H|[]]]; discriminate.
Defined.

(** C5, as stated, fails: with one header and two fields the second field
    is not dropped, it is stored under the property ["undefined"], which the
    positional zip does not have. *)
Lemma convertRowToObj_keeps_extra_field :
  length ["a"] <> length ["1"; "2"]
  /\ convertRowToObj ["a"] ["1"; "2"] = [("a", "1"); ("undefined", "2")]
  /\ positionalZip ["a"] ["1"; "2"] = [("a", "1")]
  /\ get (convertRowToObj ["a"] ["1"; "2"]) "undefined" = VString "2"
  /\ get (positionalZip ["a"] ["1"; "2"]) "undefined" = VUndefined
  /\ ~ (forall hs row k,
          get (convertRowToObj hs row) k = get (positionalZip hs row) k).
Proof.
  split; [discriminate|]. repeat (split; [reflexivity|]).
  intros H. specialize (H ["a"] ["1"; "2"] "undefined"). discriminate H.
Qed.

(** ** Join columns that the previous records lack *)

Lemma get_absent_not_string (p : record) (j s : string) :
  own p j = None -> get p j <> VString s.
Proof.
  intros H. unfold get. rewrite H. destruct (inherited j); discriminate.
Qed.

Lemma matches_lack_column (js : list string) (c : cell) (t : sheetT) (j : string) :
  In j js ->
  (forall p, In p (cellRecords c) -> own p j = None) ->
  forall r, In r (matches js c t) -> own r j = None.
Proof.
  intros Hj Habs r Hr. unfold matches in Hr.
  apply filter_In in Hr as (_ & Hf).
  apply joinKeys_filter_iff in Hf as (p & Hp & Hall).
  specialize (Hall j Hj). destruct (own r j) as [s|] eqn:E; [|reflexivity].
  exfalso. apply (@get_absent_not_string p j s (Habs p Hp)).
  rewrite <- Hall. unfold get. now rewrite E.
Qed.

(** C6, as the code has it.  Let the steps processed so far end with
    [prev], let [j] be one of its join columns and let an accumulated row
    hold, under the name of [prev], records that all lack the column [j].
    Then processing one more step [q] throws nothing; the join key built for
    [j] is what reading an absent property gives: [undefined], or the member
    of [Object.prototype] named [j] when there is one, such as [toString];
    no record of the table of [q] that has the column [j] is matched, so the
    list the row gets under the name of [q] holds only records that lack [j]
    too, and it is empty when every record of that table has the column. *)
Theorem mergeSheets_absent_join_column :
  forall (steps : list sheetQuery) (acc : mergedSheet) (prev q : sheetQuery)
         (js : list string) (j : string) (i : nat) (row : mergedRow) (c : cell),
    reduceM mergeStep mergeInit steps = Ok (acc, Some prev) ->
    joins prev = Some js ->
    In j js ->
    nth_error (mergedRows acc) i = Some row ->
    own row (name prev) = Some c ->
    (forall p, In p (cellRecords c) -> own p j = None) ->
    exists m row',
      mergeSheets (steps ++ [q]) = Ok m
      /\ nth_error (mergedRows m) i = Some row'
      /\ own row' (name q) = Some (Many (matches js c (sheet q)))
      /\ (forall p, In p (cellRecords c) ->
            In (j, if inherited j then VInherited j else VUndefined)
               (joinKeys js p))
      /\ (forall r, In r (matches js c (sheet q)) -> own r j = None)
      /\ ((forall r, In r (rows (sheet q)) -> own r j <> None) ->
          own row' (name q) = Some (Many [])).
Proof.
  intros steps acc prev q js j i row c Hst Hjs Hj Hi Hown Habs.
  destruct (@state_step steps acc prev q js Hst Hjs) as (rows' & Hrun & HF).
  destruct (Forall2_nth_error HF _ Hi) as (row' & Hi' & c' & Hc & ->).
  rewrite Hown in Hc. inversion Hc; subst c'; clear Hc.
  eexists. eexists. split; [unfold mergeSheets; now rewrite Hrun|].
  split; [exact Hi'|]. split; [apply own_define_same|].
  pose proof (@matches_lack_column js c (sheet q) j Hj Habs) as Hlack.
  split.
  - intros p Hp. apply In_joinKeys. split; [exact Hj|].
    unfold get. now rewrite (Habs p Hp).
  - split; [exact Hlack|].
    intros Hall. rewrite own_define_same.
    destruct (matches js c (sheet q)) as [|r ms] eqn:E; [reflexivity|].
    exfalso. apply (Hall r).
    + assert (Hin : In r (matches js c (sheet q))) by (rewrite E; now left).
      unfold matches in Hin. now apply filter_In in Hin as (Hin & _).
    + apply Hlack. now left.
Qed.

Lemma mergeSheets_absent_join_column_witness :
  exists m row',
    mergeSheets ([Absent.q0] ++ [Absent.q1]) = Ok m
    /\ nth_error (mergedRows m) 0 = Some row'
    /\ own row' (name Absent.q1)
       = Some (Many (matches ["k"] (One Absent.left) (sheet Absent.q1)))
    /\ (forall p, In p (cellRecords (One Absent.left)) ->
          In ("k", if inherited "k" then VInherited "k" else VUndefined)
             (joinKeys ["k"] p))
    /\ (forall r, In r (matches ["k"] (One Absent.left) (sheet Absent.q1)) ->
                  own r "k" = None)
    /\ ((forall r, In r (rows (sheet Absent.q1)) -> own r "k" <> None) ->
        own row' (name Absent.q1) = Some (Many [])).
Proof.
  apply (@mergeSheets_absent_join_column
           [Absent.q0] (mkMerged [("x", ["a"])] [[("x", One Absent.left)]])
           Absent.q0 Absent.q1 ["k"] "k" 0 [("x", One Absent.left)]
           (One Absent.left)).
  - reflexivity.
  - reflexivity.
  - left. reflexivity.
  - reflexivity.
  - reflexivity.
  - intros p [<-|[]]. reflexivity.
Defined.

(** C6, as stated, fails: the first step joins on the column [k], which
    its record lacks, so the join key is [undefined]; the record of the
    second table lacks [k] as well, [undefined === undefined] holds, and the
    match list is not empty. *)
Lemma mergeSheets_absent_column_still_matches :
  joins Absent.q0 = Some ["k"]
  /\ own Absent.left "k" = None
  /\ createJoinMapper (joins Absent.q0) Absent.left = Ok [("k", VUndefined)]
  /\ mergeSheets [Absent.q0; Absent.q1]
     = Ok (mkMerged [("x", ["a"]); ("y", ["b"])]
             [[("x", One Absent.left); ("y", Many [Absent.right])]])
  /\ Many [Absent.right] <> Many [].
Proof.
  repeat (split; [reflexivity|]). discriminate.
Qed.

(** * The merger on a heap: framing *)

Lemma nth_error_upd_same (h : heap) :
  forall l o o0, nth_error h l = Some o0 -> nth_error (upd l o h) l = Some o.
Proof.
  induction h as [|x h IH]; intros [|l] o o0 H; simpl in *; try discriminate.
  - reflexivity.
  - eapply IH. exact H.
Qed.

Lemma nth_error_upd_other (h : heap) :
  forall l l' o, l <> l' -> nth_error (upd l o h) l' = nth_error h l'.
Proof.
  induction h as [|x h IH]; intros [|l] [|l'] o Hne; simpl; try reflexivity.
  - congruence.
  - apply IH. congruence.
Qed.

Lemma length_upd (h : heap) : forall l o, length (upd l o h) = length h.
Proof.
  induction h as [|x h IH]; intros [|l] o; simpl; try reflexivity.
  now rewrite IH.
Qed.

Lemma nth_error_Some_lt (h : heap) (l : loc) (o : hobj) :
  nth_error h l = Some o -> l < length h.
Proof. intros H. apply nth_error_Some. congruence. Qed.

Lemma nth_error_app_Some (h ext : heap) (l : loc) (o : hobj) :
  nth_error h l = Some o -> nth_error (h ++ ext) l = Some o.
Proof.
  intros H. rewrite nth_error_app1; [exact H|]. eapply nth_error_Some_lt; eauto.
Qed.

Lemma nth_error_app_new (h : heap) (o : hobj) :
  nth_error (h ++ [o]) (length h) = Some o.
Proof. rewrite nth_error_app2, Nat.sub_diag by lia. reflexivity. Qed.

Lemma keeps_refl (ex : list loc) (h : heap) : keeps ex h h.
Proof. intros l o H _. exact H. Qed.

Lemma keeps_trans (ex : list loc) (h1 h2 h3 : heap) :
  keeps ex h1 h2 -> keeps ex h2 h3 -> keeps ex h1 h3.
Proof. intros H12 H23 l o H Hn. apply H23; [|exact Hn]. now apply H12. Qed.

Lemma keeps_incl (ex ex' : list loc) (h h' : heap) :
  incl ex ex' -> keeps ex h h' -> keeps ex' h h'.
Proof. intros Hi Hk l o H Hn. apply Hk; [exact H|]. intros Hin. apply Hn, Hi, Hin. Qed.

Lemma keeps_app (ex : list loc) (h ext : heap) : keeps ex h (h ++ ext).
Proof. intros l o H _. now apply nth_error_app_Some. Qed.

Lemma keeps_upd (ex : list loc) (h : heap) (l : loc) (o : hobj) :
  In l ex -> keeps ex h (upd l o h).
Proof.
  intros Hin l' o' H Hn. rewrite nth_error_upd_other; [exact H|].
  intros ->. now apply Hn.
Qed.

Lemma framesAt_bind {A B} (ex : list loc) (m : M A) (k : A -> M B) (h : heap) :
  framesAt ex m h ->
  (forall a h', m h = Done a h' -> framesAt ex (k a) h') ->
  framesAt ex (bindM m k) h.
Proof.
  unfold framesAt, bindM. intros Hm Hk.
  destruct (m h) as [a h'| h' |]; [|exact Hm|exact I].
  specialize (Hk a h' eq_refl).
  destruct (k a h') as [b h''| h'' |]; [| |exact I];
    eapply keeps_trans; eassumption.
Qed.

Lemma frames_bind {A B} (ex : list loc) (m : M A) (k : A -> M B) :
  frames ex m -> (forall a, frames ex (k a)) -> frames ex (bindM m k).
Proof.
  intros Hm Hk h. apply framesAt_bind; [apply Hm|]. intros a h' _. apply Hk.
Qed.

Lemma frames_ret {A} (ex : list loc) (a : A) : frames ex (ret a).
Proof. intros h. apply keeps_refl. Qed.

Lemma frames_raise {A} (ex : list loc) : frames ex (@raise A).
Proof. intros h. apply keeps_refl. Qed.

Lemma frames_untyped {A} (ex : list loc) : frames ex (@untyped A).
Proof. intros h. exact I. Qed.

Lemma frames_alloc (ex : list loc) (o : hobj) : frames ex (alloc o).
Proof. intros h. apply keeps_app. Qed.

Lemma frames_load (ex : list loc) (l : loc) : frames ex (load l).
Proof.
  intros h. unfold framesAt, load. destruct (nth_error h l); [apply keeps_refl|exact I].
Qed.

Lemma frames_store (ex : list loc) (l : loc) (o : hobj) :
  In l ex -> frames ex (store l o).
Proof.
  intros Hin h. unfold framesAt, store.
  destruct (nth_error h l); [now apply keeps_upd|exact I].
Qed.

Lemma frames_loadRecord (ex : list loc) (l : loc) : frames ex (loadRecord l).
Proof.
  apply frames_bind; [apply frames_load|].
  intros [r|ss|ls|ps]; first [apply frames_ret|apply frames_untyped].
Qed.

Lemma frames_loadArray (ex : list loc) (l : loc) : frames ex (loadArray l).
Proof.
  apply frames_bind; [apply frames_load|].
  intros [r|ss|ls|ps]; first [apply frames_ret|apply frames_untyped].
Qed.

Lemma frames_loadObject (ex : list loc) (l : loc) : frames ex (loadObject l).
Proof.
  apply frames_bind; [apply frames_load|].
  intros [r|ss|ls|ps]; first [apply frames_ret|apply frames_untyped].
Qed.

Lemma frames_field (ex : list loc) (o : obj loc) (k : string) : frames ex (field o k).
Proof.
  unfold field. destruct (own o k); [apply frames_ret|apply frames_untyped].
Qed.

Lemma frames_liftResult {A} (ex : list loc) (r : result A) : frames ex (liftResult r).
Proof. destruct r; [apply frames_ret|apply frames_raise]. Qed.

Lemma frames_forM {A B} (ex : list loc) (f : A -> M B) (xs : list A) :
  (forall x, frames ex (f x)) -> frames ex (forM f xs).
Proof.
  intros Hf. induction xs as [|x xs IH]; simpl; [apply frames_ret|].
  apply frames_bind; [apply Hf|]. intros y.
  apply frames_bind; [exact IH|]. intros ys. apply frames_ret.
Qed.

Lemma frames_keepM (ex : list loc) (f : record -> bool) (ls : list loc) :
  frames ex (keepM f ls).
Proof.
  induction ls as [|l ls IH]; simpl; [apply frames_ret|].
  apply frames_bind; [apply frames_loadRecord|]. intros r.
  apply frames_bind; [exact IH|]. intros rest. apply frames_ret.
Qed.

Create HintDb frames.
#[local] Hint Resolve frames_ret frames_raise frames_untyped frames_alloc
  frames_load frames_loadRecord frames_loadArray frames_loadObject
  frames_field frames_liftResult frames_keepM : frames.

Lemma frames_rowFilterH (ex : list loc) (js : option (list string))
                        (prevName : string) (cells : obj loc) :
  frames ex (rowFilterH js prevName cells).
Proof.
  unfold rowFilterH. destruct (own cells prevName) as [l|].
  - apply frames_bind; [auto with frames|].
    intros [r|ss|ls|ps]; auto with frames.
    apply frames_bind; [apply frames_forM; auto with frames|].
    intros rs. auto with frames.
  - destruct js as [[|j js]|]; auto with frames.
Qed.

(** A merged row is built by allocation alone: no object is modified. *)
Lemma frames_mergeRowH (ex : list loc) (prev q : sheetQueryH) (rowLoc : loc) :
  frames ex (mergeRowH prev q rowLoc).
Proof.
  unfold mergeRowH.
  apply frames_bind; [auto with frames|]. intros cells.
  apply frames_bind; [apply frames_rowFilterH|]. intros filter.
  apply frames_bind; [auto with frames|]. intros sheetO.
  apply frames_bind; [auto with frames|]. intros sheetRows.
  apply frames_bind; [auto with frames|]. intros candidates.
  apply frames_bind; [auto with frames|]. intros kept.
  apply frames_bind; [auto with frames|]. intros matched.
  auto with frames.
Qed.

Lemma bindM_Done {A B} (m : M A) (k : A -> M B) (h h'' : heap) (b : B) :
  bindM m k h = Done b h'' ->
  exists a h', m h = Done a h' /\ k a h' = Done b h''.
Proof.
  unfold bindM. destruct (m h) as [a h'| h' |]; try discriminate.
  intros H. now exists a, h'.
Qed.

Lemma load_Done (l : loc) (h h' : heap) (o : hobj) :
  load l h = Done o h' -> h' = h /\ nth_error h l = Some o.
Proof.
  unfold load. destruct (nth_error h l) as [o'|]; [|discriminate].
  intros H. inversion H. auto.
Qed.

Lemma loadObject_Done (l : loc) (h h' : heap) (ps : obj loc) :
  loadObject l h = Done ps h' -> h' = h /\ nth_error h l = Some (HObject ps).
Proof.
  intros H. apply bindM_Done in H as (o & h1 & Hl & Hk).
  apply load_Done in Hl as (-> & Hl).
  destruct o; try discriminate. inversion Hk; subst. auto.
Qed.

Lemma field_Done (o : obj loc) (k : string) (h h' : heap) (l : loc) :
  field o k h = Done l h' -> h' = h /\ own o k = Some l.
Proof.
  unfold field. destruct (own o k) as [l'|]; [|discriminate].
  intros H. inversion H. auto.
Qed.

Lemma store_Done (l : loc) (o : hobj) (h h' : heap) (u : unit) :
  store l o h = Done u h' -> h' = upd l o h /\ l < length h.
Proof.
  unfold store. destruct (nth_error h l) as [o'|] eqn:E; [|discriminate].
  intros H. inversion H. split; [reflexivity|]. eapply nth_error_Some_lt; eauto.
Qed.

Lemma own_assign_other {V} (o : obj V) (k k' : string) (v : V) :
  k <> k' -> own (assign o k v) k' = own o k'.
Proof.
  intros Hne. unfold assign. destruct (own o k).
  - now apply own_define_other.
  - destruct (String.eqb k "__proto__"); [reflexivity|now apply own_define_other].
Qed.

Lemma frames_stepRowsH (ex : list loc) (accLoc : loc)
                       (prevSheet : option sheetQueryH) (q : sheetQueryH) :
  frames ex (stepRowsH accLoc prevSheet q).
Proof.
  unfold stepRowsH. destruct prevSheet as [prev|].
  - apply frames_bind; [auto with frames|]. intros acc.
    apply frames_bind; [auto with frames|]. intros accRows.
    apply frames_bind; [auto with frames|]. intros rowLocs.
    apply frames_bind; [apply frames_forM; intros; apply frames_mergeRowH|].
    intros newRows. auto with frames.
  - apply frames_bind; [auto with frames|]. intros sheetO.
    apply frames_bind; [auto with frames|]. intros sheetRows.
    apply frames_bind; [auto with frames|]. intros records.
    apply frames_bind; [apply frames_forM; intros; auto with frames|].
    intros newRows. auto with frames.
Qed.

(** One step of the fold assigns to the accumulator and to its [headers]
    object, and to nothing else: the Tables, the Records and the merged rows
    of the steps before are left as they are, also when the step throws. *)
Lemma mergeStepH_frames (la lh : loc) (prevSheet : option sheetQueryH)
                        (q : sheetQueryH) (h : heap) (ps : obj loc) :
  nth_error h la = Some (HObject ps) ->
  own ps "headers" = Some lh ->
  framesAt [la; lh] (mergeStepH la prevSheet q) h.
Proof.
  intros Hla Hlh. unfold mergeStepH.
  apply framesAt_bind; [apply frames_loadObject|]. intros acc h1 H1.
  apply loadObject_Done in H1 as (-> & Hacc).
  rewrite Hla in Hacc. inversion Hacc; subst acc; clear Hacc.
  apply framesAt_bind; [apply frames_field|]. intros ah h1 H1.
  apply field_Done in H1 as (-> & Hah).
  rewrite Hlh in Hah. inversion Hah; subst ah; clear Hah.
  apply framesAt_bind; [apply frames_loadObject|]. intros sheetO h1 _.
  apply framesAt_bind; [apply frames_field|]. intros sh h2 _.
  apply framesAt_bind; [apply frames_loadObject|]. intros hprops h3 _.
  apply framesAt_bind; [apply frames_store; right; left; reflexivity|].
  intros u h4 _.
  apply framesAt_bind; [apply frames_stepRowsH|]. intros rowsLoc h5 _.
  apply framesAt_bind; [apply frames_loadObject|]. intros acc' h6 _.
  apply frames_store. left. reflexivity.
Qed.

(** After a step that ends normally the accumulator is still an object
    whose [headers] is the same object. *)
Lemma mergeStepH_acc (la lh : loc) (prevSheet : option sheetQueryH)
                     (q : sheetQueryH) (h h' : heap) (ps : obj loc) :
  nth_error h la = Some (HObject ps) ->
  own ps "headers" = Some lh ->
  la <> lh ->
  mergeStepH la prevSheet q h = Done tt h' ->
  exists ps', nth_error h' la = Some (HObject ps') /\ own ps' "headers" = Some lh.
Proof.
  intros Hla Hlh Hne H. unfold mergeStepH in H.
  apply bindM_Done in H as (acc & h1 & H1 & H).
  apply loadObject_Done in H1 as (-> & Hacc).
  rewrite Hla in Hacc. inversion Hacc; subst acc; clear Hacc.
  apply bindM_Done in H as (ah & h1 & H1 & H).
  apply field_Done in H1 as (-> & Hah).
  rewrite Hlh in Hah. inversion Hah; subst ah; clear Hah.
  apply bindM_Done in H as (sheetO & h1 & H1 & H).
  apply loadObject_Done in H1 as (-> & _).
  apply bindM_Done in H as (sh & h1 & H1 & H).
  apply field_Done in H1 as (-> & _).
  apply bindM_Done in H as (hprops & h1 & H1 & H).
  apply loadObject_Done in H1 as (-> & _).
  apply bindM_Done in H as (u & h1 & H1 & H).
  apply store_Done in H1 as (-> & _).
  apply bindM_Done in H as (rowsLoc & h2 & H2 & H).
  apply bindM_Done in H as (acc' & h3 & H3 & H).
  apply loadObject_Done in H3 as (-> & Hacc').
  apply store_Done in H as (-> & Hlt).
  pose proof (frames_stepRowsH [] la prevSheet q
                (upd lh (HObject (assign hprops (nameH q) sh)) h)) as Hk.
  unfold framesAt in Hk. rewrite H2 in Hk.
  assert (Hla2 : nth_error h2 la = Some (HObject ps)).
  { apply Hk; [|intros []]. rewrite nth_error_upd_other by congruence. exact Hla. }
  rewrite Hla2 in Hacc'. inversion Hacc'; subst acc'; clear Hacc'.
  eexists. split; [eapply nth_error_upd_same; exact Hla2|].
  rewrite own_assign_other by discriminate. exact Hlh.
Qed.

Lemma reduceH_frames (la lh : loc) (qs : list sheetQueryH) :
  forall (prevSheet : option sheetQueryH) (h : heap) (ps : obj loc),
    nth_error h la = Some (HObject ps) ->
    own ps "headers" = Some lh ->
    la <> lh ->
    framesAt [la; lh] (reduceH la prevSheet qs) h.
Proof.
  induction qs as [|q qs IH]; intros prevSheet h ps Hla Hlh Hne; simpl.
  - apply keeps_refl.
  - apply framesAt_bind; [eapply mergeStepH_frames; eassumption|].
    intros [] h' Hstep.
    destruct (mergeStepH_acc _ _ _ Hla Hlh Hne Hstep) as (ps' & Hla' & Hlh').
    eapply IH; eassumption.
Qed.

(** Whatever the store and the steps, a run of the merger that ends,
    normally or by a throw, has modified no object that was there when it
    started. *)
Lemma mergeSheetsH_frames (qs : list sheetQueryH) : frames [] (mergeSheetsH qs).
Proof.
  intros h. unfold framesAt, mergeSheetsH, bindM, alloc, ret. cbv beta.
  match goal with
  | |- context [reduceH ?a None qs ?hh] =>
      remember a as la eqn:Ela; remember hh as h3 eqn:Eh3
  end.
  set (lh := length h) in *.
  assert (Hla : nth_error h3 la
                = Some (HObject [("headers", lh); ("rows", length (h ++ [HObject []]))])).
  { subst la h3. apply nth_error_app_new. }
  assert (Hne : la <> lh).
  { subst la lh. rewrite !length_app. simpl. lia. }
  pose proof (@reduceH_frames la lh qs None h3 _ Hla eq_refl Hne) as Hk.
  unfold framesAt in Hk.
  assert (Hbase : forall h', keeps [la; lh] h3 h' -> keeps [] h h').
  { intros h' Hk' l o Hl _. pose proof (nth_error_Some_lt _ _ Hl) as Hlt.
    apply Hk'.
    - subst h3. now do 3 apply nth_error_app_Some.
    - subst la lh. rewrite !length_app. simpl. intros [E|[E|[]]]; lia. }
  destruct (reduceH la None qs h3) as [[] h'| h' |]; auto.
Qed.

(** * The merger on a heap: what it computes *)

Lemma traverse_impl {A B} (f g : A -> option B) (xs : list A) :
  forall ys,
    (forall x y, In x xs -> f x = Some y -> g x = Some y) ->
    traverse f xs = Some ys -> traverse g xs = Some ys.
Proof.
  induction xs as [|x xs IH]; intros ys Hfg H; simpl in *; [exact H|].
  destruct (f x) as [y|] eqn:Hx; [|discriminate].
  destruct (traverse f xs) as [ys'|] eqn:Hxs; [|discriminate].
  rewrite (Hfg x y (or_introl eq_refl) Hx).
  rewrite (IH ys'); [exact H| |reflexivity].
  intros z w Hz. apply Hfg. now right.
Qed.

Lemma traverse_app {A B} (f : A -> option B) (xs1 xs2 : list A) (ys1 ys2 : list B) :
  traverse f xs1 = Some ys1 -> traverse f xs2 = Some ys2 ->
  traverse f (xs1 ++ xs2) = Some (ys1 ++ ys2).
Proof.
  revert ys1. induction xs1 as [|x xs1 IH]; intros ys1 H1 H2; simpl in *.
  - inversion H1. exact H2.
  - destruct (f x) as [y|]; [|discriminate].
    destruct (traverse f xs1) as [ys|]; [|discriminate].
    inversion H1; subst. now rewrite (IH ys eq_refl H2).
Qed.

Lemma own_traverseObj {A B} (f : A -> option B) (o : obj A) :
  forall o' k,
    traverseObj f o = Some o' ->
    own o' k = match own o k with Some a => f a | None => None end.
Proof.
  unfold traverseObj.
  induction o as [|[k0 a] o IH]; intros o' k H; simpl in H.
  - inversion H. reflexivity.
  - destruct (f a) as [b|] eqn:Ha; simpl in H; [|discriminate].
    destruct (traverse _ o) as [o1|] eqn:Ho; [|discriminate].
    inversion H; subst. simpl.
    destruct (String.eqb k0 k); [now rewrite Ha|now apply IH].
Qed.

Lemma traverseObj_define {A B} (f : A -> option B) (o : obj A) (k : string) (a : A) (b : B) :
  forall o',
    traverseObj f o = Some o' -> f a = Some b ->
    traverseObj f (define o k a) = Some (define o' k b).
Proof.
  unfold traverseObj.
  induction o as [|[k0 a0] o IH]; intros o' H Ha; simpl in H.
  - inversion H. simpl. now rewrite Ha.
  - destruct (f a0) as [b0|] eqn:Ha0; simpl in H; [|discriminate].
    destruct (traverse _ o) as [o1|] eqn:Ho; [|discriminate].
    inversion H; subst. simpl.
    destruct (String.eqb k0 k); simpl.
    + now rewrite Ha, Ho.
    + now rewrite Ha0, (IH o1 eq_refl Ha).
Qed.

Lemma traverseObj_assign {A B} (f : A -> option B) (o : obj A) (k : string) (a : A) (b : B) :
  forall o',
    traverseObj f o = Some o' -> f a = Some b ->
    traverseObj f (assign o k a) = Some (assign o' k b).
Proof.
  intros o' H Ha. unfold assign. rewrite (@own_traverseObj _ _ f o o' k H).
  destruct (own o k) as [a0|] eqn:E.
  - assert (Hf : exists b0, f a0 = Some b0).
    { revert o' H E. unfold traverseObj.
      induction o as [|[k0 a1] o IH]; intros o' H E; simpl in *; [discriminate|].
      destruct (f a1) as [b1|] eqn:Ha1; simpl in H; [|discriminate].
      destruct (traverse _ o) as [o1|] eqn:Ho; [|discriminate].
      destruct (String.eqb k0 k).
      - inversion E; subst. now exists b1.
      - now apply (IH o1). }
    destruct Hf as (b0 & ->). now apply traverseObj_define.
  - destruct (String.eqb k "__proto__"); [exact H|now apply traverseObj_define].
Qed.

Section Stable.
Variables (ex : list loc) (h h' : heap).
Hypothesis Hkeeps : keeps ex h h'.
Hypothesis Hobjects : objectsAt ex h.

Lemma keeps_other (l : loc) (o : hobj) :
  nth_error h l = Some o -> (forall ps, o <> HObject ps) -> nth_error h' l = Some o.
Proof.
  intros H Hno. apply Hkeeps; [exact H|].
  intros Hin. destruct (Hobjects _ Hin) as (ps & Hps).
  rewrite H in Hps. inversion Hps. now apply (Hno ps).
Qed.

Lemma readRecord_keeps (l : loc) (r : record) :
  readRecord h l = Some r -> readRecord h' l = Some r.
Proof.
  unfold readRecord. destruct (nth_error h l) as [[r0|ss|ls|ps]|] eqn:E;
    try discriminate.
  intros H. rewrite (@keeps_other _ _ E); [exact H|discriminate].
Qed.

Lemma readStrings_keeps (l : loc) (ss : list string) :
  readStrings h l = Some ss -> readStrings h' l = Some ss.
Proof.
  unfold readStrings. destruct (nth_error h l) as [[r0|ss0|ls|ps]|] eqn:E;
    try discriminate.
  intros H. rewrite (@keeps_other _ _ E); [exact H|discriminate].
Qed.

Lemma traverse_readRecord_keeps (ls : list loc) (rs : list record) :
  traverse (readRecord h) ls = Some rs -> traverse (readRecord h') ls = Some rs.
Proof.
  apply traverse_impl. intros l r _. apply readRecord_keeps.
Qed.

Lemma readRecords_keeps (l : loc) (rs : list record) :
  readRecords h l = Some rs -> readRecords h' l = Some rs.
Proof.
  unfold readRecords. destruct (nth_error h l) as [[r0|ss0|ls|ps]|] eqn:E;
    try discriminate.
  intros H. rewrite (@keeps_other _ _ E); [|discriminate].
  now apply traverse_readRecord_keeps.
Qed.

Lemma readCell_keeps (l : loc) (c : cell) :
  readCell h l = Some c -> readCell h' l = Some c.
Proof.
  unfold readCell. destruct (nth_error h l) as [[r0|ss0|ls|ps]|] eqn:E;
    try discriminate; intros H; rewrite (@keeps_other _ _ E); try discriminate.
  - exact H.
  - destruct (traverse (readRecord h) ls) as [rs|] eqn:Hrs; [|discriminate].
    now rewrite (@traverse_readRecord_keeps _ _ Hrs).
Qed.

Lemma traverseObj_impl {A B} (f g : A -> option B) (o : obj A) (o' : obj B) :
  (forall a b, f a = Some b -> g a = Some b) ->
  traverseObj f o = Some o' -> traverseObj g o = Some o'.
Proof.
  intros Hfg. unfold traverseObj. apply traverse_impl.
  intros [k a] [k' b] _. simpl.
  destruct (f a) as [b0|] eqn:E; [|discriminate].
  now rewrite (Hfg a b0 E).
Qed.

Lemma readRow_keeps (l : loc) (row : mergedRow) :
  ~ In l ex -> readRow h l = Some row -> readRow h' l = Some row.
Proof.
  intros Hn. unfold readRow.
  destruct (nth_error h l) as [[r0|ss0|ls|ps]|] eqn:E; try discriminate.
  intros H. rewrite (Hkeeps _ E Hn).
  revert H. apply traverseObj_impl. apply readCell_keeps.
Qed.

Lemma traverse_readRow_keeps (ls : list loc) (rs : list mergedRow) :
  (forall l, In l ls -> ~ In l ex) ->
  traverse (readRow h) ls = Some rs -> traverse (readRow h') ls = Some rs.
Proof.
  intros Hn. apply traverse_impl. intros l r Hl. apply readRow_keeps. now apply Hn.
Qed.

Lemma readTable_keeps (l : loc) (t : sheetT) :
  ~ In l ex -> readTable h l = Some t -> readTable h' l = Some t.
Proof.
  intros Hn. unfold readTable.
  destruct (nth_error h l) as [[r0|ss0|ls|ps]|] eqn:E; try discriminate.
  rewrite (Hkeeps _ E Hn).
  destruct (own ps "headers") as [lh|]; [|discriminate].
  destruct (own ps "rows") as [lr|]; [|discriminate].
  destruct (readStrings h lh) as [hs|] eqn:Hhs; [|discriminate].
  destruct (readRecords h lr) as [rs|] eqn:Hrs; [|discriminate].
  now rewrite (@readStrings_keeps _ _ Hhs), (@readRecords_keeps _ _ Hrs).
Qed.

Lemma readQuery_keeps (q : sheetQueryH) (q' : sheetQuery) :
  ~ In (sheetH q) ex -> readQuery h q = Some q' -> readQuery h' q = Some q'.
Proof.
  intros Hn. unfold readQuery.
  destruct (readTable h (sheetH q)) as [t|] eqn:E; [|discriminate].
  now rewrite (@readTable_keeps _ _ Hn E).
Qed.
End Stable.

Lemma run_bind {A B} (m : M A) (k : A -> M B) (h h' : heap) (a : A) :
  m h = Done a h' -> bindM m k h = k a h'.
Proof. intros H. unfold bindM. now rewrite H. Qed.

Lemma run_bind_Raise {A B} (m : M A) (k : A -> M B) (h h' : heap) :
  m h = Raise h' -> bindM m k h = Raise h'.
Proof. intros H. unfold bindM. now rewrite H. Qed.

Ltac run_with H := erewrite (@run_bind _ _ _ _ _ _ _ H).

Lemma run_load (h : heap) (l : loc) (o : hobj) :
  nth_error h l = Some o -> load l h = Done o h.
Proof. intros H. unfold load. now rewrite H. Qed.

Lemma run_loadObject (h : heap) (l : loc) (ps : obj loc) :
  nth_error h l = Some (HObject ps) -> loadObject l h = Done ps h.
Proof. intros H. unfold loadObject. run_with (@run_load _ _ _ H). reflexivity. Qed.

Lemma run_loadArray (h : heap) (l : loc) (ls : list loc) :
  nth_error h l = Some (HArray ls) -> loadArray l h = Done ls h.
Proof. intros H. unfold loadArray. run_with (@run_load _ _ _ H). reflexivity. Qed.

Lemma run_loadRecord (h : heap) (l : loc) (r : record) :
  readRecord h l = Some r -> loadRecord l h = Done r h.
Proof.
  unfold readRecord. destruct (nth_error h l) as [[r0|ss|ls|ps]|] eqn:E;
    try discriminate.
  intros H. inversion H; subst. unfold loadRecord.
  run_with (@run_load _ _ _ E). reflexivity.
Qed.

Lemma run_field (h : heap) (o : obj loc) (k : string) (l : loc) :
  own o k = Some l -> field o k h = Done l h.
Proof. intros H. unfold field. now rewrite H. Qed.

Lemma run_store (h : heap) (l : loc) (o o0 : hobj) :
  nth_error h l = Some o0 -> store l o h = Done tt (upd l o h).
Proof. intros H. unfold store. now rewrite H. Qed.

Lemma run_forM_loadRecord (h : heap) (ls : list loc) :
  forall rs, traverse (readRecord h) ls = Some rs -> forM loadRecord ls h = Done rs h.
Proof.
  induction ls as [|l ls IH]; intros rs H; simpl in *.
  - now inversion H.
  - destruct (readRecord h l) as [r|] eqn:Hr; [|discriminate].
    destruct (traverse (readRecord h) ls) as [rs'|] eqn:Hrs; [|discriminate].
    inversion H; subst.
    run_with (@run_loadRecord _ _ _ Hr).
    run_with (IH _ eq_refl). reflexivity.
Qed.

Lemma run_keepM (f : record -> bool) (h : heap) (ls : list loc) :
  forall rs,
    traverse (readRecord h) ls = Some rs ->
    exists kept, keepM f ls h = Done kept h
                 /\ traverse (readRecord h) kept = Some (List.filter f rs).
Proof.
  induction ls as [|l ls IH]; intros rs H; simpl in *.
  - inversion H. now exists [].
  - destruct (readRecord h l) as [r|] eqn:Hr; [|discriminate].
    destruct (traverse (readRecord h) ls) as [rs'|] eqn:Hrs; [|discriminate].
    inversion H; subst.
    destruct (IH _ eq_refl) as (kept & Hrun & Hkept).
    run_with (@run_loadRecord _ _ _ Hr).
    run_with Hrun. cbn [ret].
    cbn [List.filter]. destruct (f r).
    + exists (l :: kept). split; [reflexivity|]. simpl. now rewrite Hr, Hkept.
    + now exists kept.
Qed.

Lemma traverseObj_own_Some {A B} (f : A -> option B) (o : obj A) (k : string) (a : A) :
  forall o', traverseObj f o = Some o' -> own o k = Some a ->
             exists b, f a = Some b /\ own o' k = Some b.
Proof.
  intros o' H E. pose proof (@own_traverseObj _ _ f o o' k H) as Hown.
  rewrite E in Hown.
  assert (Hf : exists b, f a = Some b).
  { clear Hown. revert o' H E. unfold traverseObj.
    induction o as [|[k0 a1] o IH]; intros o' H E; simpl in H, E; [discriminate|].
    destruct (f a1) as [b1|] eqn:Ha1; simpl in H; [|discriminate].
    destruct (traverse _ o) as [o1|] eqn:Ho; [|discriminate].
    destruct (String.eqb k0 k).
    - inversion E; subst. now exists b1.
    - now apply (IH o1). }
  destruct Hf as (b & Hb). exists b. split; [exact Hb|]. now rewrite Hown.
Qed.

Lemma run_rowFilterH (h : heap) (js : option (list string)) (prevName : string)
                     (cells : obj loc) (row : mergedRow) :
  traverseObj (readCell h) cells = Some row ->
  rowFilterH js prevName cells h = liftResult (rowFilter js prevName row) h.
Proof.
  intros H. unfold rowFilterH, rowFilter.
  destruct (own cells prevName) as [l|] eqn:E.
  - destruct (@traverseObj_own_Some _ _ _ _ _ _ _ H E) as (c & Hc & ->).
    unfold readCell in Hc.
    destruct (nth_error h l) as [[r|ss|ls|ps]|] eqn:El; try discriminate.
    + inversion Hc; subst c. run_with (@run_load _ _ _ El). reflexivity.
    + destruct (traverse (readRecord h) ls) as [rs|] eqn:Hrs; [|discriminate].
      inversion Hc; subst c. run_with (@run_load _ _ _ El).
      run_with (@run_forM_loadRecord _ _ _ Hrs). reflexivity.
  - rewrite (@own_traverseObj _ _ _ _ _ prevName H), E.
    destruct js as [[|j js]|]; reflexivity.
Qed.

Lemma objectsAt_nil (h : heap) : objectsAt [] h.
Proof. intros x []. Qed.

Lemma run_alloc (o : hobj) (h : heap) : alloc o h = Done (length h) (h ++ [o]).
Proof. reflexivity. Qed.

Lemma readRow_inv (h : heap) (l : loc) (row : mergedRow) :
  readRow h l = Some row ->
  exists cells, nth_error h l = Some (HObject cells)
                /\ traverseObj (readCell h) cells = Some row.
Proof.
  unfold readRow. destruct (nth_error h l) as [[r|ss|ls|ps]|]; try discriminate.
  intros H. now exists ps.
Qed.

(** One merged row: the old row object is read, the match list and the new
    row are allocated, and the new row reads as the row [mergeRow] builds. *)
Lemma run_mergeRowH (h : heap) (prevH qH : sheetQueryH) (prev q : sheetQuery)
                    (ps : obj loc) (sr rowLoc : loc) (row : mergedRow)
                    (cands : list loc) :
  sameStep prevH prev -> nameH qH = name q ->
  readRow h rowLoc = Some row ->
  nth_error h (sheetH qH) = Some (HObject ps) ->
  own ps "rows" = Some sr ->
  nth_error h sr = Some (HArray cands) ->
  traverse (readRecord h) cands = Some (rows (sheet q)) ->
  match mergeRow prev q row with
  | Ok row' =>
      exists l' h',
        mergeRowH prevH qH rowLoc h = Done l' h'
        /\ keeps [] h h' /\ length h <= l' /\ length h <= length h'
        /\ readRow h' l' = Some row'
  | Throw => mergeRowH prevH qH rowLoc h = Raise h
  end.
Proof.
  intros (Hjs & Hpn) Hn Hrow Hs Hrowsf Hsr Hcands.
  apply readRow_inv in Hrow as (cells & Hl & Hcells).
  unfold mergeRowH, mergeRow.
  run_with (@run_loadObject _ _ _ Hl).
  pose proof (@run_rowFilterH h (joinsH prevH) (nameH prevH) cells row Hcells) as Hf.
  rewrite Hjs, Hpn in Hf. rewrite Hjs, Hpn.
  destruct (rowFilter (joins prev) (name prev) row) as [f|]; simpl in Hf |- *.
  - run_with Hf. run_with (@run_loadObject _ _ _ Hs).
    run_with (@run_field h _ _ _ Hrowsf). run_with (@run_loadArray _ _ _ Hsr).
    destruct (@run_keepM f h cands _ Hcands) as (kept & Hkeep & Hkept).
    run_with Hkeep. run_with (run_alloc (HArray kept) h).
    rewrite run_alloc.
    set (h1 := h ++ [HArray kept]).
    set (h2 := h1 ++ [HObject (define cells (nameH qH) (length h))]).
    assert (Hk1 : keeps [] h h1) by apply keeps_app.
    assert (Hk2 : keeps [] h h2).
    { eapply keeps_trans; [exact Hk1|apply keeps_app]. }
    exists (length h1), h2. split; [reflexivity|]. split; [exact Hk2|].
    split; [unfold h1; rewrite length_app; lia|].
    split; [unfold h2, h1; rewrite !length_app; lia|].
    unfold readRow. unfold h2 at 1. rewrite nth_error_app_new.
    rewrite <- Hn. apply traverseObj_define.
    + revert Hcells. apply traverseObj_impl.
      apply (@readCell_keeps [] h h2 Hk2 (objectsAt_nil h)).
    + unfold readCell.
      assert (E : nth_error h2 (length h) = Some (HArray kept)).
      { unfold h2. apply nth_error_app_Some. apply nth_error_app_new. }
      rewrite E.
      rewrite (@traverse_readRecord_keeps [] h h2 Hk2 (objectsAt_nil h) _ _ Hkept).
      reflexivity.
  - unfold bindM. now rewrite Hf.
Qed.

Lemma run_forM_mergeRowH (prevH qH : sheetQueryH) (prev q : sheetQuery)
                         (ps : obj loc) (sr : loc) (cands : list loc) :
  sameStep prevH prev -> nameH qH = name q ->
  own ps "rows" = Some sr ->
  forall (rl : list loc) (h : heap) (rs : list mergedRow),
    nth_error h (sheetH qH) = Some (HObject ps) ->
    nth_error h sr = Some (HArray cands) ->
    traverse (readRecord h) cands = Some (rows (sheet q)) ->
    traverse (readRow h) rl = Some rs ->
    match mapM (mergeRow prev q) rs with
    | Ok rs' =>
        exists newRows h',
          forM (mergeRowH prevH qH) rl h = Done newRows h'
          /\ keeps [] h h' /\ length h <= length h'
          /\ Forall (fun l => length h <= l) newRows
          /\ traverse (readRow h') newRows = Some rs'
    | Throw => exists h', forM (mergeRowH prevH qH) rl h = Raise h'
    end.
Proof.
  intros Hsame Hn Hrowsf.
  induction rl as [|l rl IH]; intros h rs Hs Hsr Hcands Hrl.
  - simpl in Hrl. inversion Hrl; subst. simpl.
    exists [], h. repeat split; auto using keeps_refl.
  - simpl in Hrl.
    destruct (readRow h l) as [row|] eqn:Hrow; [|discriminate].
    destruct (traverse (readRow h) rl) as [rs0|] eqn:Hrs0; [|discriminate].
    inversion Hrl; subst rs; clear Hrl.
    pose proof (@run_mergeRowH h prevH qH prev q ps sr l row cands
                  Hsame Hn Hrow Hs Hrowsf Hsr Hcands) as Hone.
    cbn [mapM forM].
    destruct (mergeRow prev q row) as [row'|].
    + destruct Hone as (l' & h1 & Hrun & Hk1 & Hl' & Hlen1 & Hrow').
      cbn [bind]. run_with Hrun.
      assert (Hs1 : nth_error h1 (sheetH qH) = Some (HObject ps)).
      { apply Hk1; [exact Hs|intros []]. }
      assert (Hsr1 : nth_error h1 sr = Some (HArray cands)).
      { apply Hk1; [exact Hsr|intros []]. }
      pose proof (@traverse_readRecord_keeps [] h h1 Hk1 (objectsAt_nil h) _ _ Hcands)
        as Hcands1.
      assert (Hrl1 : traverse (readRow h1) rl = Some rs0).
      { apply (@traverse_readRow_keeps [] h h1 Hk1 (objectsAt_nil h)); [|exact Hrs0].
        intros x _ []. }
      specialize (IH h1 rs0 Hs1 Hsr1 Hcands1 Hrl1).
      destruct (mapM (mergeRow prev q) rs0) as [rs'|].
      * destruct IH as (newRows & h2 & Hrun2 & Hk2 & Hlen2 & Hall & Hread).
        cbn [bind]. run_with Hrun2.
        exists (l' :: newRows), h2. split; [reflexivity|].
        split; [eapply keeps_trans; eassumption|]. split; [lia|]. split.
        -- constructor; [exact Hl'|].
           eapply Forall_impl; [|exact Hall]. cbv beta. intros x Hx. lia.
        -- simpl. rewrite Hread.
           rewrite (@readRow_keeps [] h1 h2 Hk2 (objectsAt_nil h1) l' row'
                      (fun x => x) Hrow').
           reflexivity.
      * destruct IH as (h2 & Hrun2). cbn [bind].
        exists h2. unfold bindM at 1. now rewrite Hrun2.
    + cbn [bind]. exists h. unfold bindM. now rewrite Hone.
Qed.

(** The rows of the first step: one new object per Record of the table,
    holding the Record by reference. *)
Lemma run_forM_seed (k : string) (cands : list loc) :
  forall (h : heap) (rs : list record),
    traverse (readRecord h) cands = Some rs ->
    exists newRows h',
      forM (fun r => alloc (HObject (define [] k r))) cands h = Done newRows h'
      /\ keeps [] h h' /\ length h <= length h'
      /\ Forall (fun l => length h <= l) newRows
      /\ traverse (readRow h') newRows
         = Some (map (fun r => define [] k (One r)) rs).
Proof.
  induction cands as [|c cands IH]; intros h rs Hrs; simpl in Hrs.
  - inversion Hrs; subst. exists [], h. repeat split; auto using keeps_refl.
  - destruct (readRecord h c) as [r|] eqn:Hr; [|discriminate].
    destruct (traverse (readRecord h) cands) as [rs0|] eqn:Hrs0; [|discriminate].
    inversion Hrs; subst rs; clear Hrs.
    cbn [forM]. run_with (run_alloc (HObject (define [] k c)) h).
    set (h1 := h ++ [HObject (define [] k c)]).
    assert (Hk1 : keeps [] h h1) by apply keeps_app.
    pose proof (@traverse_readRecord_keeps [] h h1 Hk1 (objectsAt_nil h) _ _ Hrs0)
      as Hrs1.
    destruct (IH h1 rs0 Hrs1) as (newRows & h2 & Hrun & Hk2 & Hlen & Hall & Hread).
    run_with Hrun.
    exists (length h :: newRows), h2. split; [reflexivity|].
    split; [eapply keeps_trans; eassumption|].
    assert (Hlen1 : length h1 = S (length h)).
    { unfold h1. rewrite length_app. simpl. lia. }
    split; [lia|]. split.
    + constructor; [lia|].
      eapply Forall_impl; [|exact Hall]. cbv beta. intros x Hx. lia.
    + cbn [traverse map]. rewrite Hread.
      assert (Hnew : readRow h1 (length h) = Some (define [] k (One r))).
      { unfold readRow, h1. rewrite nth_error_app_new.
        apply traverseObj_define; [reflexivity|].
        apply (@readCell_keeps [] h _ Hk1 (objectsAt_nil h)).
        unfold readCell. unfold readRecord in Hr.
        destruct (nth_error h c) as [[r0|ss|ls|ps]|]; try discriminate.
        now inversion Hr. }
      rewrite (@readRow_keeps [] h1 h2 Hk2 (objectsAt_nil h1) _ _ (fun x => x) Hnew).
      reflexivity.
Qed.

Lemma Forall_not_In (n : nat) (ls : list loc) (l : loc) :
  Forall (fun x => n <= x) ls -> l < n -> ~ In l ls.
Proof.
  intros Hall Hl Hin. rewrite Forall_forall in Hall. specialize (Hall _ Hin). lia.
Qed.

(** The end of a step: the array of the new rows is allocated and assigned
    to [acc.rows]. *)
Lemma accAt_finish (la lh lr : loc) (h1 hX : heap) (hp : obj loc)
                   (newRows : list loc) (hdrs : obj (list string))
                   (rs : list mergedRow) :
  nth_error h1 la = Some (HObject [("headers", lh); ("rows", lr)]) ->
  nth_error h1 lh = Some (HObject hp) ->
  la <> lh ->
  keeps [] h1 hX -> length h1 <= length hX ->
  Forall (fun l => length h1 <= l) newRows ->
  traverse (readRow hX) newRows = Some rs ->
  traverseObj (readStrings h1) hp = Some hdrs ->
  accAt la lh
    (upd la (HObject [("headers", lh); ("rows", length hX)]) (hX ++ [HArray newRows]))
    (mkMerged hdrs rs).
Proof.
  intros Hla Hlh Hne Hk Hlen Hall Hread Hhdr.
  set (h2 := hX ++ [HArray newRows]).
  set (h3 := upd la (HObject [("headers", lh); ("rows", length hX)]) h2).
  pose proof (nth_error_Some_lt _ _ Hla) as Hla_lt.
  pose proof (nth_error_Some_lt _ _ Hlh) as Hlh_lt.
  assert (Hk2 : keeps [] h1 h2).
  { eapply keeps_trans; [exact Hk|apply keeps_app]. }
  assert (Hk3 : keeps [la] h1 h3).
  { eapply keeps_trans; [eapply keeps_incl; [|exact Hk2]; intros x []|].
    apply keeps_upd. now left. }
  assert (Ho1 : objectsAt [la] h1).
  { intros x [<-|[]]. eauto. }
  assert (HkX : keeps [la] hX h3).
  { eapply keeps_trans; [apply keeps_app|]. apply keeps_upd. now left. }
  assert (HoX : objectsAt [la] hX).
  { intros x [<-|[]]. eexists. apply Hk; [exact Hla|intros []]. }
  exists (length hX), hp, newRows.
  split. { unfold h3. eapply nth_error_upd_same. apply Hk2; [exact Hla|intros []]. }
  split. { apply Hk3; [exact Hlh|]. intros [E|[]]. congruence. }
  split. { unfold h3. rewrite nth_error_upd_other by lia. apply nth_error_app_new. }
  split. { revert Hhdr. apply traverseObj_impl.
           apply (@readStrings_keeps [la] h1 h3 Hk3 Ho1). }
  split. { apply (@traverse_readRow_keeps [la] hX h3 HkX HoX); [|exact Hread].
           intros l Hl [<-|[]]. revert Hl. apply (Forall_not_In Hall Hla_lt). }
  split; [exact Hne|].
  split; [apply (Forall_not_In Hall Hla_lt)|apply (Forall_not_In Hall Hlh_lt)].
Qed.

(** One step of the fold in the store does what [mergeStep] does on
    values. *)
Lemma run_mergeStepH (la lh : loc) (h : heap) (acc : mergedSheet)
                     (prevH : option sheetQueryH) (prev : option sheetQuery)
                     (qH : sheetQueryH) (q : sheetQuery) :
  accAt la lh h acc ->
  samePrev prevH prev ->
  readQuery h qH = Some q ->
  sheetH qH <> la -> sheetH qH <> lh ->
  match mergeStep (acc, prev) q with
  | Ok st =>
      exists h', mergeStepH la prevH qH h = Done tt h'
                 /\ accAt la lh h' (fst st) /\ snd st = Some q
                 /\ length h <= length h'
  | Throw => exists h', mergeStepH la prevH qH h = Raise h'
  end.
Proof.
  intros (lr & hp & rl & Hla & Hlh & Hlr & Hhdr & Hrows & Hne & Hnla & Hnlh)
         Hprev Hq Hsla Hslh.
  unfold readQuery in Hq.
  destruct (readTable h (sheetH qH)) as [t|] eqn:Ht; [|discriminate].
  simpl in Hq. inversion Hq; subst q; clear Hq.
  unfold readTable in Ht.
  destruct (nth_error h (sheetH qH)) as [[r0|ss0|ls0|ps]|] eqn:Hs; try discriminate.
  destruct (own ps "headers") as [a|] eqn:Ea; [|discriminate].
  destruct (own ps "rows") as [sr|] eqn:Esr; [|discriminate].
  destruct (readStrings h a) as [hs|] eqn:Hhs; [|discriminate].
  destruct (readRecords h sr) as [recs|] eqn:Hrecs; [|discriminate].
  inversion Ht; subst t; clear Ht.
  unfold readRecords in Hrecs.
  destruct (nth_error h sr) as [[r0|ss0|cands|ps0]|] eqn:Hsr; try discriminate.
  unfold mergeStepH.
  run_with (@run_loadObject _ _ _ Hla).
  run_with (@run_field h [("headers", lh); ("rows", lr)] "headers" lh eq_refl).
  run_with (@run_loadObject _ _ _ Hs). run_with (@run_field h _ _ _ Ea).
  run_with (@run_loadObject _ _ _ Hlh).
  run_with (@run_store h lh (HObject (assign hp (nameH qH) a)) _ Hlh).
  set (h1 := upd lh (HObject (assign hp (nameH qH) a)) h).
  assert (Hk1 : keeps [lh] h h1) by (apply keeps_upd; now left).
  assert (Ho1 : objectsAt [lh] h) by (intros x [<-|[]]; eauto).
  assert (Hlen1 : length h1 = length h) by apply length_upd.
  assert (Hla1 : nth_error h1 la = Some (HObject [("headers", lh); ("rows", lr)])).
  { apply Hk1; [exact Hla|]. intros [E|[]]. congruence. }
  assert (Hlh1 : nth_error h1 lh = Some (HObject (assign hp (nameH qH) a))).
  { eapply nth_error_upd_same. exact Hlh. }
  assert (Hs1 : nth_error h1 (sheetH qH) = Some (HObject ps)).
  { apply Hk1; [exact Hs|]. intros [E|[]]. congruence. }
  assert (Hsr1 : nth_error h1 sr = Some (HArray cands)).
  { apply (@keeps_other [lh] h h1 Hk1 Ho1 _ _ Hsr). discriminate. }
  assert (Hlr1 : nth_error h1 lr = Some (HArray rl)).
  { apply (@keeps_other [lh] h h1 Hk1 Ho1 _ _ Hlr). discriminate. }
  pose proof (@traverse_readRecord_keeps [lh] h h1 Hk1 Ho1 _ _ Hrecs) as Hcands1.
  assert (Hrows1 : traverse (readRow h1) rl = Some (mergedRows acc)).
  { apply (@traverse_readRow_keeps [lh] h h1 Hk1 Ho1); [|exact Hrows].
    intros l Hl [<-|[]]. contradiction. }
  assert (Hhdr1 : traverseObj (readStrings h1) (assign hp (nameH qH) a)
                  = Some (assign (mergedHeaders acc) (nameH qH) hs)).
  { apply traverseObj_assign.
    - revert Hhdr. apply traverseObj_impl.
      apply (@readStrings_keeps [lh] h h1 Hk1 Ho1).
    - apply (@readStrings_keeps [lh] h h1 Hk1 Ho1 _ _ Hhs). }
  unfold mergeStep. cbn [sheet name headers rows joins].
  destruct prevH as [pH|], prev as [p|]; simpl in Hprev; try contradiction.
  - (* a later step *)
    pose proof (@run_forM_mergeRowH pH qH p
                  (mkQuery (mkSheet hs recs) (joinsH qH) (nameH qH)) ps sr cands
                  Hprev eq_refl Esr rl h1 _ Hs1 Hsr1 Hcands1 Hrows1) as Hmap.
    destruct (mapM (mergeRow p (mkQuery (mkSheet hs recs) (joinsH qH) (nameH qH)))
                (mergedRows acc)) as [rs'|].
    + destruct Hmap as (newRows & hX & Hrun & HkX & HlenX & Hall & Hread).
      cbn [bind fst snd].
      exists (upd la (HObject [("headers", lh); ("rows", length hX)])
                (hX ++ [HArray newRows])).
      split.
      * erewrite run_bind.
        2:{ unfold stepRowsH. run_with (@run_loadObject _ _ _ Hla1).
            run_with (@run_field h1 [("headers", lh); ("rows", lr)] "rows" lr eq_refl).
            run_with (@run_loadArray _ _ _ Hlr1). run_with Hrun. apply run_alloc. }
        assert (Hla2 : nth_error (hX ++ [HArray newRows]) la
                       = Some (HObject [("headers", lh); ("rows", lr)])).
        { apply nth_error_app_Some. apply HkX; [exact Hla1|intros []]. }
        run_with (@run_loadObject _ _ _ Hla2).
        now rewrite (@run_store _ la _ _ Hla2).
      * split; [|split; [reflexivity|]].
        -- eapply (@accAt_finish la lh lr h1 hX); eassumption.
        -- rewrite length_upd, length_app. lia.
    + destruct Hmap as (hX & Hrun). cbn [bind]. exists hX.
      apply run_bind_Raise. unfold stepRowsH.
      run_with (@run_loadObject _ _ _ Hla1).
      run_with (@run_field h1 [("headers", lh); ("rows", lr)] "rows" lr eq_refl).
      run_with (@run_loadArray _ _ _ Hlr1). unfold bindM. now rewrite Hrun.
  - (* the first step *)
    destruct (@run_forM_seed (nameH qH) cands h1 recs Hcands1)
      as (newRows & hX & Hrun & HkX & HlenX & Hall & Hread).
    cbn [bind fst snd].
    exists (upd la (HObject [("headers", lh); ("rows", length hX)])
              (hX ++ [HArray newRows])).
    split.
    + erewrite run_bind.
      2:{ unfold stepRowsH. run_with (@run_loadObject _ _ _ Hs1).
          run_with (@run_field h1 _ _ _ Esr).
          run_with (@run_loadArray _ _ _ Hsr1). run_with Hrun. apply run_alloc. }
      assert (Hla2 : nth_error (hX ++ [HArray newRows]) la
                     = Some (HObject [("headers", lh); ("rows", lr)])).
      { apply nth_error_app_Some. apply HkX; [exact Hla1|intros []]. }
      run_with (@run_loadObject _ _ _ Hla2).
      now rewrite (@run_store _ la _ _ Hla2).
    + split; [|split; [reflexivity|]].
      * eapply (@accAt_finish la lh lr h1 hX); eassumption.
      * rewrite length_upd, length_app. lia.
Qed.

Lemma readQuery_sameStep (h : heap) (qH : sheetQueryH) (q : sheetQuery) :
  readQuery h qH = Some q -> sameStep qH q.
Proof.
  unfold readQuery. destruct (readTable h (sheetH qH)); [|discriminate].
  intros H. inversion H. now split.
Qed.

Lemma traverse_readQuery_keeps (h h' : heap) (qsH : list sheetQueryH)
                               (qs : list sheetQuery) :
  keeps [] h h' ->
  traverse (readQuery h) qsH = Some qs -> traverse (readQuery h') qsH = Some qs.
Proof.
  intros Hk. apply traverse_impl. intros qH q _.
  apply (@readQuery_keeps [] h h' Hk (objectsAt_nil h)). intros [].
Qed.

Lemma accAt_readMerged (la lh : loc) (h : heap) (m : mergedSheet) :
  accAt la lh h m -> readMerged h la = Some m.
Proof.
  intros (lr & hp & rl & Hla & Hlh & Hlr & Hhdr & Hrows & _).
  unfold readMerged. rewrite Hla.
  change (own [("headers", lh); ("rows", lr)] "headers") with (Some lh).
  change (own [("headers", lh); ("rows", lr)] "rows") with (Some lr).
  cbv iota beta. rewrite Hlh, Hlr, Hhdr, Hrows. now destruct m.
Qed.

Lemma readMerged_keeps (h h' : heap) (l : loc) (m : mergedSheet) :
  keeps [] h h' -> readMerged h l = Some m -> readMerged h' l = Some m.
Proof.
  intros Hk. unfold readMerged.
  destruct (nth_error h l) as [[r0|ss0|ls0|ps]|] eqn:El; try discriminate.
  rewrite (Hk _ _ El (fun x => x)).
  destruct (own ps "headers") as [lh|]; [|discriminate].
  destruct (own ps "rows") as [lr|]; [|discriminate].
  destruct (nth_error h lh) as [[r0|ss0|ls0|hp]|] eqn:Elh; try discriminate.
  destruct (nth_error h lr) as [[r0|ss0|rl|ps0]|] eqn:Elr; try discriminate.
  rewrite (Hk _ _ Elh (fun x => x)), (Hk _ _ Elr (fun x => x)).
  destruct (traverseObj (readStrings h) hp) as [hs|] eqn:Hhs; [|discriminate].
  destruct (traverse (readRow h) rl) as [rs|] eqn:Hrs; [|discriminate].
  intros H.
  rewrite (@traverseObj_impl _ _ (readStrings h) (readStrings h') hp hs
             (@readStrings_keeps [] h h' Hk (objectsAt_nil h)) Hhs).
  rewrite (@traverse_readRow_keeps [] h h' Hk (objectsAt_nil h) rl rs
             (fun _ _ x => x) Hrs).
  exact H.
Qed.

(** The fold in the store does what the fold on values does. *)
Lemma run_reduceH (la lh : loc) (h0 : heap) :
  length h0 <= la -> length h0 <= lh ->
  forall (qsH : list sheetQueryH) (qs : list sheetQuery) (h : heap)
         (acc : mergedSheet) (prevH : option sheetQueryH) (prev : option sheetQuery),
    traverse (readQuery h0) qsH = Some qs ->
    keeps [] h0 h ->
    accAt la lh h acc ->
    samePrev prevH prev ->
    match reduceM mergeStep (acc, prev) qs with
    | Ok st =>
        exists h', reduceH la prevH qsH h = Done tt h' /\ accAt la lh h' (fst st)
    | Throw => exists h', reduceH la prevH qsH h = Raise h'
    end.
Proof.
  intros Hla0 Hlh0.
  induction qsH as [|qH qsH IH]; intros qs h acc prevH prev Hqs Hk0 Hacc Hprev.
  - simpl in Hqs. inversion Hqs; subst. simpl. now exists h.
  - simpl in Hqs.
    destruct (readQuery h0 qH) as [q|] eqn:Hq; [|discriminate].
    destruct (traverse (readQuery h0) qsH) as [qs'|] eqn:Hqs'; [|discriminate].
    inversion Hqs; subst qs; clear Hqs.
    assert (Hqh : readQuery h qH = Some q).
    { apply (@readQuery_keeps [] h0 h Hk0 (objectsAt_nil h0)); [intros []|exact Hq]. }
    assert (Hsh : sheetH qH < length h0).
    { unfold readQuery, readTable in Hq.
      destruct (nth_error h0 (sheetH qH)) as [o|] eqn:E; [|discriminate].
      eapply nth_error_Some_lt. exact E. }
    pose proof (@run_mergeStepH la lh h acc prevH prev qH q Hacc Hprev Hqh
                  ltac:(lia) ltac:(lia)) as Hstep.
    cbn [reduceM reduceH].
    destruct (mergeStep (acc, prev) q) as [[acc' prev']|].
    + destruct Hstep as (h1 & Hrun & Hacc1 & Hprev' & _).
      cbn [fst snd] in Hacc1, Hprev'. subst prev'. cbn [bind].
      assert (Hk1 : keeps [] h0 h1).
      { destruct Hacc as (lr & hp & rl & Hla & _).
        pose proof (@mergeStepH_frames la lh prevH qH h _ Hla eq_refl) as Hfr.
        unfold framesAt in Hfr. rewrite Hrun in Hfr.
        intros l o Hl _. apply Hfr; [apply Hk0; [exact Hl|intros []]|].
        pose proof (nth_error_Some_lt _ _ Hl). intros [E|[E|[]]]; lia. }
      specialize (IH qs' h1 acc' (Some qH) (Some q) eq_refl Hk1 Hacc1
                    (readQuery_sameStep _ _ Hq)).
      destruct (reduceM mergeStep (acc', Some q) qs') as [st|].
      * destruct IH as (h2 & Hrun2 & Hacc2). exists h2.
        split; [|exact Hacc2]. run_with Hrun. exact Hrun2.
      * destruct IH as (h2 & Hrun2). exists h2. run_with Hrun. exact Hrun2.
    + destruct Hstep as (h1 & Hrun). cbn [bind]. exists h1.
      now apply run_bind_Raise.
Qed.

(** The merger in the store refines the merger on values: on Tables that
    read as [qs] it ends as [mergeSheets qs] does, and the accumulator it
    returns, a new object, reads as the merged sheet. *)
Lemma run_mergeSheetsH (h : heap) (qsH : list sheetQueryH) (qs : list sheetQuery) :
  traverse (readQuery h) qsH = Some qs ->
  match mergeSheets qs with
  | Ok m =>
      exists la h', mergeSheetsH qsH h = Done la h'
                    /\ readMerged h' la = Some m /\ length h <= la
  | Throw => exists h', mergeSheetsH qsH h = Raise h'
  end.
Proof.
  intros Hqs. unfold mergeSheetsH, mergeSheets, mergeInit.
  run_with (run_alloc (HObject []) h).
  run_with (run_alloc (HArray []) (h ++ [HObject []])).
  run_with (run_alloc (HObject [("headers", length h);
                                ("rows", length (h ++ [HObject []]))])
              ((h ++ [HObject []]) ++ [HArray []])).
  set (lh := length h). set (lr := length (h ++ [HObject []])).
  set (la := length ((h ++ [HObject []]) ++ [HArray []])).
  set (h3 := ((h ++ [HObject []]) ++ [HArray []])
               ++ [HObject [("headers", lh); ("rows", lr)]]).
  assert (Hla : length h <= la).
  { unfold la. rewrite !length_app. lia. }
  assert (Hacc : accAt la lh h3 (mkMerged [] [])).
  { exists lr, [], []. unfold h3, la, lr, lh.
    split; [apply nth_error_app_new|].
    split; [do 2 apply nth_error_app_Some; apply nth_error_app_new|].
    split; [apply nth_error_app_Some; apply nth_error_app_new|].
    split; [reflexivity|]. split; [reflexivity|].
    split; [rewrite !length_app; simpl; lia|]. split; intros []. }
  assert (Hk : keeps [] h h3).
  { unfold h3. rewrite <- !app_assoc. apply keeps_app. }
  pose proof (@run_reduceH la lh h Hla (le_n _) qsH qs h3 (mkMerged [] []) None None
                Hqs Hk Hacc I) as Hrun.
  destruct (reduceM mergeStep (mkMerged [] [], None) qs) as [st|].
  - destruct Hrun as (h' & Hrun & Hacc'). cbn [bind].
    exists la, h'. split; [run_with Hrun; reflexivity|].
    split; [now apply (accAt_readMerged Hacc')|exact Hla].
  - destruct Hrun as (h' & Hrun). cbn [bind]. exists h'.
    now apply run_bind_Raise.
Qed.

(** ** Copy on write *)

Lemma readonly_bind {A B} (m : M A) (k : A -> M B) :
  readonly m -> (forall a, readonly (k a)) -> readonly (bindM m k).
Proof.
  intros Hm Hk h b h'' H. apply bindM_Done in H as (a & h' & H1 & H2).
  apply Hm in H1. subst h'. now apply (Hk a) in H2.
Qed.

Lemma readonly_ret {A} (a : A) : readonly (ret a).
Proof. intros h b h' H. now inversion H. Qed.

Lemma readonly_raise {A} : readonly (@raise A).
Proof. intros h b h' H. discriminate. Qed.

Lemma readonly_untyped {A} : readonly (@untyped A).
Proof. intros h b h' H. discriminate. Qed.

Lemma readonly_load (l : loc) : readonly (load l).
Proof. intros h o h' H. now apply load_Done in H. Qed.

Lemma readonly_loadRecord (l : loc) : readonly (loadRecord l).
Proof.
  apply readonly_bind; [apply readonly_load|].
  intros [r|ss|ls|ps]; first [apply readonly_ret|apply readonly_untyped].
Qed.

Lemma readonly_loadArray (l : loc) : readonly (loadArray l).
Proof.
  apply readonly_bind; [apply readonly_load|].
  intros [r|ss|ls|ps]; first [apply readonly_ret|apply readonly_untyped].
Qed.

Lemma readonly_liftResult {A} (r : result A) : readonly (liftResult r).
Proof. destruct r; [apply readonly_ret|apply readonly_raise]. Qed.

Lemma readonly_forM {A B} (f : A -> M B) (xs : list A) :
  (forall x, readonly (f x)) -> readonly (forM f xs).
Proof.
  intros Hf. induction xs as [|x xs IH]; simpl; [apply readonly_ret|].
  apply readonly_bind; [apply Hf|]. intros y.
  apply readonly_bind; [exact IH|]. intros ys. apply readonly_ret.
Qed.

Lemma readonly_keepM (f : record -> bool) (ls : list loc) : readonly (keepM f ls).
Proof.
  induction ls as [|l ls IH]; simpl; [apply readonly_ret|].
  apply readonly_bind; [apply readonly_loadRecord|]. intros r.
  apply readonly_bind; [exact IH|]. intros rest. apply readonly_ret.
Qed.

Lemma readonly_rowFilterH (js : option (list string)) (prevName : string)
                          (cells : obj loc) :
  readonly (rowFilterH js prevName cells).
Proof.
  unfold rowFilterH. destruct (own cells prevName) as [l|].
  - apply readonly_bind; [apply readonly_load|].
    intros [r|ss|ls|ps];
      first [apply readonly_liftResult|apply readonly_untyped|idtac].
    apply readonly_bind; [apply readonly_forM; apply readonly_loadRecord|].
    intros rs. apply readonly_liftResult.
  - destruct js as [[|j js]|];
      first [apply readonly_ret|apply readonly_raise].
Qed.

(** The new merged row is a new object, a shallow copy of the accumulated
    row plus the new key: it holds the cells of the old row by reference and,
    under the name of the step, the new match list; the store is otherwise
    only extended. *)
Lemma mergeRowH_Done (prevH qH : sheetQueryH) (rowLoc : loc)
                     (h h' : heap) (l' : loc) :
  mergeRowH prevH qH rowLoc h = Done l' h' ->
  exists cells kept,
    nth_error h rowLoc = Some (HObject cells)
    /\ h' = (h ++ [HArray kept]) ++ [HObject (define cells (nameH qH) (length h))]
    /\ l' = length (h ++ [HArray kept]).
Proof.
  unfold mergeRowH. intros H.
  apply bindM_Done in H as (cells & h1 & H1 & H).
  apply loadObject_Done in H1 as (-> & Hcells).
  apply bindM_Done in H as (f & h1 & H1 & H).
  apply readonly_rowFilterH in H1. subst h1.
  apply bindM_Done in H as (sheetO & h1 & H1 & H).
  apply loadObject_Done in H1 as (-> & _).
  apply bindM_Done in H as (sr & h1 & H1 & H).
  apply field_Done in H1 as (-> & _).
  apply bindM_Done in H as (cands & h1 & H1 & H).
  apply readonly_loadArray in H1. subst h1.
  apply bindM_Done in H as (kept & h1 & H1 & H).
  apply readonly_keepM in H1. subst h1.
  apply bindM_Done in H as (matched & h1 & H1 & H).
  rewrite run_alloc in H1. inversion H1; subst matched h1; clear H1.
  rewrite run_alloc in H. inversion H; subst.
  now exists cells, kept.
Qed.

(** C8. In a store where the Tables of the steps read as [qs], and when
    [mergeSheets qs] returns [m]: the merger run in the store returns a new
    accumulator that reads as [m]; every object that was in the store before
    the run, the Tables and their Records among them, is still there
    unchanged, so the steps read as [qs] afterwards; and a second run on the
    same Tables returns another accumulator that reads as [m] as well, the
    first one still reading as [m].  Besides, without any assumption on the
    store: a run of the merger that ends, normally or by a throw, modifies no
    object that was there before; one step of the fold assigns only to the
    accumulator and to its [headers] object, so the merged rows of the steps
    before are not modified; and the row a step emits is a new object that
    holds the cells of the accumulated row, by reference, plus the new
    key. *)
Theorem mergeSheetsH_copy_on_write_and_repeatable :
  forall (h : heap) (qsH : list sheetQueryH) (qs : list sheetQuery) (m : mergedSheet),
    traverse (readQuery h) qsH = Some qs ->
    mergeSheets qs = Ok m ->
    (forall qsH' h1, framesAt [] (mergeSheetsH qsH') h1)
    /\ (forall la lh prevH qH h1 ps,
          nth_error h1 la = Some (HObject ps) -> own ps "headers" = Some lh ->
          framesAt [la; lh] (mergeStepH la prevH qH) h1)
    /\ (forall prevH qH rowLoc h1 l' h2,
          mergeRowH prevH qH rowLoc h1 = Done l' h2 ->
          exists cells kept,
            nth_error h1 rowLoc = Some (HObject cells)
            /\ h2 = (h1 ++ [HArray kept])
                      ++ [HObject (define cells (nameH qH) (length h1))]
            /\ l' = length (h1 ++ [HArray kept]))
    /\ exists la h',
         mergeSheetsH qsH h = Done la h'
         /\ length h <= la
         /\ readMerged h' la = Some m
         /\ keeps [] h h'
         /\ traverse (readQuery h') qsH = Some qs
         /\ exists la2 h'',
              mergeSheetsH qsH h' = Done la2 h''
              /\ la2 <> la
              /\ readMerged h'' la2 = Some m
              /\ readMerged h'' la = Some m
              /\ keeps [] h' h''.
Proof.
  intros h qsH qs m Hqs Hm.
  split; [intros qsH' h1; apply mergeSheetsH_frames|].
  split; [intros la lh prevH qH h1 ps Hla Hlh; now apply (@mergeStepH_frames la lh _ _ _ ps)|].
  split; [intros prevH qH rowLoc h1 l' h2; apply mergeRowH_Done|].
  pose proof (@run_mergeSheetsH h qsH qs Hqs) as Hrun1. rewrite Hm in Hrun1.
  destruct Hrun1 as (la & h' & Hrun1 & Hread1 & Hfresh1).
  pose proof (mergeSheetsH_frames qsH h) as Hk1.
  unfold framesAt in Hk1. rewrite Hrun1 in Hk1.
  pose proof (traverse_readQuery_keeps _ Hk1 Hqs) as Hqs'.
  pose proof (@run_mergeSheetsH h' qsH qs Hqs') as Hrun2. rewrite Hm in Hrun2.
  destruct Hrun2 as (la2 & h'' & Hrun2 & Hread2 & Hfresh2).
  pose proof (mergeSheetsH_frames qsH h') as Hk2.
  unfold framesAt in Hk2. rewrite Hrun2 in Hk2.
  exists la, h'. repeat (split; [assumption|]).
  exists la2, h''. split; [exact Hrun2|]. split.
  - assert (Hlt : la < length h').
    { unfold readMerged in Hread1.
      destruct (nth_error h' la) as [o|] eqn:E; [|discriminate].
      eapply nth_error_Some_lt. exact E. }
    lia.
  - split; [exact Hread2|]. split; [|exact Hk2].
    now apply (readMerged_keeps _ Hk2).
Qed.

Lemma mergeSheetsH_copy_on_write_and_repeatable_witness :
  traverse (readQuery ChainH.h0) ChainH.qs = Some [Chain.q0; Chain.q1; Chain.q2]
  /\ exists m,
       mergeSheets [Chain.q0; Chain.q1; Chain.q2] = Ok m
       /\ exists la h',
            mergeSheetsH ChainH.qs ChainH.h0 = Done la h'
            /\ readMerged h' la = Some m
            /\ keeps [] ChainH.h0 h'
            /\ exists la2 h'',
                 mergeSheetsH ChainH.qs h' = Done la2 h''
                 /\ la2 <> la
                 /\ readMerged h'' la2 = Some m
                 /\ readMerged h'' la = Some m.
Proof.
  split; [reflexivity|].
  eexists. split; [reflexivity|].
  destruct (@mergeSheetsH_copy_on_write_and_repeatable
              ChainH.h0 ChainH.qs [Chain.q0; Chain.q1; Chain.q2] _
              eq_refl eq_refl)
    as (_ & _ & _ & la & h' & Hrun & _ & Hread & Hk & _ & la2 & h'' & Hrun2 & Hne & Hread2 & Hread1 & _).
  exists la, h'. repeat (split; [assumption|]).
  exists la2, h''. repeat (split; [assumption|]). exact Hread1.
Defined.

(** * Further properties of the parser *)

Lemma split_field_then_comma (f s : string) :
  hasComma f = false -> split (f ++ String "," s) = f :: split s.
Proof.
  induction f as [|c f IH]; intros Hf; cbn [append].
  - cbn [split]. now rewrite Ascii.eqb_refl.
  - rewrite hasComma_String in Hf. apply orb_false_iff in Hf as (Hc & Hf).
    cbn [split]. rewrite Ascii.eqb_sym, Hc. now rewrite (IH Hf).
Qed.

Lemma split_single_field (f : string) : hasComma f = false -> split f = [f].
Proof.
  induction f as [|c f IH]; intros Hf; [reflexivity|].
  rewrite hasComma_String in Hf. apply orb_false_iff in Hf as (Hc & Hf).
  cbn [split]. rewrite Ascii.eqb_sym, Hc. now rewrite (IH Hf).
Qed.

Lemma split_of_concat (fs : list string) :
  fs <> [] -> Forall (fun f => hasComma f = false) fs ->
  split (String.concat "," fs) = fs.
Proof.
  induction fs as [|f fs IH]; intros Hne Hall; [contradiction|].
  inversion Hall as [|? ? Hf Hfs]; subst.
  destruct fs as [|g fs].
  - simpl. now apply split_single_field.
  - change (String.concat "," (f :: g :: fs))
      with (f ++ String "," (String.concat "," (g :: fs)))%string.
    rewrite split_field_then_comma by exact Hf. f_equal. apply IH; [discriminate|exact Hfs].
Qed.

Lemma trimStart_id (s : string) : startsWhite s = false -> trimStart s = s.
Proof. destruct s as [|c s]; simpl; [reflexivity|]. now intros ->. Qed.

Lemma trimEnd_String (c : ascii) (s : string) :
  trimEnd (String c s)
  = match trimEnd s with
    | EmptyString => if isWhiteSpace c then EmptyString else String c EmptyString
    | String d t => String c (String d t)
    end.
Proof. reflexivity. Qed.

Lemma trimEnd_id (s : string) : endsWhite s = false -> trimEnd s = s.
Proof.
  induction s as [|c s IH]; intros H; [reflexivity|].
  rewrite trimEnd_String. destruct s as [|d t].
  - cbn [endsWhite] in H. cbn [trimEnd]. now rewrite H.
  - assert (H' : endsWhite (String d t) = false) by exact H.
    now rewrite (IH H').
Qed.

Lemma trim_id (s : string) :
  startsWhite s = false -> endsWhite s = false -> trim s = s.
Proof. intros Hs He. unfold trim. rewrite trimStart_id by exact Hs. now apply trimEnd_id. Qed.

(** X1. A line made of fields joined by commas is parsed back into these
    very fields, provided no field holds a comma and the line neither starts
    nor ends with white space (which [trim] would remove). *)
Theorem split_trim_of_joined_fields :
  forall (fs : list string),
    fs <> [] ->
    Forall (fun f => hasComma f = false) fs ->
    startsWhite (String.concat "," fs) = false ->
    endsWhite (String.concat "," fs) = false ->
    split (trim (String.concat "," fs)) = fs.
Proof.
  intros fs Hne Hall Hs He. rewrite trim_id by assumption. now apply split_of_concat.
Qed.

Lemma split_trim_of_joined_fields_witness :
  split (trim (String.concat "," ["a b"; ""; "c"])) = ["a b"; ""; "c"].
Proof.
  apply split_trim_of_joined_fields.
  - discriminate.
  - repeat constructor.
  - reflexivity.
  - reflexivity.
Defined.

(** X2. A line has one field more than it has commas: empty fields, also
    at the ends of the line, are kept as empty strings. *)
Theorem split_length_counts_commas :
  forall (s : string), length (split s) = S (countCommas s).
Proof.
  induction s as [|c s IH]; [reflexivity|].
  cbn [split countCommas]. destruct (Ascii.eqb c ",").
  - simpl. now rewrite IH.
  - destruct (split s) as [|f fs]; simpl in *; [discriminate|exact IH].
Qed.

Lemma trimStart_allWhite (s : string) : allWhite s = true -> trimStart s = ""%string.
Proof.
  induction s as [|c s IH]; [reflexivity|].
  change (allWhite (String c s)) with (isWhiteSpace c && allWhite s)%bool.
  intros H. apply andb_true_iff in H as (Hc & Hs).
  cbn [trimStart]. rewrite Hc. now apply IH.
Qed.

Lemma trim_allWhite (s : string) : allWhite s = true -> trim s = ""%string.
Proof. intros H. unfold trim. now rewrite trimStart_allWhite by exact H. Qed.

Lemma parseCSV_cons (l : string) (ls : list string) (filterSets : option (list filterSet)) :
  parseCSV (l :: ls) filterSets
  = mkSheet (split (trim l))
      (List.filter
         (match filterSets with Some fs => createQueryFilter fs | None => trueFn end)
         (map (lineRecord (split (trim l))) ls)).
Proof. unfold parseCSV. apply parseCSV_filter. Qed.

(** X3. A data line that is empty or made of white space only is not
    skipped: it is read as the single empty field, and without a filter it
    adds one row, the record built from that field. *)
Theorem parseCSV_blank_line_is_a_row :
  forall (l : string) (ls : list string) (line : string),
    allWhite line = true ->
    split (trim line) = [""%string]
    /\ rows (parseCSV (l :: ls ++ [line]) None)
       = rows (parseCSV (l :: ls) None) ++ [convertRowToObj (split (trim l)) [""%string]].
Proof.
  intros l ls line Hw. rewrite (@trim_allWhite line Hw). split; [reflexivity|].
  rewrite !parseCSV_cons. cbn [rows]. rewrite !filter_trueFn, map_app.
  cbn [map]. unfold lineRecord at 2. now rewrite (@trim_allWhite line Hw).
Qed.

Lemma parseCSV_blank_line_is_a_row_witness :
  split (trim "  ") = [""%string]
  /\ rows (parseCSV ("a,b" :: ["1,2"] ++ ["  "]) None)
     = rows (parseCSV ("a,b" :: ["1,2"]) None)
         ++ [convertRowToObj (split (trim "a,b")) [""%string]].
Proof. apply parseCSV_blank_line_is_a_row. reflexivity. Defined.

(** X4. Parsing is a single pass over the lines: the headers depend on the
    first line only, and the rows of a file are the rows of its first data
    lines followed by the rows of the remaining ones, each parsed under the
    same header line and the same filter. *)
Theorem parseCSV_appends_rows :
  forall (l : string) (ls1 ls2 : list string) (filterSets : option (list filterSet)),
    headers (parseCSV (l :: ls1 ++ ls2) filterSets) = split (trim l)
    /\ rows (parseCSV (l :: ls1 ++ ls2) filterSets)
       = rows (parseCSV (l :: ls1) filterSets) ++ rows (parseCSV (l :: ls2) filterSets).
Proof.
  intros l ls1 ls2 filterSets. rewrite !parseCSV_cons. cbn [headers rows].
  split; [reflexivity|]. now rewrite map_app, filter_app.
Qed.

(** X5. Discarding records during the scan gives the same table as parsing
    without a filter and filtering the rows afterwards; the headers are not
    affected by the filter. *)
Theorem parseCSV_filter_commutes :
  forall (lines : list string) (fs : list filterSet),
    parseCSV lines (Some fs)
    = mkSheet (headers (parseCSV lines None))
        (List.filter (createQueryFilter fs) (rows (parseCSV lines None))).
Proof.
  intros [|l ls] fs; [reflexivity|].
  rewrite !parseCSV_cons. cbn [headers rows]. now rewrite filter_trueFn.
Qed.

(** * Further properties of [convertRowToObj] *)

Lemma keys_combine (hs row : list string) :
  length row = length hs -> keys (combine hs row) = hs.
Proof.
  revert row. induction hs as [|h hs IH]; intros [|v row] H; simpl in *;
    try discriminate; [reflexivity|].
  f_equal. apply IH. now inversion H.
Qed.

Lemma convertFrom_exact (hs : list string) (row : list string) :
  forall i acc,
    NoDup (keys acc ++ skipn i hs) ->
    ~ In "__proto__" (skipn i hs) ->
    length row <= length (skipn i hs) ->
    convertFrom hs i row acc = acc ++ combine (skipn i hs) row.
Proof.
  induction row as [|v row IH]; intros i acc Hnd Hp Hlen.
  - simpl. rewrite combine_nil. now rewrite app_nil_r.
  - cbn [convertFrom]. unfold headerKey.
    destruct (skipn i hs) as [|h t] eqn:Hs; [simpl in Hlen; lia|].
    destruct (skipn_cons_nth_error _ _ Hs) as (Hh & Ht). rewrite Hh.
    assert (Hnh : ~ In h (keys acc)).
    { intros Hin. apply NoDup_remove_2 in Hnd. apply Hnd.
      apply in_or_app. now left. }
    assert (Hph : h <> "__proto__").
    { intros ->. apply Hp. now left. }
    rewrite assign_new by assumption.
    rewrite IH; rewrite ?Ht, ?keys_app; simpl.
    + now rewrite <- app_assoc.
    + now rewrite <- app_assoc.
    + intros Hin. apply Hp. now right.
    + simpl in Hlen. lia.
Qed.

(** X6. With distinct headers, none of them ["__proto__"], a row that has
    exactly as many fields as there are headers becomes a record whose
    properties are the headers, each holding the field at its position.
    The record enumerates them as the header list is enumerated: the
    headers that are array indices first, in ascending order, then the
    others in header order; so in header order when no header is an array
    index. *)
Theorem convertRowToObj_keys_are_headers :
  forall (hs row : list string),
    NoDup hs -> ~ In "__proto__" hs -> length row = length hs ->
    ownKeys (convertRowToObj hs row) = enumerate hs
    /\ (Forall (fun h => isArrayIndex h = false) hs ->
        ownKeys (convertRowToObj hs row) = hs)
    /\ (forall h, In h (ownKeys (convertRowToObj hs row)) <-> In h hs)
    /\ forall i h f, nth_error hs i = Some h -> nth_error row i = Some f ->
                     get (convertRowToObj hs row) h = VString f.
Proof.
  intros hs row Hnd Hp Hlen.
  assert (Hz : convertRowToObj hs row = combine hs row).
  { unfold convertRowToObj. rewrite convertFrom_exact; simpl; auto. lia. }
  rewrite Hz. unfold ownKeys. rewrite (keys_combine _ _ Hlen).
  split; [reflexivity|]. split; [apply enumerate_no_index|].
  split; [intros h; apply In_enumerate|].
  intros i h f Hh Hf. unfold get.
  rewrite (@own_combine hs Hnd row i h Hh). now rewrite Hf.
Qed.

Lemma convertRowToObj_keys_are_headers_witness :
  ownKeys (convertRowToObj ["2020"; "2019"; "name"] ["7"; "5"; "x"])
  = enumerate ["2020"; "2019"; "name"]
  /\ (Forall (fun h => isArrayIndex h = false) ["2020"; "2019"; "name"] ->
      ownKeys (convertRowToObj ["2020"; "2019"; "name"] ["7"; "5"; "x"])
      = ["2020"; "2019"; "name"])
  /\ (forall h, In h (ownKeys (convertRowToObj ["2020"; "2019"; "name"] ["7"; "5"; "x"]))
                <-> In h ["2020"; "2019"; "name"])
  /\ forall i h f, nth_error ["2020"; "2019"; "name"] i = Some h ->
                   nth_error ["7"; "5"; "x"] i = Some f ->
                   get (convertRowToObj ["2020"; "2019"; "name"] ["7"; "5"; "x"]) h
                   = VString f.
Proof.
  apply convertRowToObj_keys_are_headers.
  - constructor; [simpl; intros [H|[H|[]]]; discriminate|].
    constructor; [simpl; intros [H|[]]; discriminate|].
    constructor; [intros []|constructor].
  - simpl. intros [H|[H|[H|[]]]]; discriminate.
  - reflexivity.
Defined.

(** Headers that are array indices are enumerated first, whatever their
    place in the header line. *)
Example convertRowToObj_index_headers :
  convertRowToObj ["2020"; "2019"; "name"] ["7"; "5"; "x"]
  = [("2020", "7"); ("2019", "5"); ("name", "x")]
  /\ ownKeys (convertRowToObj ["2020"; "2019"; "name"] ["7"; "5"; "x"])
     = ["2019"; "2020"; "name"].
Proof. split; vm_compute; reflexivity. Qed.

Lemma own_assign_same {V} (o : obj V) (k : string) (v : V) :
  k <> "__proto__" -> own (assign o k v) k = Some v.
Proof.
  intros Hp. unfold assign. destruct (own o k).
  - apply own_define_same.
  - apply String.eqb_neq in Hp. rewrite Hp. apply own_define_same.
Qed.

Lemma convertFrom_untouched (hs : list string) (k : string) (row : list string) :
  forall i acc,
    (forall j, i <= j -> j < i + length row -> headerKey hs j <> k) ->
    own (convertFrom hs i row acc) k = own acc k.
Proof.
  induction row as [|v row IH]; intros i acc H; [reflexivity|].
  cbn [convertFrom]. rewrite IH.
  - apply own_assign_other. apply H; simpl; lia.
  - intros j Hj1 Hj2. apply H; simpl; lia.
Qed.

Lemma convertFrom_last_wins (hs : list string) (row : list string) :
  forall i0 acc n v,
    nth_error row n = Some v ->
    headerKey hs (i0 + n) <> "__proto__" ->
    (forall j, i0 + n < j -> j < i0 + length row ->
               headerKey hs j <> headerKey hs (i0 + n)) ->
    own (convertFrom hs i0 row acc) (headerKey hs (i0 + n)) = Some v.
Proof.
  induction row as [|x row IH]; intros i0 acc n v Hn Hp Hlater.
  - destruct n; discriminate.
  - cbn [convertFrom]. destruct n as [|n].
    + simpl in Hn. inversion Hn; subst x. rewrite Nat.add_0_r in *.
      rewrite convertFrom_untouched.
      * now apply own_assign_same.
      * intros j Hj1 Hj2. apply Hlater; simpl; lia.
    + simpl in Hn. replace (i0 + S n) with (S i0 + n) in * by lia.
      apply IH; [exact Hn|exact Hp|].
      intros j Hj1 Hj2. apply Hlater; simpl; lia.
Qed.

(** X7. When several positions of a row fall under the same property name
    (a header that occurs twice, or several fields beyond the headers), the
    field at the last of these positions is the one the record holds: the
    field at position [i] is the value of its header's property as soon as
    no later position has that name, the name ["__proto__"] apart. *)
Theorem convertRowToObj_last_position_wins :
  forall (hs row : list string) (i : nat) (v : string),
    nth_error row i = Some v ->
    headerKey hs i <> "__proto__" ->
    (forall j, i < j -> j < length row -> headerKey hs j <> headerKey hs i) ->
    own (convertRowToObj hs row) (headerKey hs i) = Some v.
Proof.
  intros hs row i v Hi Hp Hlater. unfold convertRowToObj.
  apply (@convertFrom_last_wins hs row 0 [] i v Hi Hp).
  intros j Hj1 Hj2. apply Hlater; simpl in *; lia.
Qed.

Lemma convertRowToObj_last_position_wins_witness :
  own (convertRowToObj ["a"; "b"; "a"] ["1"; "2"; "3"]) (headerKey ["a"; "b"; "a"] 2)
  = Some "3"%string.
Proof.
  apply convertRowToObj_last_position_wins.
  - reflexivity.
  - discriminate.
  - intros j Hj1 Hj2. simpl in Hj2. lia.
Defined.

Lemma own_assign_inv {V} (o : obj V) (k0 k : string) (x v : V) :
  own (assign o k0 x) k = Some v -> (k0 = k /\ v = x) \/ own o k = Some v.
Proof.
  destruct (String.eqb_spec k0 k) as [->|Hne].
  - unfold assign. destruct (own o k) as [w|] eqn:E.
    + rewrite own_define_same. intros H. inversion H. now left.
    + destruct (String.eqb k "__proto__").
      * rewrite E. discriminate.
      * rewrite own_define_same. intros H. inversion H. now left.
  - rewrite own_assign_other by exact Hne. now right.
Qed.

Lemma own_assign_proto {V} (o : obj V) (k : string) (x : V) :
  own o "__proto__" = None -> own (assign o k x) "__proto__" = None.
Proof.
  intros H. destruct (String.eqb_spec k "__proto__") as [->|Hne].
  - unfold assign. rewrite H. rewrite String.eqb_refl. exact H.
  - now rewrite own_assign_other.
Qed.

Lemma convertFrom_proto (hs : list string) (row : list string) :
  forall i acc, own acc "__proto__" = None ->
                own (convertFrom hs i row acc) "__proto__" = None.
Proof.
  induction row as [|x row IH]; intros i acc H; [exact H|].
  cbn [convertFrom]. apply IH. now apply own_assign_proto.
Qed.

Lemma convertFrom_origin (hs : list string) (k : string) (v : string)
                         (row : list string) :
  forall i0 acc,
    own (convertFrom hs i0 row acc) k = Some v ->
    own acc k = Some v
    \/ exists n, nth_error row n = Some v /\ headerKey hs (i0 + n) = k.
Proof.
  induction row as [|x row IH]; intros i0 acc H; [now left|].
  cbn [convertFrom] in H. destruct (IH _ _ H) as [Hacc|(n & Hn & Hk)].
  - apply own_assign_inv in Hacc as [(Hk & ->)|Hacc]; [|now left].
    right. exists 0. rewrite Nat.add_0_r. now split.
  - right. exists (S n). split; [exact Hn|].
    now replace (i0 + S n) with (S i0 + n) by lia.
Qed.

(** X8. A record built from a row never gets an own property named
    ["__proto__"] (a column of that name is lost), and every property it has
    holds a field of the row, under the name found at that field's position
    in the headers (["undefined"] beyond them). *)
Theorem convertRowToObj_properties_come_from_fields :
  forall (hs row : list string),
    own (convertRowToObj hs row) "__proto__" = None
    /\ forall k v, own (convertRowToObj hs row) k = Some v ->
                   exists i, nth_error row i = Some v /\ headerKey hs i = k.
Proof.
  intros hs row. unfold convertRowToObj. split.
  - now apply convertFrom_proto.
  - intros k v H. apply convertFrom_origin in H as [H|H]; [discriminate|exact H].
Qed.

(** * Further properties of the query filter and of the join keys *)

Lemma createQueryFilter_app (a b : list filterSet) (r : record) :
  createQueryFilter (a ++ b) r = (createQueryFilter a r || createQueryFilter b r)%bool.
Proof. unfold createQueryFilter. apply existsb_app. Qed.

(** X9. Filter sets compose: putting two lists of groups together gives the
    disjunction of their filters, and putting the pairs of two groups
    together in one group gives the conjunction of the filters of the two
    groups. *)
Theorem createQueryFilter_composes :
  forall (a b : list filterSet) (g1 g2 : filterSet) (r : record),
    createQueryFilter (a ++ b) r
    = (createQueryFilter a r || createQueryFilter b r)%bool
    /\ createQueryFilter [g1 ++ g2] r
       = (createQueryFilter [g1] r && createQueryFilter [g2] r)%bool.
Proof.
  intros a b g1 g2 r. split; [apply createQueryFilter_app|].
  unfold createQueryFilter. cbn [existsb]. rewrite !orb_false_r.
  apply forallb_app.
Qed.

Lemma bool_eq_iff (a b : bool) : (a = true <-> b = true) -> a = b.
Proof.
  destruct a, b; intros [H1 H2]; try reflexivity;
    [specialize (H1 eq_refl)|specialize (H2 eq_refl)]; discriminate.
Qed.

(** X10. The answer of a filter does not depend on the order of its groups
    nor on the order of the pairs inside a group. *)
Theorem createQueryFilter_order_irrelevant :
  forall (fs fs' : list filterSet) (r : record),
    Forall2 (fun g g' => Permutation g g') fs fs' \/ Permutation fs fs' ->
    createQueryFilter fs r = createQueryFilter fs' r.
Proof.
  intros fs fs' r [HF|HP]; apply bool_eq_iff; rewrite !createQueryFilter_true_iff.
  - split.
    + intros (g & Hg & Hall).
      assert (H : exists g', In g' fs' /\ Permutation g g').
      { clear Hall. induction HF as [|x y xs ys Hxy _ IH]; [destruct Hg|].
        destruct Hg as [->|Hg].
        - exists y. split; [now left|exact Hxy].
        - destruct (IH Hg) as (g' & Hg' & Hp). exists g'. split; [now right|exact Hp]. }
      destruct H as (g' & Hg' & Hp). exists g'. split; [exact Hg'|].
      intros column val Hin. apply Hall.
      eapply Permutation_in; [apply Permutation_sym; exact Hp|exact Hin].
    + intros (g' & Hg' & Hall).
      assert (H : exists g, In g fs /\ Permutation g g').
      { clear Hall. induction HF as [|x y xs ys Hxy _ IH]; [destruct Hg'|].
        destruct Hg' as [->|Hg'].
        - exists x. split; [now left|exact Hxy].
        - destruct (IH Hg') as (g & Hg & Hp). exists g. split; [now right|exact Hp]. }
      destruct H as (g & Hg & Hp). exists g. split; [exact Hg|].
      intros column val Hin. apply Hall.
      eapply Permutation_in; [exact Hp|exact Hin].
  - split; intros (g & Hg & Hall); exists g; (split; [|exact Hall]).
    + eapply Permutation_in; [exact HP|exact Hg].
    + eapply Permutation_in; [apply Permutation_sym; exact HP|exact Hg].
Qed.

Lemma createQueryFilter_order_irrelevant_witness :
  createQueryFilter [[("a", VString "1"); ("b", VString "2")]; [("c", VString "3")]]
    [("c", "3")]
  = createQueryFilter [[("c", VString "3")]; [("a", VString "1"); ("b", VString "2")]]
      [("c", "3")].
Proof.
  apply createQueryFilter_order_irrelevant. right. apply perm_swap.
Defined.

Lemma createSimpleFilterSets_true_iff (key val : string) (r : record) :
  createQueryFilter (createSimpleFilterSets key val) r = true <-> own r key = Some val.
Proof.
  rewrite createQueryFilter_true_iff. unfold createSimpleFilterSets. split.
  - intros (g & [<-|[]] & Hall).
    specialize (Hall key (VString val) (or_introl eq_refl)).
    unfold get in Hall. destruct (own r key) as [s|].
    + now inversion Hall.
    + destruct (inherited key); discriminate.
  - intros H. exists [(key, VString val)]. split; [now left|].
    intros column v [E|[]]. inversion E; subst. unfold get. now rewrite H.
Qed.

(** X11. The simple filter set for a column and a value accepts exactly the
    records that own the column with that very string; a table parsed with
    it holds, in file order, exactly the rows of the unfiltered parse whose
    column has that value. *)
Theorem createSimpleFilterSets_keeps_matching_rows :
  forall (key val : string) (lines : list string) (r : record),
    (createQueryFilter (createSimpleFilterSets key val) r = true
     <-> own r key = Some val)
    /\ (In r (rows (parseCSV lines (Some (createSimpleFilterSets key val))))
        <-> In r (rows (parseCSV lines None)) /\ own r key = Some val)
    /\ rows (parseCSV lines (Some (createSimpleFilterSets key val)))
       = List.filter (createQueryFilter (createSimpleFilterSets key val))
           (rows (parseCSV lines None)).
Proof.
  intros key val lines r.
  assert (Hrows : rows (parseCSV lines (Some (createSimpleFilterSets key val)))
                  = List.filter (createQueryFilter (createSimpleFilterSets key val))
                      (rows (parseCSV lines None))).
  { destruct lines as [|l ls]; [reflexivity|].
    rewrite !parseCSV_cons. cbn [rows]. now rewrite filter_trueFn. }
  split; [apply createSimpleFilterSets_true_iff|]. split; [|exact Hrows].
  rewrite Hrows, filter_In. now rewrite createSimpleFilterSets_true_iff.
Qed.

Lemma joinKeys_self (js : list string) (r : record) :
  createQueryFilter [joinKeys js r] r = true.
Proof.
  apply (joinKeys_filter_iff js [r] r). exists r. split; [now left|auto].
Qed.

(** X12. A record passes the filter built from its own join keys, whatever
    the join columns are and also for the columns it lacks; so when a table
    is joined with a table that holds the same record, that record is among
    the matches. *)
Theorem record_matches_its_own_join_keys :
  forall (js : list string) (c : cell) (t : sheetT) (r : record),
    In r (cellRecords c) -> In r (rows t) ->
    createQueryFilter [joinKeys js r] r = true /\ In r (matches js c t).
Proof.
  intros js c t r Hc Ht. split; [apply joinKeys_self|].
  unfold matches. apply filter_In. split; [exact Ht|].
  apply joinKeys_filter_iff. exists r. split; [exact Hc|auto].
Qed.

Lemma record_matches_its_own_join_keys_witness :
  createQueryFilter [joinKeys ["k"; "missing"] Chain.zipA] Chain.zipA = true
  /\ In Chain.zipA
       (matches ["k"; "missing"] (Many [Chain.zipB; Chain.zipA]) (sheet Chain.q1)).
Proof.
  apply record_matches_its_own_join_keys.
  - right. left. reflexivity.
  - left. reflexivity.
Defined.

(** X13. A step whose list of join columns is empty joins everything: as
    soon as the row holds at least one record under the name of that step,
    every record of the next table is matched, in table order. *)
Theorem empty_join_columns_match_every_record :
  forall (c : cell) (t : sheetT),
    cellRecords c <> [] -> matches [] c t = rows t.
Proof.
  intros c t Hne. unfold matches.
  assert (Hall : forall r, createQueryFilter (map (joinKeys []) (cellRecords c)) r = true).
  { intros r. apply createQueryFilter_true_iff.
    destruct (cellRecords c) as [|p ps]; [contradiction|].
    exists []. split; [now left|]. intros column val []. }
  induction (rows t) as [|r rs IH]; simpl; [reflexivity|].
  now rewrite Hall, IH.
Qed.

Lemma empty_join_columns_match_every_record_witness :
  matches [] (One Chain.seed) (sheet Chain.q1) = rows (sheet Chain.q1).
Proof. apply empty_join_columns_match_every_record. discriminate. Defined.

(** X14. A row whose match list at the previous step is empty gets the empty
    list again: the filter built from no record rejects every record, and
    the join key mapper is not called, so nothing is thrown even when the
    previous step carries no join columns. *)
Theorem empty_match_list_stays_empty :
  forall (prev q : sheetQuery) (row : mergedRow),
    own row (name prev) = Some (Many []) ->
    mergeRow prev q row = Ok (define row (name q) (Many [])).
Proof.
  intros prev q row H. unfold mergeRow, rowFilter. rewrite H. simpl.
  induction (rows (sheet q)) as [|r rs IH]; [reflexivity|exact IH].
Qed.

Lemma empty_match_list_stays_empty_witness :
  mergeRow Chain.q2 Chain.q0 [("z", Many [])]
  = Ok (define [("z", Many [])] (name Chain.q0) (Many [])).
Proof. apply empty_match_list_stays_empty. reflexivity. Defined.

(** X15. The matches for a row that holds several records are the matches
    of its records taken together: a record of the next table is matched
    for the list exactly when it is matched for one of its members. *)
Theorem matches_of_a_list_is_the_union :
  forall (js : list string) (rs : list record) (t : sheetT) (r : record),
    In r (matches js (Many rs) t)
    <-> exists p, In p rs /\ In r (matches js (One p) t).
Proof.
  intros js rs t r. unfold matches. rewrite filter_In. simpl.
  rewrite joinKeys_filter_iff. split.
  - intros (Hr & p & Hp & Hall). exists p. split; [exact Hp|].
    apply filter_In. split; [exact Hr|].
    apply (joinKeys_filter_iff js [p] r). exists p. split; [now left|exact Hall].
  - intros (p & Hp & Hin). apply filter_In in Hin as (Hr & Hf).
    apply (joinKeys_filter_iff js [p] r) in Hf as (p' & [<-|[]] & Hall).
    split; [exact Hr|]. now exists p.
Qed.

(** * Further properties of the merger *)

Lemma mergeStep_headers (acc : mergedSheet) (prev : option sheetQuery)
                        (q : sheetQuery) (st : mergeState) :
  mergeStep (acc, prev) q = Ok st ->
  mergedHeaders (fst st) = assign (mergedHeaders acc) (name q) (headers (sheet q))
  /\ snd st = Some q.
Proof.
  unfold mergeStep.
  destruct (match prev with
            | Some p => mapM (mergeRow p q) (mergedRows acc)
            | None => Ok (map (fun r => define [] (name q) (One r)) (rows (sheet q)))
            end) as [rs|]; simpl; [|discriminate].
  intros H. inversion H. now split.
Qed.

Lemma reduce_headers (steps : list sheetQuery) :
  forall acc0 prev0 st,
    reduceM mergeStep (acc0, prev0) steps = Ok st ->
    mergedHeaders (fst st)
    = fold_left (fun hs q => assign hs (name q) (headers (sheet q))) steps
        (mergedHeaders acc0).
Proof.
  induction steps as [|q steps IH]; intros acc0 prev0 st H; cbn [reduceM] in H.
  - now inversion H.
  - destruct (mergeStep (acc0, prev0) q) as [[acc1 prev1]|] eqn:E; cbn [bind] in H;
      [|discriminate].
    apply mergeStep_headers in E as (E & _). cbn [fst] in E.
    rewrite (IH _ _ _ H). cbn [fold_left]. now rewrite E.
Qed.

Lemma fold_assign_proto {V} (kvs : list (string * V)) :
  forall o, own o "__proto__" = None ->
            own (fold_left (fun hs kv => assign hs (fst kv) (snd kv)) kvs o) "__proto__"
            = None.
Proof.
  induction kvs as [|[k v] kvs IH]; intros o H; [exact H|].
  simpl. apply IH. now apply own_assign_proto.
Qed.

Lemma fold_assign_new {V} (kvs : list (string * V)) :
  forall o, NoDup (keys o ++ map fst kvs) -> ~ In "__proto__" (map fst kvs) ->
            fold_left (fun hs kv => assign hs (fst kv) (snd kv)) kvs o = o ++ kvs.
Proof.
  induction kvs as [|[k v] kvs IH]; intros o Hnd Hp; simpl.
  - now rewrite app_nil_r.
  - simpl in Hnd, Hp.
    assert (Hk : ~ In k (keys o)).
    { intros Hin. apply NoDup_remove_2 in Hnd. apply Hnd. apply in_or_app. now left. }
    rewrite assign_new; [|exact Hk|intros ->; apply Hp; now left].
    rewrite IH.
    + now rewrite <- app_assoc.
    + rewrite keys_app. simpl. now rewrite <- app_assoc.
    + intros Hin. apply Hp. now right.
Qed.

Lemma fold_headers_map (steps : list sheetQuery) :
  forall o,
    fold_left (fun hs q => assign hs (name q) (headers (sheet q))) steps o
    = fold_left (fun hs kv => assign hs (fst kv) (snd kv))
        (map (fun q => (name q, headers (sheet q))) steps) o.
Proof. induction steps as [|q steps IH]; intros o; simpl; [reflexivity|apply IH]. Qed.

Lemma own_map_pair {A V} (k : A -> string) (v : A -> V) (xs : list A) :
  NoDup (map k xs) ->
  forall x, In x xs -> own (map (fun y => (k y, v y)) xs) (k x) = Some (v x).
Proof.
  induction xs as [|y xs IH]; intros Hnd x Hin; [destruct Hin|].
  cbn [map own]. inversion Hnd as [|? ? Hn Hnd']; subst.
  destruct Hin as [->|Hin]; [now rewrite String.eqb_refl|].
  destruct (String.eqb_spec (k y) (k x)) as [E|_]; [|now apply IH].
  exfalso. apply Hn. rewrite E. now apply in_map.
Qed.

(** X16. The own properties of the headers of the merged sheet, when the
    names of the steps are distinct and none is ["__proto__"]: there is one
    for each step, it is named after the step and holds the header list of
    the table of the step, and there is no other.  They are enumerated as
    the list of step names is: the names that are array indices first, in
    ascending order, then the others in step order; so in step order when
    no name is an array index. *)
Theorem mergeSheets_headers_by_step :
  forall (steps : list sheetQuery) (m : mergedSheet),
    mergeSheets steps = Ok m ->
    NoDup (map name steps) -> ~ In "__proto__" (map name steps) ->
    (forall q, In q steps ->
               own (mergedHeaders m) (name q) = Some (headers (sheet q)))
    /\ (forall n, In n (ownKeys (mergedHeaders m)) <-> In n (map name steps))
    /\ ownKeys (mergedHeaders m) = enumerate (map name steps)
    /\ (Forall (fun n => isArrayIndex n = false) (map name steps) ->
        ownKeys (mergedHeaders m) = map name steps).
Proof.
  intros steps m H Hnd Hp. unfold mergeSheets in H.
  destruct (reduceM mergeStep mergeInit steps) as [st|] eqn:E; simpl in H;
    [|discriminate].
  inversion H; subst m; clear H.
  rewrite (reduce_headers _ _ _ E). simpl.
  rewrite fold_headers_map.
  rewrite fold_assign_new; [|simpl; now rewrite map_map|now rewrite map_map].
  cbn [app].
  assert (Hk : keys (map (fun q => (name q, headers (sheet q))) steps)
               = map name steps).
  { unfold keys. now rewrite map_map. }
  unfold ownKeys. rewrite Hk.
  split; [intros q Hq;
          exact (@own_map_pair _ _ name (fun y => headers (sheet y)) steps Hnd q Hq)|].
  split; [intros n; apply In_enumerate|].
  split; [reflexivity|apply enumerate_no_index].
Qed.

Lemma mergeSheets_headers_by_step_witness :
  (forall q, In q [Chain.q0; Chain.q1] ->
             own (mergedHeaders Chain.acc1) (name q) = Some (headers (sheet q)))
  /\ (forall n, In n (ownKeys (mergedHeaders Chain.acc1))
                <-> In n (map name [Chain.q0; Chain.q1]))
  /\ ownKeys (mergedHeaders Chain.acc1) = enumerate (map name [Chain.q0; Chain.q1])
  /\ (Forall (fun n => isArrayIndex n = false) (map name [Chain.q0; Chain.q1]) ->
      ownKeys (mergedHeaders Chain.acc1) = map name [Chain.q0; Chain.q1]).
Proof.
  apply mergeSheets_headers_by_step.
  - reflexivity.
  - vm_compute. constructor; [intros [H|[]]; discriminate|].
    constructor; [intros []|constructor].
  - vm_compute. intros [H|[H|[]]]; discriminate.
Defined.

Lemma Forall2_compose {A B} (P : A -> B -> Prop) (Q : B -> B -> Prop)
                      (xs : list A) (ys ys' : list B) :
  (forall x y y', P x y -> Q y y' -> P x y') ->
  Forall2 P xs ys -> Forall2 Q ys ys' -> Forall2 P xs ys'.
Proof.
  intros HPQ HP. revert ys'. induction HP as [|x y xs ys Hxy _ IH]; intros ys' HQ.
  - inversion HQ. constructor.
  - inversion HQ as [|? y' ? ys'' Hy Hys]; subst. constructor; [eauto|now apply IH].
Qed.

(** A later step leaves the cells under the other names as they are. *)
Lemma reduce_keeps_cell (n : string) (c : record -> cell) (rs : list record)
                        (rest : list sheetQuery) :
  forall acc prev st,
    reduceM mergeStep (acc, Some prev) rest = Ok st ->
    ~ In n (map name rest) ->
    Forall2 (fun r row => own row n = Some (c r)) rs (mergedRows acc) ->
    Forall2 (fun r row => own row n = Some (c r)) rs (mergedRows (fst st)).
Proof.
  induction rest as [|q rest IH]; intros acc prev st H Hn HF; cbn [reduceM] in H.
  - now inversion H.
  - destruct (mergeStep (acc, Some prev) q) as [st1|] eqn:E; cbn [bind] in H;
      [|discriminate].
    apply mergeStep_inv in E as (rows' & -> & HF').
    apply (IH _ _ _ H); [intros Hin; apply Hn; now right|]. simpl.
    eapply Forall2_compose; [|exact HF|exact HF'].
    intros r row row' Hrow Hm. apply mergeRow_inv in Hm as (f & _ & ->).
    rewrite own_define_other; [exact Hrow|]. intros E. apply Hn. left. exact E.
Qed.

(** X17. When the name of the first step is not used again, the merged rows
    are in the order of the records of the first table, one row per record,
    and each row still holds its record, as a single Record, under the name
    of the first step, whatever the later steps add. *)
Theorem mergeSheets_rows_follow_seed_records :
  forall (q0 : sheetQuery) (rest : list sheetQuery) (m : mergedSheet),
    mergeSheets (q0 :: rest) = Ok m ->
    ~ In (name q0) (map name rest) ->
    Forall2 (fun r row => own row (name q0) = Some (One r))
      (rows (sheet q0)) (mergedRows m).
Proof.
  intros q0 rest m H Hn. unfold mergeSheets in H. cbn [reduceM] in H.
  unfold mergeInit in H. rewrite mergeStep_first in H. cbn [bind] in H.
  destruct (reduceM mergeStep _ rest) as [st|] eqn:E; simpl in H; [|discriminate].
  inversion H; subst m; clear H.
  apply (@reduce_keeps_cell (name q0) One (rows (sheet q0)) rest _ _ _ E Hn).
  cbn [mergedRows]. clear E.
  induction (rows (sheet q0)) as [|r rs IH]; cbn [map].
  - constructor.
  - constructor; [|exact IH]. cbn [own]. now rewrite String.eqb_refl.
Qed.

Lemma mergeSheets_rows_follow_seed_records_witness :
  exists m,
    mergeSheets (Chain.q0 :: [Chain.q1; Chain.q2]) = Ok m
    /\ Forall2 (fun r row => own row (name Chain.q0) = Some (One r))
         (rows (sheet Chain.q0)) (mergedRows m).
Proof.
  eexists. split; [reflexivity|].
  apply (@mergeSheets_rows_follow_seed_records Chain.q0 [Chain.q1; Chain.q2]).
  - reflexivity.
  - simpl. intros [H|[H|[]]]; discriminate.
Defined.

Lemma reduce_no_rows (rest : list sheetQuery) :
  forall acc prev,
    mergedRows acc = [] ->
    exists acc' prev', reduceM mergeStep (acc, Some prev) rest = Ok (acc', prev')
                       /\ mergedRows acc' = [].
Proof.
  induction rest as [|q rest IH]; intros acc prev H.
  - exists acc, (Some prev). now split.
  - cbn [reduceM]. unfold mergeStep at 1. rewrite H. cbn [mapM bind].
    apply (IH (mkMerged (assign (mergedHeaders acc) (name q) (headers (sheet q))) [])
              q eq_refl).
Qed.

(** X18. When the table of the first step has no record, merging returns a
    merged sheet without rows, whatever steps follow: nothing is thrown,
    also when steps lack their join columns. *)
Theorem mergeSheets_empty_seed_has_no_rows :
  forall (q0 : sheetQuery) (rest : list sheetQuery),
    rows (sheet q0) = [] ->
    exists m, mergeSheets (q0 :: rest) = Ok m /\ mergedRows m = [].
Proof.
  intros q0 rest H. unfold mergeSheets. cbn [reduceM]. unfold mergeInit.
  rewrite mergeStep_first, H. cbn [bind map].
  match goal with
  | |- context [reduceM mergeStep (?a, Some ?p) rest] =>
      destruct (@reduce_no_rows rest a p eq_refl) as (acc' & prev' & Hrun & Hrows)
  end.
  exists acc'. rewrite Hrun. now split.
Qed.

Lemma mergeSheets_empty_seed_has_no_rows_witness :
  exists m,
    mergeSheets (mkQuery (mkSheet ["k"] []) None "x" :: [Chain.q2; Chain.q1]) = Ok m
    /\ mergedRows m = [].
Proof. apply mergeSheets_empty_seed_has_no_rows. reflexivity. Defined.

Lemma mapM_Throw_iff {A B} (f : A -> result B) (xs : list A) :
  mapM f xs = Throw <-> exists x, In x xs /\ f x = Throw.
Proof.
  induction xs as [|x xs IH]; simpl.
  - split; [discriminate|intros (x & [] & _)].
  - destruct (f x) as [y|] eqn:E; simpl.
    + destruct (mapM f xs) as [ys|]; simpl.
      * split; [discriminate|]. intros (z & [<-|Hz] & Hf); [congruence|].
        assert (H : @Ok (list B) ys = Throw) by (apply IH; now exists z).
        discriminate.
      * split; [|reflexivity]. intros _.
        destruct IH as (IH & _). destruct (IH eq_refl) as (z & Hz & Hf).
        exists z. split; [now right|exact Hf].
    + split; [|reflexivity]. intros _. exists x. split; [now left|exact E].
Qed.

Lemma rowFilter_Throw_iff (js : option (list string)) (prevName : string)
                          (row : mergedRow) (c : cell) :
  own row prevName = Some c ->
  (rowFilter js prevName row = Throw <-> js = None /\ cellRecords c <> []).
Proof.
  intros H. unfold rowFilter. rewrite H. destruct js as [js|].
  - split; [|intros (E & _); discriminate].
    destruct c as [r|rs]; simpl; [discriminate|].
    rewrite (mapM_Ok_map _ (joinKeys js)) by (intros; reflexivity). discriminate.
  - destruct c as [r|rs]; simpl.
    + split; [intros _; split; [reflexivity|discriminate]|reflexivity].
    + destruct rs as [|r rs]; simpl.
      * split; [discriminate|]. intros (_ & Hne). now contradiction Hne.
      * split; [intros _; split; [reflexivity|discriminate]|reflexivity].
Qed.

(** X19. When a step throws.  After steps that went through, the next step
    throws exactly when the step before it carries no join columns and some
    accumulated row holds at least one record under the name of that step;
    without such a row the missing join columns go unnoticed. *)
Theorem mergeSheets_throws_iff_joins_missing :
  forall (steps : list sheetQuery) (acc : mergedSheet) (prev q : sheetQuery),
    reduceM mergeStep mergeInit steps = Ok (acc, Some prev) ->
    (mergeSheets (steps ++ [q]) = Throw
     <-> joins prev = None
         /\ exists row c, In row (mergedRows acc)
                          /\ own row (name prev) = Some c
                          /\ cellRecords c <> []).
Proof.
  intros steps acc prev q H.
  destruct (state_last _ H) as (_ & _ & Hown).
  unfold mergeSheets. rewrite reduceM_app, H. cbn [bind reduceM].
  unfold mergeStep.
  assert (Hiff : mapM (mergeRow prev q) (mergedRows acc) = Throw
                 <-> joins prev = None
                     /\ exists row c, In row (mergedRows acc)
                                      /\ own row (name prev) = Some c
                                      /\ cellRecords c <> []).
  { rewrite mapM_Throw_iff. split.
    - intros (row & Hrow & Hthrow).
      specialize (Hown _ Hrow).
      destruct (own row (name prev)) as [c|] eqn:Ec; [|congruence].
      unfold mergeRow in Hthrow.
      destruct (rowFilter (joins prev) (name prev) row) as [f|] eqn:Ef;
        [discriminate|].
      apply (rowFilter_Throw_iff _ _ _ Ec) in Ef as (Hj & Hne).
      split; [exact Hj|]. now exists row, c.
    - intros (Hj & row & c & Hrow & Ec & Hne). exists row. split; [exact Hrow|].
      unfold mergeRow.
      assert (Ef : rowFilter (joins prev) (name prev) row = Throw)
        by (apply (rowFilter_Throw_iff _ _ _ Ec); now split).
      now rewrite Ef. }
  destruct (mapM (mergeRow prev q) (mergedRows acc)) as [rs|]; cbn [bind].
  - split; [discriminate|]. intros Hc. apply Hiff in Hc. discriminate.
  - split; [intros _; now apply Hiff|reflexivity].
Qed.

Lemma mergeSheets_throws_iff_joins_missing_witness :
  mergeSheets ([Chain.q0; Chain.q1; Chain.q2] ++ [Chain.q0]) = Throw
  <-> joins Chain.q2 = None
      /\ exists row c,
           In row [[("x", One Chain.seed); ("y", Many [Chain.zipA; Chain.zipB]);
                    ("z", Many [Chain.planB])];
                   [("x", One Chain.lone); ("y", Many []); ("z", Many [])]]
           /\ own row (name Chain.q2) = Some c
           /\ cellRecords c <> [].
Proof.
  apply (@mergeSheets_throws_iff_joins_missing
           [Chain.q0; Chain.q1; Chain.q2]
           (mkMerged [("x", ["k"]); ("y", ["k"; "s"]); ("z", ["s"; "v"])]
              [[("x", One Chain.seed); ("y", Many [Chain.zipA; Chain.zipB]);
                ("z", Many [Chain.planB])];
               [("x", One Chain.lone); ("y", Many []); ("z", Many [])]])
           Chain.q2 Chain.q0).
  reflexivity.
Defined.

(** * Properties of the rate selection *)

Lemma skipn_after_prefix {A} (pre : list A) (x : A) (xs : list A) :
  skipn (S (length pre)) (pre ++ x :: xs) = xs.
Proof. induction pre as [|a pre IH]; simpl; [reflexivity|exact IH]. Qed.

Lemma filterFrom_keepLast (xs : list record) :
  forall pre,
    filterFrom
      (fun plan i =>
         negb (existsb (fun p => strict_eq (rateOf p) (rateOf plan))
                 (skipn (S i) (pre ++ xs))))
      (length pre) xs
    = keepLastOfEachRate xs.
Proof.
  induction xs as [|x xs IH]; intros pre; [reflexivity|].
  cbn [filterFrom keepLastOfEachRate]. rewrite skipn_after_prefix.
  specialize (IH (pre ++ [x])). rewrite <- app_assoc, length_app in IH.
  cbn [app length] in IH. rewrite Nat.add_1_r in IH. rewrite IH.
  now destruct (existsb _ xs).
Qed.

Lemma dedupePlans_keepLast (plans : list record) :
  dedupePlans plans = keepLastOfEachRate plans.
Proof. apply (filterFrom_keepLast plans []). Qed.

Lemma same_rate_later_iff (plan : record) (rest : list record) :
  existsb (fun p => strict_eq (rateOf p) (rateOf plan)) rest = true
  <-> In (rateOf plan) (map rateOf rest).
Proof.
  rewrite existsb_exists, in_map_iff. split.
  - intros (p & Hp & E). apply strict_eq_true_iff in E. now exists p.
  - intros (p & E & Hp). exists p. split; [exact Hp|]. now apply strict_eq_true_iff.
Qed.

Lemma keepLast_rates (plans : list record) (v : value) :
  In v (map rateOf (keepLastOfEachRate plans)) <-> In v (map rateOf plans).
Proof.
  induction plans as [|p rest IH]; [reflexivity|].
  cbn [keepLastOfEachRate].
  destruct (existsb (fun q => strict_eq (rateOf q) (rateOf p)) rest) eqn:E.
  - rewrite IH. simpl. split; [now right|].
    intros [<-|H]; [|exact H]. now apply same_rate_later_iff.
  - simpl. now rewrite IH.
Qed.

Lemma keepLast_NoDup (plans : list record) :
  NoDup (map rateOf (keepLastOfEachRate plans)).
Proof.
  induction plans as [|p rest IH]; [constructor|].
  cbn [keepLastOfEachRate].
  destruct (existsb (fun q => strict_eq (rateOf q) (rateOf p)) rest) eqn:E;
    [exact IH|].
  simpl. constructor; [|exact IH].
  intros Hin. apply -> keepLast_rates in Hin. apply <- same_rate_later_iff in Hin.
  congruence.
Qed.

(** X21. After the removal of duplicates no two plans have the same rate,
    and the rates that occur are the same as before.  Rates are compared as
    the strings they are: [245.2] and [245.20] count as two rates. *)
Theorem dedupePlans_one_plan_per_rate :
  forall (plans : list record),
    NoDup (map rateOf (dedupePlans plans))
    /\ (forall v, In v (map rateOf (dedupePlans plans)) <-> In v (map rateOf plans))
    /\ map rateOf (dedupePlans [[("rate", "245.2")]; [("rate", "245.20")]])
       = [VString "245.2"; VString "245.20"].
Proof.
  intros plans. rewrite dedupePlans_keepLast.
  split; [apply keepLast_NoDup|]. split; [apply keepLast_rates|reflexivity].
Qed.

(** X22. Of the plans that have the same rate, the last one is the one that
    stays: a plan is kept exactly at a position after which no plan has its
    rate. *)
Theorem dedupePlans_keeps_last_occurrence :
  forall (plans : list record) (plan : record),
    In plan (dedupePlans plans)
    <-> exists pre post,
          plans = pre ++ plan :: post
          /\ forall p, In p post -> rateOf p <> rateOf plan.
Proof.
  intros plans plan. rewrite dedupePlans_keepLast. split.
  - induction plans as [|x rest IH]; [intros []|].
    cbn [keepLastOfEachRate].
    destruct (existsb (fun q => strict_eq (rateOf q) (rateOf x)) rest) eqn:E.
    + intros H. destruct (IH H) as (pre & post & -> & Hpost).
      now exists (x :: pre), post.
    + intros [<-|H].
      * exists [], rest. split; [reflexivity|].
        intros p Hp Heq.
        assert (Ht : existsb (fun q => strict_eq (rateOf q) (rateOf x)) rest = true).
        { apply existsb_exists. exists p. split; [exact Hp|].
          now apply strict_eq_true_iff. }
        congruence.
      * destruct (IH H) as (pre & post & -> & Hpost).
        now exists (x :: pre), post.
  - intros (pre & post & -> & Hpost).
    induction pre as [|x pre IH]; cbn [app keepLastOfEachRate].
    + destruct (existsb (fun q => strict_eq (rateOf q) (rateOf plan)) post) eqn:E.
      * apply existsb_exists in E as (p & Hp & Heq).
        apply strict_eq_true_iff in Heq. now destruct (Hpost p Hp).
      * now left.
    + destruct (existsb _ (pre ++ plan :: post)); [exact IH|now right].
Qed.

Lemma everyRateArea_one (a : value) (zips : list record) :
  everyRateArea [a] zips = true <-> forall z, In z zips -> get z "rate_area" = a.
Proof.
  induction zips as [|z zs IH]; cbn [everyRateArea].
  - split; [intros _ z []|reflexivity].
  - cbn [existsb]. rewrite orb_false_r.
    destruct (strict_eq a (get z "rate_area")) eqn:E.
    + apply strict_eq_true_iff in E. cbn [length Nat.eqb]. rewrite IH. split.
      * intros H z' [<-|Hz']; [now symmetry|now apply H].
      * intros H z' Hz'. apply H. now right.
    + cbn [app length Nat.eqb]. split; [discriminate|].
      intros H. specialize (H z (or_introl eq_refl)).
      rewrite H, strict_eq_refl in E. discriminate.
Qed.

Lemma isSingleRateArea_true_iff (zips : list record) :
  isSingleRateArea zips = true
  <-> forall z z', In z zips -> In z' zips -> get z "rate_area" = get z' "rate_area".
Proof.
  unfold isSingleRateArea. destruct zips as [|z0 zs].
  - split; [intros _ z z' []|reflexivity].
  - cbn [everyRateArea existsb app length Nat.eqb]. rewrite everyRateArea_one. split.
    + intros H z z' Hz Hz'.
      assert (Hall : forall x, In x (z0 :: zs) -> get x "rate_area" = get z0 "rate_area").
      { intros x [<-|Hx]; [reflexivity|now apply H]. }
      now rewrite (Hall z Hz), (Hall z' Hz').
    + intros H z Hz. apply H; [now right|now left].
Qed.

(** X23. The zips of a row count as a single rate area exactly when they
    all have the same [rate_area]; a row without zips counts as one. *)
Theorem isSingleRateArea_iff_all_equal :
  forall (zips : list record),
    (isSingleRateArea zips = true
     <-> forall z z', In z zips -> In z' zips ->
                      get z "rate_area" = get z' "rate_area")
    /\ isSingleRateArea [] = true.
Proof.
  intros zips. split; [apply isSingleRateArea_true_iff|reflexivity].
Qed.

Lemma NoDup_all_equal_short {A} (l : list A) :
  NoDup l -> (forall x y, In x l -> In y l -> x = y) -> length l <= 1.
Proof.
  intros Hnd Heq. destruct l as [|a [|b l]]; simpl; try lia.
  exfalso. inversion Hnd as [|? ? Hn _]; subst. apply Hn.
  rewrite (Heq a b); [now left|now left|right; now left].
Qed.

Lemma short_all_equal {A} (l : list A) :
  length l <= 1 -> forall x y, In x l -> In y l -> x = y.
Proof.
  destruct l as [|a [|b l]]; simpl; intros H x y Hx Hy; [destruct Hx| |lia].
  destruct Hx as [<-|[]], Hy as [<-|[]]. reflexivity.
Qed.

Lemma dedupePlans_short_iff (plans : list record) :
  length (dedupePlans plans) <= 1
  <-> forall p q, In p plans -> In q plans -> rateOf p = rateOf q.
Proof.
  rewrite dedupePlans_keepLast.
  rewrite <- (length_map rateOf (keepLastOfEachRate plans)). split.
  - intros H p q Hp Hq. apply (@short_all_equal _ _ H).
    + apply <- keepLast_rates. now apply in_map.
    + apply <- keepLast_rates. now apply in_map.
  - intros H. apply NoDup_all_equal_short; [apply keepLast_NoDup|].
    intros x y Hx Hy. apply -> keepLast_rates in Hx. apply -> keepLast_rates in Hy.
    apply in_map_iff in Hx as (p & <- & Hp). apply in_map_iff in Hy as (q & <- & Hq).
    now apply H.
Qed.

Lemma In_dedupePlans (plans : list record) (plan : record) :
  In plan (dedupePlans plans) -> In plan plans.
Proof.
  rewrite dedupePlans_keepLast.
  induction plans as [|x rest IH]; [intros []|]. cbn [keepLastOfEachRate].
  destruct (existsb _ rest).
  - intros H. right. now apply IH.
  - intros [<-|H]; [now left|right; now apply IH].
Qed.

(** X24. The rate of a row.  Whatever order the sort puts the plans in, as
    long as it returns the plans it was given: the rate is left empty
    exactly when the zips of the row do not all have the same rate area or
    the plans of the row have fewer than two different rates; otherwise the
    rate printed is the rate of one of the plans of the row. *)
Theorem slcspPlan_none_iff :
  forall (sortByRate : list record -> list record) (toFixed2 : value -> string)
         (zips plans : list record),
    (forall l, Permutation l (sortByRate l)) ->
    (slcspPlan sortByRate zips plans = None
     <-> ~ (forall z z', In z zips -> In z' zips ->
                         get z "rate_area" = get z' "rate_area")
         \/ (forall p q, In p plans -> In q plans -> rateOf p = rateOf q))
    /\ (slcspPlan sortByRate zips plans = None ->
        slcspRate sortByRate toFixed2 zips plans = ""%string)
    /\ (forall plan, slcspPlan sortByRate zips plans = Some plan ->
                     In plan plans
                     /\ slcspRate sortByRate toFixed2 zips plans
                        = toFixed2 (rateOf plan)).
Proof.
  intros sortByRate toFixed2 zips plans Hperm.
  assert (Hnth : nth_error (sortByRate (dedupePlans plans)) 1 = None
                 <-> forall p q, In p plans -> In q plans -> rateOf p = rateOf q).
  { rewrite nth_error_None, <- (Permutation_length (Hperm (dedupePlans plans))).
    rewrite <- dedupePlans_short_iff. lia. }
  split; [|split].
  - unfold slcspPlan. destruct (isSingleRateArea zips) eqn:E.
    + rewrite Hnth. split; [now right|]. intros [H|H]; [|exact H].
      exfalso. apply H. now apply isSingleRateArea_true_iff.
    + split; [|reflexivity]. intros _. left. intros H.
      apply isSingleRateArea_true_iff in H. congruence.
  - intros H. unfold slcspRate. now rewrite H.
  - intros plan H. split.
    + unfold slcspPlan in H. destruct (isSingleRateArea zips); [|discriminate].
      apply nth_error_In in H. apply In_dedupePlans.
      eapply Permutation_in; [apply Permutation_sym, Hperm|exact H].
    + unfold slcspRate. now rewrite H.
Qed.

Lemma slcspPlan_none_iff_witness :
  (slcspPlan (fun l => l) [[("rate_area", "1")]; [("rate_area", "2")]]
     [[("rate", "1")]; [("rate", "2")]] = None
   <-> ~ (forall z z',
            In z [[("rate_area", "1")]; [("rate_area", "2")]] ->
            In z' [[("rate_area", "1")]; [("rate_area", "2")]] ->
            get z "rate_area" = get z' "rate_area")
       \/ (forall p q, In p [[("rate", "1")]; [("rate", "2")]] ->
                       In q [[("rate", "1")]; [("rate", "2")]] ->
                       rateOf p = rateOf q))
  /\ (slcspPlan (fun l => l) [[("rate_area", "1")]; [("rate_area", "2")]]
        [[("rate", "1")]; [("rate", "2")]] = None ->
      slcspRate (fun l => l) (fun _ => "0.00"%string)
        [[("rate_area", "1")]; [("rate_area", "2")]]
        [[("rate", "1")]; [("rate", "2")]] = ""%string)
  /\ (forall plan,
        slcspPlan (fun l => l) [[("rate_area", "1")]; [("rate_area", "2")]]
          [[("rate", "1")]; [("rate", "2")]] = Some plan ->
        In plan [[("rate", "1")]; [("rate", "2")]]
        /\ slcspRate (fun l => l) (fun _ => "0.00"%string)
             [[("rate_area", "1")]; [("rate_area", "2")]]
             [[("rate", "1")]; [("rate", "2")]]
           = (fun _ => "0.00"%string) (rateOf plan)).
Proof.
  apply (@slcspPlan_none_iff (fun l => l) (fun _ => "0.00"%string)).
  intros l. apply Permutation_refl.
Defined.

(** * Sharing between the merged sheet and the Tables *)

Lemma loadArray_Done (l : loc) (h h' : heap) (ls : list loc) :
  loadArray l h = Done ls h' -> h' = h /\ nth_error h l = Some (HArray ls).
Proof.
  intros H. apply bindM_Done in H as (o & h1 & Hl & Hk).
  apply load_Done in Hl as (-> & Hl).
  destruct o; try discriminate. inversion Hk; subst. auto.
Qed.

Lemma keepM_Done (f : record -> bool) (ls : list loc) :
  forall h kept h',
    keepM f ls h = Done kept h' ->
    h' = h /\ incl kept ls
    /\ forall l, In l kept -> exists r, readRecord h l = Some r /\ f r = true.
Proof.
  induction ls as [|l ls IH]; intros h kept h' H; cbn [keepM] in H.
  - inversion H; subst. split; [reflexivity|]. split; [intros x []|intros x []].
  - apply bindM_Done in H as (r & h1 & H1 & H).
    pose proof H1 as H1'. apply readonly_loadRecord in H1'. subst h1.
    assert (Hr : readRecord h l = Some r).
    { unfold loadRecord in H1. apply bindM_Done in H1 as (o & h2 & Hl & Hk).
      apply load_Done in Hl as (-> & Hl). unfold readRecord. rewrite Hl.
      destruct o; try discriminate. now inversion Hk. }
    apply bindM_Done in H as (rest & h1 & H2 & H).
    destruct (IH _ _ _ H2) as (-> & Hincl & Hpass).
    inversion H; subst h' kept; clear H.
    split; [reflexivity|]. destruct (f r) eqn:E.
    + split.
      * intros x [<-|Hx]; [now left|right; now apply Hincl].
      * intros x [<-|Hx]; [now exists r|now apply Hpass].
    + split; [intros x Hx; right; now apply Hincl|exact Hpass].
Qed.

(** X20. No Record is copied by a join.  The match list that a step stores
    in the new row is a new array, but its elements are references taken
    from the rows array of the step's Table, each to a Record that passes
    the row's filter; the Table and every other object already in the store
    are left as they were.  A change made later to a Record of the merged
    sheet is therefore a change to the Record of the Table. *)
Theorem mergeRowH_shares_table_records :
  forall (prevH qH : sheetQueryH) (rowLoc : loc) (h h' : heap) (l' : loc),
    mergeRowH prevH qH rowLoc h = Done l' h' ->
    exists cells ps sr cands kept,
      nth_error h rowLoc = Some (HObject cells)
      /\ nth_error h (sheetH qH) = Some (HObject ps)
      /\ own ps "rows" = Some sr
      /\ nth_error h sr = Some (HArray cands)
      /\ incl kept cands
      /\ (forall l, In l kept -> exists r, readRecord h l = Some r)
      /\ nth_error h' (length h) = Some (HArray kept)
      /\ nth_error h' l' = Some (HObject (define cells (nameH qH) (length h)))
      /\ keeps [] h h'.
Proof.
  unfold mergeRowH. intros prevH qH rowLoc h h' l' H.
  apply bindM_Done in H as (cells & h1 & H1 & H).
  apply loadObject_Done in H1 as (-> & Hcells).
  apply bindM_Done in H as (f & h1 & H1 & H).
  apply readonly_rowFilterH in H1. subst h1.
  apply bindM_Done in H as (ps & h1 & H1 & H).
  apply loadObject_Done in H1 as (-> & Hps).
  apply bindM_Done in H as (sr & h1 & H1 & H).
  apply field_Done in H1 as (-> & Hsr).
  apply bindM_Done in H as (cands & h1 & H1 & H).
  apply loadArray_Done in H1 as (-> & Hcands).
  apply bindM_Done in H as (kept & h1 & H1 & H).
  apply keepM_Done in H1 as (-> & Hincl & Hpass).
  apply bindM_Done in H as (matched & h1 & H1 & H).
  rewrite run_alloc in H1. inversion H1; subst matched h1; clear H1.
  rewrite run_alloc in H. inversion H; subst l' h'; clear H.
  exists cells, ps, sr, cands, kept.
  repeat (split; [assumption|]).
  split. { intros l Hl. destruct (Hpass l Hl) as (r & Hr & _). now exists r. }
  split. { apply nth_error_app_Some. apply nth_error_app_new. }
  split. { apply nth_error_app_new. }
  eapply keeps_trans; apply keeps_app.
Qed.

Lemma mergeRowH_shares_table_records_witness :
  exists l' h',
    mergeRowH (mkQueryH 11 (Some ["k"]) "x") (mkQueryH 12 (Some ["s"]) "y") 15
      (ChainH.h0 ++ [HObject [("x", 0)]]) = Done l' h'
    /\ exists cells ps sr cands kept,
         nth_error (ChainH.h0 ++ [HObject [("x", 0)]]) 15 = Some (HObject cells)
         /\ nth_error (ChainH.h0 ++ [HObject [("x", 0)]]) 12 = Some (HObject ps)
         /\ own ps "rows" = Some sr
         /\ nth_error (ChainH.h0 ++ [HObject [("x", 0)]]) sr = Some (HArray cands)
         /\ incl kept cands
         /\ (forall l, In l kept ->
                       exists r, readRecord (ChainH.h0 ++ [HObject [("x", 0)]]) l = Some r)
         /\ nth_error h' (length (ChainH.h0 ++ [HObject [("x", 0)]])) = Some (HArray kept)
         /\ nth_error h' l'
            = Some (HObject (define cells "y" (length (ChainH.h0 ++ [HObject [("x", 0)]]))))
         /\ keeps [] (ChainH.h0 ++ [HObject [("x", 0)]]) h'.
Proof.
  eexists. eexists. split; [vm_compute; reflexivity|].
  apply (@mergeRowH_shares_table_records
           (mkQueryH 11 (Some ["k"]) "x") (mkQueryH 12 (Some ["s"]) "y") 15
           (ChainH.h0 ++ [HObject [("x", 0)]])).
  vm_compute. reflexivity.
Defined.

(** * The merge that [run] performs *)

Lemma filter_ext_all {A} (f g : A -> bool) (xs : list A) :
  (forall x, f x = g x) -> List.filter f xs = List.filter g xs.
Proof.
  intros H. induction xs as [|x xs IH]; simpl; [reflexivity|].
  now rewrite H, IH.
Qed.

Lemma zipcode_filter (slcsp zip : record) :
  createQueryFilter (map (joinKeys ["zipcode"]) (cellRecords (One slcsp))) zip
  = sameZipcode slcsp zip.
Proof.
  unfold createQueryFilter, sameZipcode. cbn [cellRecords map joinKeys existsb forallb fst snd].
  now rewrite andb_true_r, orb_false_r.
Qed.

Lemma rate_area_filter (zs : list record) (plan : record) :
  createQueryFilter (map (joinKeys ["state"; "rate_area"]) (cellRecords (Many zs))) plan
  = existsb (fun zip => sameRateArea zip plan) zs.
Proof.
  unfold createQueryFilter, sameRateArea. cbn [cellRecords].
  induction zs as [|z zs IH]; [reflexivity|].
  cbn [map joinKeys existsb forallb fst snd]. rewrite andb_true_r. now rewrite IH.
Qed.

(** X25. What [run] merges.  For any three tables the merge of [run]
    throws nothing and returns one row per record of the slcsp table, in its
    order; the row holds that record, the zips whose zipcode equals the
    record's, in the order of the zips table, and the plans whose state and
    rate area both equal those of one of these zips, in the order of the
    plans table. *)
Theorem runMerge_rows :
  forall (slcsps plans zips : sheetT),
    runMerge slcsps plans zips
    = Ok (mkMerged
            [("slcsp", headers slcsps); ("zips", headers zips); ("plans", headers plans)]
            (map (fun slcsp =>
                    [("slcsp", One slcsp);
                     ("zips", Many (zipsOf zips slcsp));
                     ("plans", Many (plansOf plans (zipsOf zips slcsp)))])
               (rows slcsps))).
Proof.
  intros slcsps plans zips. unfold runMerge, mergeSheets, mergeInit.
  cbn [reduceM]. rewrite mergeStep_first. cbn [bind sheet name headers rows].
  unfold mergeStep at 1. cbn [sheet name headers rows mergedHeaders mergedRows].
  rewrite (mapM_Ok_map _
             (fun row : mergedRow =>
                match own row "slcsp" with
                | Some c => define row "zips" (Many (matches ["zipcode"] c zips))
                | None => row
                end)).
  2:{ intros row Hrow. apply in_map_iff in Hrow as (r & <- & _).
      apply (@mergeRow_own (mkQuery slcsps (Some ["zipcode"]) "slcsp")
               (mkQuery zips (Some ["state"; "rate_area"]) "zips")
               ["zipcode"] [("slcsp", One r)] (One r)); reflexivity. }
  cbn [bind]. unfold mergeStep at 1.
  cbn [sheet name headers rows mergedHeaders mergedRows].
  rewrite (mapM_Ok_map _
             (fun row : mergedRow =>
                match own row "zips" with
                | Some c => define row "plans" (Many (matches ["state"; "rate_area"] c plans))
                | None => row
                end)).
  2:{ intros row Hrow. apply in_map_iff in Hrow as (row0 & <- & Hrow0).
      apply in_map_iff in Hrow0 as (r & <- & _).
      apply (@mergeRow_own (mkQuery zips (Some ["state"; "rate_area"]) "zips")
               (mkQuery plans None "plans")
               ["state"; "rate_area"] _ (Many (matches ["zipcode"] (One r) zips)));
        reflexivity. }
  cbn [bind fst]. f_equal. f_equal. rewrite !map_map.
  apply map_ext. intros r.
  change (own [("slcsp", One r)] "slcsp") with (Some (One r)).
  cbv iota beta.
  change (define [("slcsp", One r)] "zips" (Many (matches ["zipcode"] (One r) zips)))
    with [("slcsp", One r); ("zips", Many (matches ["zipcode"] (One r) zips))].
  change (own [("slcsp", One r); ("zips", Many (matches ["zipcode"] (One r) zips))] "zips")
    with (Some (Many (matches ["zipcode"] (One r) zips))).
  cbv iota beta.
  assert (Hz : matches ["zipcode"] (One r) zips = zipsOf zips r).
  { unfold matches, zipsOf. apply filter_ext_all. intros z. apply zipcode_filter. }
  rewrite Hz.
  assert (Hp : matches ["state"; "rate_area"] (Many (zipsOf zips r)) plans
               = plansOf plans (zipsOf zips r)).
  { unfold matches, plansOf. apply filter_ext_all. intros p. apply rate_area_filter. }
  rewrite Hp. reflexivity.
Qed.
